(** * JSON-Parser (ers::json): a shallow embedding of json.h

    The development follows the layout of the header:
    - the node model ([JsonNode], its predicates and accessors),
    - the value codec of namespace [util] (decimal and hexadecimal readers,
      the JSON string to UTF-8 transcoder),
    - the path resolver [get_value_node],
    - the scanner ([getNextToken] and the [match*] helpers),
    - the builder ([Parse], [parseArray], [parseObject], [pushNode]).

    Conventions of the embedding.
    - A pointer into the JSON text is an offset ([nat]) from [m_begin]; a
      pointer into the node buffer is an index ([nat]); a pointer that may be
      [nullptr] is an [option].
    - Fixed-width integers are [Z] with the wrap-around written out ([u32],
      [u64], [s64]); [size_type] counters that index memory are [nat].
    - A function returns an [outcome]: either a value, or one of the ways the
      C++ leaves its defined behaviour or never returns: a failed
      [JSON_ASSERT] (the macro calls [exit]; assertions are compiled in unless
      [JSON_NDEBUG] is defined), a read outside the bytes or nodes the function
      was given, a dereference of [nullptr], or - for the loops that Rocq
      cannot see to terminate - exhausted fuel.
    - [m_errorLog] is the 256-byte buffer of diagnostic text; the model keeps
      the bytes [m_errorLog .. m_errorLogPos) written so far.  What
      [vsnprintf] would write is computed in full, as its return value
      counts it, and [appendToErrorLog] asserts that it fits. *)

From Stdlib Require Import ZArith Ascii String List Lia Bool.
From stdpp Require Import base tactics option list strings.
Import ListNotations.

Set Default Proof Using "Type".
Local Open Scope nat_scope.

(** ** Outcomes *)

Inductive fault : Type :=
| AssertFailed   (* JSON_ASSERT / JSON_ASSERTF: the process exits *)
| OutOfBounds    (* a read outside the bytes or nodes at hand *)
| NullDeref      (* a member access through nullptr *)
| OutOfFuel.     (* the model's loop bound was reached *)

Inductive outcome (A : Type) : Type :=
| Ret (a : A)
| Fault (f : fault).
Arguments Ret {A} a.
Arguments Fault {A} f.

#[global] Instance outcome_ret : MRet outcome := @Ret.
#[global] Instance outcome_bind : MBind outcome :=
  fun A B f m => match m with Ret a => f a | Fault e => Fault e end.

Definition JSON_ASSERT (b : bool) : outcome unit :=
  if b then Ret tt else Fault AssertFailed.

(** ** Bytes and fixed-width integers *)

Definition bytes := list ascii.

Definition byte_val (ch : ascii) : Z := Z.of_N (N_of_ascii ch).

(** [char] as the x86-64 and MSVC ABIs have it: signed. *)
Definition char_val (ch : ascii) : Z :=
  if (byte_val ch <? 128)%Z then byte_val ch else (byte_val ch - 256)%Z.

Definition u8 (z : Z) : Z := (z mod 2 ^ 8)%Z.
Definition u32 (z : Z) : Z := (z mod 2 ^ 32)%Z.
Definition u64 (z : Z) : Z := (z mod 2 ^ 64)%Z.
Definition s64 (z : Z) : Z := ((z + 2 ^ 63) mod 2 ^ 64 - 2 ^ 63)%Z.

Definition u8_char (z : Z) : ascii := ascii_of_N (Z.to_N (u8 z)).

Definition dquote : ascii := "034"%char.
Definition backslash : ascii := "\"%char.
Definition newline : ascii := "010"%char.

(** [*p] for [p = base + i] inside the range [base, base + length s). *)
Definition read (s : bytes) (i : nat) : outcome ascii :=
  match s !! i with
  | Some ch => Ret ch
  | None => Fault OutOfBounds
  end.

(** [memcmp(a, b, n)]: the sign of the first difference of the first [n]
    bytes, compared as [unsigned char]. *)
Fixpoint memcmp (a b : bytes) (n : nat) {struct n} : outcome Z :=
  match n with
  | 0 => Ret 0%Z
  | S n' =>
      match a, b with
      | x :: a', y :: b' =>
          r ← memcmp a' b' n';
          Ret (if (byte_val x <? byte_val y)%Z then (-1)%Z
               else if (byte_val y <? byte_val x)%Z then 1%Z
               else r)
      | _, _ => Fault OutOfBounds
      end
  end.

(** The length of the longest prefix of [s] whose bytes satisfy [f]: the
    number of steps of a loop that advances [p] while [p != end] and
    [f] holds of the byte at [p]. *)
Fixpoint span_len (f : ascii -> bool) (s : bytes) : nat :=
  match s with
  | ch :: s' => if f ch then S (span_len f s') else 0
  | [] => 0
  end.

(** JSON text for the examples, written with an apostrophe for each
    quotation mark. *)
Definition json_text (s : string) : bytes :=
  map (fun ch => if Ascii.eqb ch "'" then dquote else ch) (list_ascii_of_string s).

(** ** Token and node kinds *)

Module JsonTokenType.
Inductive t : Type :=
| INVALID
| JSON_ARRAY_BEGIN | JSON_OBJECT_BEGIN | JSON_ARRAY_END | JSON_OBJECT_END
| JSON_COLON | JSON_COMMA
| JSON_TRUE | JSON_FALSE | JSON_NULL
| JSON_NUMBER | JSON_STRING
| JSON_FLOAT_HEX | JSON_DOUBLE_HEX
| JSON_KEY | JSON_EOF
| SYNTACTIC_ERROR.

#[global] Instance eq_dec : EqDecision t.
Proof. solve_decision. Defined.

Definition eqb (a b : t) : bool := bool_decide (a = b).
End JsonTokenType.

Module string_view.
(** [data] is the offset of the viewed bytes in the JSON text. *)
Record t : Type := mk { data : nat; length : nat }.
End string_view.

Module JsonToken.
Record t : Type := mk {
  data : nat;
  length : nat;
  type : JsonTokenType.t
}.
End JsonToken.

Module JsonNodeType.
Inductive t : Type :=
| INVALID
| JSON_ARRAY | JSON_OBJECT
| JSON_TRUE | JSON_FALSE | JSON_NULL
| JSON_NUMBER | JSON_FLOAT_HEX | JSON_DOUBLE_HEX
| JSON_STRING | JSON_KEY | JSON_EOF
| SYNTACTIC_ERROR.

#[global] Instance eq_dec : EqDecision t.
Proof. solve_decision. Defined.

Definition eqb (a b : t) : bool := bool_decide (a = b).
End JsonNodeType.

Module JsonErrorCode.
Inductive t : Type :=
| NOT_DONE | VALID_JSON | INVALID_TOKENS | SYNTACTIC_ERRORS | CAPACITY_EXCEEDED.

#[global] Instance eq_dec : EqDecision t.
Proof. solve_decision. Defined.

Definition eqb (a b : t) : bool := bool_decide (a = b).
End JsonErrorCode.

(** ** The node model *)

Module JsonNode.
(** The C++ overlays [as_sv] and [count] in a union; the node kind says
    which one is meaningful.  Here they are two fields, and a container's
    [as_sv] is never read ([GetAsStringView] asserts). *)
Record t : Type := mk {
  as_sv : string_view.t;
  count : nat;
  type : JsonNodeType.t;
  next : option nat
}.

(** [JsonNode::JsonNode(const JsonToken&)].  The four structural token
    kinds that never become nodes fall to the asserting [default]. *)
Definition of_token (token : JsonToken.t) : outcome t :=
  let sv := string_view.mk (JsonToken.data token) (JsonToken.length token) in
  let node := fun ty => Ret (mk sv 0 ty None) in
  match JsonToken.type token with
  | JsonTokenType.JSON_ARRAY_BEGIN => node JsonNodeType.JSON_ARRAY
  | JsonTokenType.JSON_OBJECT_BEGIN => node JsonNodeType.JSON_OBJECT
  | JsonTokenType.JSON_STRING => node JsonNodeType.JSON_STRING
  | JsonTokenType.JSON_KEY => node JsonNodeType.JSON_KEY
  | JsonTokenType.JSON_TRUE => node JsonNodeType.JSON_TRUE
  | JsonTokenType.JSON_FALSE => node JsonNodeType.JSON_FALSE
  | JsonTokenType.JSON_NULL => node JsonNodeType.JSON_NULL
  | JsonTokenType.JSON_NUMBER => node JsonNodeType.JSON_NUMBER
  | JsonTokenType.JSON_FLOAT_HEX => node JsonNodeType.JSON_FLOAT_HEX
  | JsonTokenType.JSON_DOUBLE_HEX => node JsonNodeType.JSON_DOUBLE_HEX
  | JsonTokenType.INVALID => node JsonNodeType.INVALID
  | JsonTokenType.SYNTACTIC_ERROR => node JsonNodeType.SYNTACTIC_ERROR
  | JsonTokenType.JSON_EOF => node JsonNodeType.JSON_EOF
  | JsonTokenType.JSON_ARRAY_END | JsonTokenType.JSON_OBJECT_END
  | JsonTokenType.JSON_COLON | JsonTokenType.JSON_COMMA => Fault AssertFailed
  end.

Definition set_count (c : nat) (n : t) : t := mk (as_sv n) c (type n) (next n).
Definition set_next (nx : option nat) (n : t) : t := mk (as_sv n) (count n) (type n) nx.

Definition IsKey (n : t) : bool := JsonNodeType.eqb (type n) JsonNodeType.JSON_KEY.

Definition IsInvalid (n : t) : bool :=
  JsonNodeType.eqb (type n) JsonNodeType.INVALID
  || JsonNodeType.eqb (type n) JsonNodeType.SYNTACTIC_ERROR.

Definition IsValue (n : t) : bool := negb (IsKey n) && negb (IsInvalid n).

Definition IsArray (n : t) : bool := JsonNodeType.eqb (type n) JsonNodeType.JSON_ARRAY.
Definition IsObject (n : t) : bool := JsonNodeType.eqb (type n) JsonNodeType.JSON_OBJECT.
Definition IsComplex (n : t) : bool := IsArray n || IsObject n.

Definition IsNumber (n : t) : bool :=
  JsonNodeType.eqb (type n) JsonNodeType.JSON_NUMBER
  || JsonNodeType.eqb (type n) JsonNodeType.JSON_FLOAT_HEX
  || JsonNodeType.eqb (type n) JsonNodeType.JSON_DOUBLE_HEX.

Definition IsBool (n : t) : bool :=
  JsonNodeType.eqb (type n) JsonNodeType.JSON_TRUE
  || JsonNodeType.eqb (type n) JsonNodeType.JSON_FALSE.

Definition IsString (n : t) : bool :=
  JsonNodeType.eqb (type n) JsonNodeType.JSON_STRING
  || JsonNodeType.eqb (type n) JsonNodeType.JSON_KEY.

Definition IsNull (n : t) : bool := JsonNodeType.eqb (type n) JsonNodeType.JSON_NULL.
Definition IsEOF (n : t) : bool := JsonNodeType.eqb (type n) JsonNodeType.JSON_EOF.

(** The accessors that compute with [this] take the node's own index. *)
Definition GetFirst (this : nat) (n : t) : option nat :=
  if IsComplex n && negb (count n =? 0) then Some (this + 1) else None.

Definition GetValue (this : nat) (n : t) : option nat :=
  if IsKey n then Some (this + 1) else if IsValue n then Some this else None.

Definition GetNext (n : t) : option nat := next n.

Definition GetCount (n : t) : outcome nat :=
  _ ← JSON_ASSERT (IsComplex n);
  Ret (count n).
End JsonNode.

(** ** The value codec: namespace [util] *)

Definition isdigit (ch : ascii) : bool :=
  (48 <=? char_val ch)%Z && (char_val ch <=? 57)%Z.

(** [hex_digit_to_u32]. *)
Definition hex_digit_to_u32 (ch : ascii) : outcome Z :=
  let c := char_val ch in
  let result := u32 c in
  if (48 <=? c)%Z && (c <=? 57)%Z then Ret (u32 (result - 48))
  else if (97 <=? c)%Z && (c <=? 102)%Z then Ret (u32 (result - 87))
  else if (65 <=? c)%Z && (c <=? 70)%Z then Ret (u32 (result - 55))
  else Fault AssertFailed.

(** The loop that replaces [x] by [x * 16] plus the value of the next
    hex digit, run [count] times on a
    32-bit accumulator; [s] holds the bytes from [p] on. *)
Fixpoint hex_accumulate_u32 (count : nat) (s : bytes) (x : Z) : outcome Z :=
  match count with
  | 0 => Ret x
  | S count' =>
      ch ← read s 0;
      d ← hex_digit_to_u32 ch;
      hex_accumulate_u32 count' (drop 1 s) (u32 (x * 16 + d))
  end.

(** [hex_to_float]: the result is the [f32] whose IEEE-754 bit pattern is
    the returned 32-bit number ([memcpy] of all of [x]). *)
Definition hex_to_float (s : bytes) : outcome Z :=
  hex_accumulate_u32 8 (drop 2 s) 0.

(** [hex_to_double]: the accumulator [x] is declared [u32] here as well, and
    [memcpy] then copies [sizeof(f64)] = 8 bytes starting at [&x]: the four
    bytes of [x] followed by the four bytes that happen to lie behind it,
    [adjacent].  The result is the [f64] whose bit pattern is the returned
    64-bit number (little-endian byte order). *)
Definition hex_to_double (adjacent : Z) (s : bytes) : outcome Z :=
  x ← hex_accumulate_u32 16 (drop 2 s) 0;
  Ret (x + 2 ^ 32 * u32 adjacent)%Z.

(** The digit loop of [to_u64]: returns [n] and the number of digits read. *)
Fixpoint to_u64_digits (s : bytes) (n : Z) : Z * nat :=
  match s with
  | ch :: s' =>
      if isdigit ch then
        let '(n', k) := to_u64_digits s' (u64 (n * 10 + u64 (char_val ch - 48))) in
        (n', S k)
      else (n, 0)
  | [] => (n, 0)
  end.

(** [to_u64(s, end, out)] on the bytes [s .. end): the pair of the returned
    count and the value stored in [*out]. *)
Definition to_u64 (s : bytes) : outcome (nat * Z) :=
  let '(n, result) := to_u64_digits s 0 in
  overflow ←
    (if 20 <? result then Ret true
     else if result =? 20 then
       c ← memcmp s (list_ascii_of_string "18446744073709551615") 20;
       Ret (0 <? c)%Z
     else Ret false);
  Ret (if overflow : bool then 0 else result, n).

Fixpoint to_s64_digits (s : bytes) (n : Z) : Z * nat :=
  match s with
  | ch :: s' =>
      if isdigit ch then
        let '(n', k) := to_s64_digits s' (s64 (n * 10 + s64 (char_val ch - 48))) in
        (n', S k)
      else (n, 0)
  | [] => (n, 0)
  end.

(** [to_s64(s, end, out)].  The first byte is read before any comparison
    with [end]. *)
Definition to_s64 (s : bytes) : outcome (nat * Z) :=
  ch ← read s 0;
  let sign := Ascii.eqb ch "-" in
  let p := if sign then 1 else 0 in
  let '(n, k) := to_s64_digits (drop p s) 0 in
  let result := p + k in
  overflow ←
    (if negb sign then
       if 19 <? result then Ret true
       else if result =? 19 then
         c ← memcmp s (list_ascii_of_string "9223372036854775807") 19;
         Ret (0 <? c)%Z
       else Ret false
     else
       if 20 <? result then Ret true
       else if result =? 20 then
         c ← memcmp s (list_ascii_of_string "-9223372036854775808") 20;
         Ret (0 <? c)%Z
       else Ret false);
  Ret (if overflow : bool then 0 else result, if sign then s64 (- n) else n).

(** The checked four-digit loops of [json_string_to_utf8]: each round asserts
    [p < end] and then accumulates the hex digit at [p] into a 32-bit
    codepoint. *)
Fixpoint hex4_asserted (count : nat) (src : bytes) (length p : nat) (acc : Z)
  : outcome (Z * nat) :=
  match count with
  | 0 => Ret (acc, p)
  | S count' =>
      _ ← JSON_ASSERT (p <? length);
      ch ← read src p;
      d ← hex_digit_to_u32 ch;
      hex4_asserted count' src length (S p) (u32 (acc * 16 + d))
  end.

(** The UTF-8 bytes written for [codepoint] when a destination is given. *)
Definition utf8_encode (codepoint : Z) : bytes :=
  if (codepoint <? 128)%Z then [u8_char codepoint]
  else if (codepoint <? 2048)%Z then
    [u8_char (Z.lor (Z.land (Z.shiftr codepoint 6) 31) 192);
     u8_char (Z.lor (Z.land codepoint 63) 128)]
  else if (codepoint <? 65536)%Z then
    [u8_char (Z.lor (Z.land (Z.shiftr codepoint 12) 15) 224);
     u8_char (Z.lor (Z.land (Z.shiftr codepoint 6) 63) 128);
     u8_char (Z.lor (Z.land codepoint 63) 128)]
  else if (codepoint <? 1114112)%Z then
    [u8_char (Z.lor (Z.land (Z.shiftr codepoint 18) 7) 240);
     u8_char (Z.lor (Z.land (Z.shiftr codepoint 12) 63) 128);
     u8_char (Z.lor (Z.land (Z.shiftr codepoint 6) 63) 128);
     u8_char (Z.lor (Z.land codepoint 63) 128)]
  else [].

(** The length added for [codepoint] when no destination is given. *)
Definition utf8_measure (codepoint : Z) : nat :=
  1 + (if (128 <=? codepoint)%Z then 1 else 0)
    + (if (2048 <=? codepoint)%Z then 1 else 0)
    + (if (65536 <=? codepoint)%Z then 1 else 0).

(** The byte a single-character escape stands for. *)
Definition escape_byte (ch : ascii) : option ascii :=
  if Ascii.eqb ch "0" then Some "000"%char
  else if Ascii.eqb ch "a" then Some "007"%char
  else if Ascii.eqb ch "b" then Some "008"%char
  else if Ascii.eqb ch "t" then Some "009"%char
  else if Ascii.eqb ch "v" then Some "011"%char
  else if Ascii.eqb ch "f" then Some "012"%char
  else if Ascii.eqb ch "r" then Some "013"%char
  else if Ascii.eqb ch "n" then Some "010"%char
  else None.

(** The loop of [json_string_to_utf8].  [out] says whether [dest] is not
    null; [src] holds the bytes from the source pointer on, [length] is the
    length passed in, [p] the offset reached; [written] collects the bytes
    stored through [out] and [len] is the measuring counter. *)
Fixpoint json_string_to_utf8_loop (fuel : nat) (out : bool) (src : bytes)
    (length p : nat) (written : bytes) (len : nat) : outcome (bytes * nat) :=
  match fuel with
  | 0 => Fault OutOfFuel
  | S fuel' =>
      if negb (p <? length) then Ret (written, len)
      else
        ch ← read src p;
        if Ascii.eqb ch backslash then
          let p := S p in
          ch ← read src p;
          if Ascii.eqb ch backslash || Ascii.eqb ch "/" || Ascii.eqb ch dquote then
            if out then json_string_to_utf8_loop fuel' out src length (S p) (written ++ [ch]) len
            else json_string_to_utf8_loop fuel' out src length (S p) written (S len)
          else if Ascii.eqb ch "u" then
            let p := S p in
            '(codepoint, p) ← hex4_asserted 4 src length p 0;
            '(codepoint, p) ←
              (if (55296 <=? codepoint)%Z && (codepoint <=? 56319)%Z then
                 let p := p + 2 in
                 '(extra, p) ← hex4_asserted 4 src length p 0;
                 Ret (u32 (u32 (Z.shiftl (u32 (codepoint - 55296)) 10)
                           + u32 (codepoint - 56320) + 65536), p)
               else Ret (codepoint, p));
            _ ← JSON_ASSERT (codepoint <? 1114112)%Z;
            if out then
              json_string_to_utf8_loop fuel' out src length p (written ++ utf8_encode codepoint) len
            else
              json_string_to_utf8_loop fuel' out src length p written (len + utf8_measure codepoint)
          else
            match escape_byte ch with
            | Some b =>
                if out then json_string_to_utf8_loop fuel' out src length (S p) (written ++ [b]) len
                else json_string_to_utf8_loop fuel' out src length (S p) written (S len)
            | None => Fault AssertFailed
            end
        else
          if out then json_string_to_utf8_loop fuel' out src length (S p) (written ++ [ch]) len
          else json_string_to_utf8_loop fuel' out src length (S p) written (S len)
  end.

(** [json_string_to_utf8(dest, src, length)]: the bytes stored at [dest] and
    the returned count, [out - dest] with a destination and [len] without.
    Every round of the loop reads the byte at [p], so it runs at most once per
    byte of [src]. *)
Definition json_string_to_utf8 (dest : bool) (src : bytes) (length : nat)
  : outcome (bytes * nat) :=
  '(written, len) ← json_string_to_utf8_loop (S (List.length src)) dest src length 0 [] 0;
  Ret (written, if dest then List.length written else len).

(** ** Typed getters of [JsonNode]

    [text] is the JSON text the node's [as_sv] points into; [dest] says
    whether the destination pointer is not null. *)

Definition GetAsU64 (text : bytes) (n : JsonNode.t) (dest : bool) : outcome (Z * option Z) :=
  _ ← JSON_ASSERT dest;
  if JsonNodeType.eqb (JsonNode.type n) JsonNodeType.JSON_NUMBER then
    let sv := JsonNode.as_sv n in
    '(result, v) ← to_u64 (take (string_view.length sv) (drop (string_view.data sv) text));
    Ret (if 0 <? result then 1%Z else 0%Z, Some v)
  else Ret (0%Z, None).

Definition GetAsS64 (text : bytes) (n : JsonNode.t) (dest : bool) : outcome (Z * option Z) :=
  _ ← JSON_ASSERT dest;
  if JsonNodeType.eqb (JsonNode.type n) JsonNodeType.JSON_NUMBER then
    let sv := JsonNode.as_sv n in
    '(result, v) ← to_s64 (take (string_view.length sv) (drop (string_view.data sv) text));
    Ret (if 0 <? result then 1%Z else 0%Z, Some v)
  else Ret (0%Z, None).

(** [JsonNode::GetAsString(dest)].  The length handed on is
    [as_sv.length - 2] in [size_type] arithmetic. *)
Definition GetAsString (text : bytes) (n : JsonNode.t) (dest : bool) : outcome (bytes * nat) :=
  _ ← JSON_ASSERT dest;
  if JsonNodeType.eqb (JsonNode.type n) JsonNodeType.JSON_STRING
     || JsonNodeType.eqb (JsonNode.type n) JsonNodeType.JSON_KEY then
    let sv := JsonNode.as_sv n in
    json_string_to_utf8 dest (drop (string_view.data sv + 1) text)
      (Z.to_nat (u64 (Z.of_nat (string_view.length sv) - 2)))
  else Ret ([], 0).

(** ** The path resolver *)

(** [*node] for a node pointer that may be null. *)
Definition deref (buf : list JsonNode.t) (node : option nat) : outcome JsonNode.t :=
  match node with
  | None => Fault NullDeref
  | Some i =>
      match buf !! i with
      | Some n => Ret n
      | None => Fault OutOfBounds
      end
  end.

(** [memcmp] with a count computed in [s64] and converted to [size_t]: a
    negative count is a count beyond any object. *)
Definition memcmp_s64 (a b : bytes) (n : Z) : outcome Z :=
  if (n <? 0)%Z then Fault OutOfBounds else memcmp a b (Z.to_nat n).

(** The loop "Skip to indexed item": [idx] times [current_node =
    current_node->GetNext()], leaving early on [nullptr]. *)
Fixpoint skip_to_item (buf : list JsonNode.t) (idx : nat) (current_node : option nat)
  : outcome (option nat) :=
  match idx with
  | 0 => Ret current_node
  | S idx' =>
      n ← deref buf current_node;
      match JsonNode.GetNext n with
      | None => Ret None
      | Some nx => skip_to_item buf idx' (Some nx)
      end
  end.

(** The key loop of a [.] step.  [p] is the rest of the path (the bytes
    [p .. end)), [len] the [s64] counter kept beside it.  The loop is left
    with the new [p], [len] and [current_node]. *)
Fixpoint match_key_loop (fuel : nat) (text : bytes) (buf : list JsonNode.t)
    (p : bytes) (len : Z) (current_node : option nat)
  : outcome (bytes * Z * option nat) :=
  match fuel with
  | 0 => Fault OutOfFuel
  | S fuel' =>
      match p with
      | [] => Ret (p, len, current_node)
      | ch :: _ =>
          n ← deref buf current_node;
          if negb (negb (JsonNode.IsEOF n) && JsonNode.IsKey n) then Ret (p, len, current_node)
          else
            let node_data := string_view.data (JsonNode.as_sv n) in
            let node_length := Z.of_nat (string_view.length (JsonNode.as_sv n)) in
            matched ←
              (if Ascii.eqb ch dquote && (node_length <=? len)%Z then
                 c ← memcmp_s64 p (drop node_data text) node_length;
                 Ret (if (c =? 0)%Z then Some node_length else None)
               else Ret None);
            matched ←
              match matched with
              | Some k => Ret (Some k)
              | None =>
                  if negb (Ascii.eqb ch dquote) && (node_length - 2 <=? len)%Z then
                    c ← memcmp_s64 p (drop (node_data + 1) text) (node_length - 2);
                    Ret (if (c =? 0)%Z then Some (node_length - 2)%Z else None)
                  else Ret None
              end;
            match matched with
            | Some k =>
                Ret (drop (Z.to_nat k) p, (len - k)%Z, (fun i => i + 1) <$> current_node)
            | None =>
                match JsonNode.GetNext n with
                | None => Ret (p, len, None)
                | Some nx => match_key_loop fuel' text buf p len (Some nx)
                end
            end
      end
  end.

(** The main loop of [get_value_node].  Its condition is evaluated left to
    right: [p < end], then [!current_node->IsEOF()], then
    [current_node != nullptr]. *)
Fixpoint get_value_node_loop (fuel : nat) (text : bytes) (buf : list JsonNode.t)
    (p : bytes) (len : Z) (current_node : option nat) : outcome (option nat) :=
  match fuel with
  | 0 => Fault OutOfFuel
  | S fuel' =>
      match p with
      | [] => Ret current_node
      | ch :: p1 =>
          n ← deref buf current_node;
          if JsonNode.IsEOF n then Ret current_node
          else if Ascii.eqb ch "[" && JsonNode.IsArray n then
            count ← JsonNode.GetCount n;
            let len := (len - 1)%Z in
            let current_node := (fun i => i + 1) <$> current_node in
            if count =? 0 then Ret None
            else
              let '(sign, p2, len) :=
                match p1 with
                | c :: p2 => if Ascii.eqb c "-" then (true, p2, (len - 1)%Z) else (false, p1, len)
                | [] => (false, p1, len)
                end in
              '(idx_len, idx) ← to_u64 p2;
              if idx_len =? 0 then Ret None
              else
                let p3 := drop idx_len p2 in
                let len := (len - Z.of_nat idx_len)%Z in
                let idx := if (Z.of_nat count <=? idx)%Z then (idx mod Z.of_nat count)%Z else idx in
                let idx := if sign && negb (idx =? 0)%Z then (Z.of_nat count - idx)%Z else idx in
                match p3 with
                | c :: p4 =>
                    if Ascii.eqb c "]" then
                      current_node ← skip_to_item buf (Z.to_nat idx) current_node;
                      get_value_node_loop fuel' text buf p4 (len - 1)%Z current_node
                    else Ret None
                | [] => Ret None
                end
          else if Ascii.eqb ch "." && JsonNode.IsObject n then
            count ← JsonNode.GetCount n;
            let len := (len - 1)%Z in
            let current_node := (fun i => i + 1) <$> current_node in
            if count =? 0 then Ret None
            else
              '(p2, len, current_node) ←
                match_key_loop (S (List.length buf)) text buf p1 len current_node;
              get_value_node_loop fuel' text buf p2 len current_node
          else Ret None
      end
  end.

(** [get_value_node(node_begin, path, path_string_length)]: [path] holds the
    [path_string_length] bytes of the path.  Every round of the main loop
    that does not return consumes the [.] or the bracket it tested, so the
    loop runs at most once per byte of the path. *)
Definition get_value_node (text : bytes) (buf : list JsonNode.t) (node_begin : nat)
    (path : bytes) : outcome (option nat) :=
  n ← deref buf (Some node_begin);
  _ ← JSON_ASSERT (JsonNode.IsArray n || JsonNode.IsObject n);
  get_value_node_loop (S (List.length path)) text buf path (Z.of_nat (List.length path))
    (Some node_begin).

(** ** The scanner and the builder: class [JsonParser] *)

(** *** What [vsnprintf] writes

    The conversions the formats of the error log use. *)

Definition nul : ascii := "000"%char.

(** The decimal digits of [n], the most significant first, in front of
    [acc]; [fuel] bounds the number of digits. *)
Fixpoint print_decimal (fuel : nat) (n : Z) (acc : bytes) : bytes :=
  match fuel with
  | 0 => acc
  | S fuel' =>
      let acc := u8_char (48 + n mod 10) :: acc in
      if (n / 10 =? 0)%Z then acc else print_decimal fuel' (n / 10) acc
  end.

(** [%u] of a value cast to [u32]: at most ten digits. *)
Definition print_u32 (n : Z) : bytes := print_decimal 10 (u32 n) [].

(** [%s] of the bytes [s] at hand: the bytes before the first NUL.  The
    bytes at hand hold no terminator of their own; to go on behind them is a
    read outside. *)
Fixpoint print_string (s : bytes) : outcome bytes :=
  match s with
  | [] => Fault OutOfBounds
  | ch :: s' =>
      if Ascii.eqb ch nul then Ret []
      else r ← print_string s'; Ret (ch :: r)
  end.

(** [%.*s] with a precision that is not negative: at most [n] bytes, and
    none behind a NUL. *)
Fixpoint print_string_n (n : nat) (s : bytes) : outcome bytes :=
  match n with
  | 0 => Ret []
  | S n' =>
      match s with
      | [] => Fault OutOfBounds
      | ch :: s' =>
          if Ascii.eqb ch nul then Ret []
          else r ← print_string_n n' s'; Ret (ch :: r)
      end
  end.

(** [%.*s] with the precision passed as [(u32)precision]: [vsnprintf] takes
    the argument as an [int], so a value from [2^31] on is a negative
    precision, which counts as no precision at all. *)
Definition print_precision (precision : Z) (s : bytes) : outcome bytes :=
  let p := u32 precision in
  if (p <? 2 ^ 31)%Z then print_string_n (Z.to_nat p) s else print_string s.

(** [utf8_len]: the table is indexed by [(u8)(ch >> 3)], where [ch] is a
    [char]. *)
Definition length_from_msb : list nat :=
  [1; 1; 1; 1; 1; 1; 1; 1; 1; 1; 1; 1; 1; 1; 1; 1;
   0; 0; 0; 0; 0; 0; 0; 0;
   2; 2; 2; 2;
   3; 3;
   4;
   0].

Definition utf8_len (ch : ascii) : outcome nat :=
  match length_from_msb !! Z.to_nat (u8 (Z.shiftr (char_val ch) 3)) with
  | Some l => Ret l
  | None => Fault OutOfBounds
  end.

Module JsonParser.

(** [m_text] holds the bytes [m_begin .. m_end); [m_pos] is the offset of
    the C++ [m_pos] from [m_begin].  [m_nodeBuffer] is the caller's array,
    all of its slots, and [m_tokenCapacity] is its length. *)
Record t : Type := mk {
  m_text : bytes;
  m_pos : nat;
  m_errorCode : JsonErrorCode.t;
  m_nodeBuffer : list JsonNode.t;
  m_nodeCount : nat;
  m_currentToken : JsonToken.t;
  m_currentLine : nat;
  m_errorLog : bytes
}.

Definition m_end (st : t) : nat := List.length (m_text st).
Definition m_tokenCapacity (st : t) : nat := List.length (m_nodeBuffer st).

Definition with_pos (pos : nat) (st : t) : t :=
  mk (m_text st) pos (m_errorCode st) (m_nodeBuffer st) (m_nodeCount st)
     (m_currentToken st) (m_currentLine st) (m_errorLog st).
Definition with_errorCode (ec : JsonErrorCode.t) (st : t) : t :=
  mk (m_text st) (m_pos st) ec (m_nodeBuffer st) (m_nodeCount st)
     (m_currentToken st) (m_currentLine st) (m_errorLog st).
Definition with_nodes (buf : list JsonNode.t) (cnt : nat) (st : t) : t :=
  mk (m_text st) (m_pos st) (m_errorCode st) buf cnt
     (m_currentToken st) (m_currentLine st) (m_errorLog st).
Definition with_currentToken (tok : JsonToken.t) (st : t) : t :=
  mk (m_text st) (m_pos st) (m_errorCode st) (m_nodeBuffer st) (m_nodeCount st)
     tok (m_currentLine st) (m_errorLog st).
Definition with_currentLine (line : nat) (st : t) : t :=
  mk (m_text st) (m_pos st) (m_errorCode st) (m_nodeBuffer st) (m_nodeCount st)
     (m_currentToken st) line (m_errorLog st).

Definition JSON_ERROR_MESSAGE_LENGTH : nat := 255.
Definition JSON_INVALID_TOKEN_NEWLINES : nat := 3.

(** [appendToErrorLog(fmt, ...)]: [formatted] is what the format and its
    arguments give in full, so [written_count] is its length.  When the
    second assertion holds [vsnprintf] has written all of it. *)
Definition appendToErrorLog (formatted : bytes) (st : t) : outcome t :=
  let error_message_length := List.length (m_errorLog st) in
  let written_count := Z.of_nat (List.length formatted) in
  _ ← JSON_ASSERT (0 <=? written_count)%Z;
  _ ← JSON_ASSERT (Z.of_nat error_message_length + written_count
                   <=? Z.of_nat JSON_ERROR_MESSAGE_LENGTH)%Z;
  Ret (mk (m_text st) (m_pos st) (m_errorCode st) (m_nodeBuffer st) (m_nodeCount st)
          (m_currentToken st) (m_currentLine st) (m_errorLog st ++ formatted)).

(** The formats of the messages. *)
Definition invalid_token_message (line : nat) (message : option string) : bytes :=
  list_ascii_of_string "Invalid token at line " ++ print_u32 (Z.of_nat line)
  ++ match message with
     | Some m => list_ascii_of_string ": " ++ list_ascii_of_string m
     | None => []
     end
  ++ [newline].

Definition syntactic_error_message (line : nat) (message : string) : bytes :=
  list_ascii_of_string "Syntactic error at line " ++ print_u32 (Z.of_nat line)
  ++ list_ascii_of_string ": " ++ list_ascii_of_string message ++ [newline].

Definition capacity_message : bytes :=
  list_ascii_of_string "Exceeded node buffer capacity" ++ [newline].

Definition logInvalidTokenError (actual_type : JsonTokenType.t) (message : string) (st : t)
  : outcome t :=
  if JsonTokenType.eqb actual_type JsonTokenType.INVALID
  then appendToErrorLog (invalid_token_message (m_currentLine st) (Some message)) st
  else Ret st.

(** The first loop of [logInvalidTokenPosition]: [before_begin] goes back
    from [begin], reading the byte it stands on, until three newlines were
    read or it has reached [m_begin]. *)
Fixpoint scan_back (text : bytes) (newline_count before_begin : nat) : outcome nat :=
  match before_begin with
  | 0 => Ret 0
  | S before_begin' =>
      if negb (newline_count <? JSON_INVALID_TOKEN_NEWLINES) then Ret before_begin
      else
        ch ← read text before_begin;
        scan_back text (newline_count + (if Ascii.eqb ch newline then 1 else 0)) before_begin'
  end.

(** The second loop: [after_end] goes on over [rest], the bytes from it to
    [m_end], until three newlines were read or it has reached [m_end]. *)
Fixpoint scan_forth (rest : bytes) (newline_count after_end : nat) : nat :=
  match rest with
  | [] => after_end
  | ch :: rest' =>
      if negb (newline_count <? JSON_INVALID_TOKEN_NEWLINES) then after_end
      else scan_forth rest' (newline_count + (if Ascii.eqb ch newline then 1 else 0))
             (S after_end)
  end.

(** [logInvalidTokenPosition].  A token that ends behind [m_end] lets the
    second loop run on behind the text.  The three precisions are
    differences of pointers cast to [u32]. *)
Definition logInvalidTokenPosition (st : t) : outcome t :=
  let text := m_text st in
  let begin := JsonToken.data (m_currentToken st) in
  let end_ := JsonToken.data (m_currentToken st) + JsonToken.length (m_currentToken st) in
  before_begin ← scan_back text 0 begin;
  let before_begin := before_begin + 1 in
  after_end ←
    (if m_end st <? end_ then Fault OutOfBounds
     else Ret (scan_forth (drop end_ text) 0 end_));
  let after_end := (Z.of_nat after_end - 1)%Z in
  before ← print_precision (Z.of_nat begin - Z.of_nat before_begin) (drop before_begin text);
  token ← print_precision (Z.of_nat (JsonToken.length (m_currentToken st))) (drop begin text);
  after ← print_precision (after_end - Z.of_nat end_) (drop end_ text);
  appendToErrorLog
    (list_ascii_of_string "..." ++ [newline] ++ before ++ list_ascii_of_string " >>> "
     ++ token ++ list_ascii_of_string " <<< " ++ after ++ [newline]
     ++ list_ascii_of_string "..." ++ [newline]) st.

Definition SetUp (data_ : bytes) (buffer : list JsonNode.t) : t :=
  mk data_ 0 JsonErrorCode.NOT_DONE buffer 0
     (JsonToken.mk 0 0 JsonTokenType.INVALID) 1 [].

Definition IsValid (st : t) : bool :=
  JsonErrorCode.eqb (m_errorCode st) JsonErrorCode.VALID_JSON.
Definition GetCount (st : t) : nat := m_nodeCount st.
Definition GetCapacity (st : t) : nat := m_tokenCapacity st.
Definition GetErrorCode (st : t) : JsonErrorCode.t := m_errorCode st.

(** *** Character classes *)

Definition isDigit (ch : ascii) : bool :=
  (48 <=? char_val ch)%Z && (char_val ch <=? 57)%Z.

Definition isHexDigit (ch : ascii) : bool :=
  ((48 <=? char_val ch)%Z && (char_val ch <=? 57)%Z)
  || ((97 <=? char_val ch)%Z && (char_val ch <=? 102)%Z)
  || ((65 <=? char_val ch)%Z && (char_val ch <=? 70)%Z).

Definition isWhitespace (ch : ascii) : bool :=
  Ascii.eqb ch " " || Ascii.eqb ch "009" || Ascii.eqb ch "010" || Ascii.eqb ch "013".

Definition isStructural (ch : ascii) : bool :=
  Ascii.eqb ch "{" || Ascii.eqb ch "[" || Ascii.eqb ch "}" || Ascii.eqb ch "]"
  || Ascii.eqb ch ":" || Ascii.eqb ch ",".

Definition isValid (ch : ascii) : bool :=
  isWhitespace ch || isStructural ch || isDigit ch
  || Ascii.eqb ch "t" || Ascii.eqb ch "f" || Ascii.eqb ch "n".

Definition isPrimitiveValueToken (tok : JsonToken.t) : bool :=
  match JsonToken.type tok with
  | JsonTokenType.JSON_TRUE | JsonTokenType.JSON_FALSE | JsonTokenType.JSON_NULL
  | JsonTokenType.JSON_NUMBER | JsonTokenType.JSON_STRING
  | JsonTokenType.JSON_FLOAT_HEX | JsonTokenType.JSON_DOUBLE_HEX => true
  | _ => false
  end.

(** *** Scanning loops, on offsets into the text *)

(** A loop that advances [m_pos] while [m_pos != m_end] and [f] holds of the
    byte at [m_pos].  The test is an inequality of pointers: started behind
    [m_end] the loop reads outside the text. *)
Definition scan_while (f : ascii -> bool) (text : bytes) (pos : nat) : outcome nat :=
  if List.length text <? pos then Fault OutOfBounds
  else Ret (pos + span_len f (drop pos text)).

(** The loop over the four hex digits of a [u] escape in [matchString]: it
    stops at the first byte that is no hex digit, or at [m_end]. *)
Definition scan_hex4 (text : bytes) (pos : nat) : outcome nat :=
  if List.length text <? pos then Fault OutOfBounds
  else Ret (pos + Nat.min 4 (span_len isHexDigit (drop pos text))).

Definition is_simple_escape (ch : ascii) : bool :=
  Ascii.eqb ch backslash || Ascii.eqb ch "/" || Ascii.eqb ch dquote || Ascii.eqb ch "0"
  || Ascii.eqb ch "a" || Ascii.eqb ch "b" || Ascii.eqb ch "t" || Ascii.eqb ch "v"
  || Ascii.eqb ch "f" || Ascii.eqb ch "r" || Ascii.eqb ch "n".

(** The [while] loop of [matchString]; the result is [m_pos] when the loop
    is left, by its condition or by a [break]. *)
Fixpoint matchString_loop (fuel : nat) (text : bytes) (pos : nat) : outcome nat :=
  match fuel with
  | 0 => Fault OutOfFuel
  | S fuel' =>
      if negb (pos <? List.length text) then Ret pos
      else
        ch ← read text pos;
        if Ascii.eqb ch dquote then Ret pos
        else if (byte_val ch <? 32)%Z || Ascii.eqb ch "/" || Ascii.eqb ch dquote then Ret pos
        else if Ascii.eqb ch backslash then
          let pos := S pos in
          ch ← read text pos;
          if is_simple_escape ch then matchString_loop fuel' text (S pos)
          else if Ascii.eqb ch "u" then
            pos ← scan_hex4 text (S pos);
            matchString_loop fuel' text pos
          else Ret pos
        else if (byte_val ch <? 255)%Z then matchString_loop fuel' text (S pos)
        else
          len ← utf8_len ch;
          if len =? 0 then Ret pos
          else matchString_loop fuel' text (pos + len)
  end.

(** [matchString], [matchNumber], [matchLiteral] and [matchFloatHex] as
    functions of the text and of [m_pos]: they return their result and the
    new [m_pos].  Every round of the loop of [matchString] that goes on
    advances [m_pos]. *)
Definition matchString_at (text : bytes) (pos : nat) : outcome (bool * nat) :=
  pos ← matchString_loop (S (List.length text)) text (S pos);
  result ←
    (if pos =? List.length text then Ret false
     else ch ← read text pos; Ret (Ascii.eqb ch dquote));
  Ret (result, if result : bool then S pos else pos).

(** The lambda [do_digits] of [matchNumber]: the pair of [result] and of
    the new [m_pos]. *)
Definition do_digits (text : bytes) (pos : nat) : outcome (bool * nat) :=
  if pos =? List.length text then Ret (false, pos)
  else
    ch ← read text pos;
    if isDigit ch then
      pos ← scan_while isDigit text (S pos);
      Ret (true, pos)
    else Ret (false, pos).

(** The [while (result && !fraction_done && m_pos < m_end)] loop of
    [matchNumber], entered with [result] true. *)
Fixpoint matchNumber_loop (fuel : nat) (text : bytes) (pos : nat) : outcome (bool * nat) :=
  match fuel with
  | 0 => Fault OutOfFuel
  | S fuel' =>
      if negb (pos <? List.length text) then Ret (true, pos)
      else
        ch ← read text pos;
        if Ascii.eqb ch "." then
          '(result, pos) ← do_digits text (S pos);
          if result : bool then matchNumber_loop fuel' text pos else Ret (false, pos)
        else if Ascii.eqb ch "e" || Ascii.eqb ch "E" then
          let pos := S pos in
          pos ←
            (if pos =? List.length text then Ret pos
             else c ← read text pos;
                  Ret (if Ascii.eqb c "-" || Ascii.eqb c "+" then S pos else pos));
          do_digits text pos
        else Ret (true, pos)
  end.

Definition matchNumber_at (text : bytes) (pos : nat) : outcome (bool * nat) :=
  pos ←
    (if pos =? List.length text then Ret pos
     else c ← read text pos; Ret (if Ascii.eqb c "-" then S pos else pos));
  ch ← read text pos;
  if Ascii.eqb ch "0" then matchNumber_loop (S (List.length text)) text (S pos)
  else if (49 <=? char_val ch)%Z && (char_val ch <=? 57)%Z then
    pos ← scan_while isDigit text (S pos);
    matchNumber_loop (S (List.length text)) text pos
  else Ret (false, pos).

Fixpoint matchLiteral_loop (text : bytes) (s : bytes) (pos : nat) : outcome (bool * nat) :=
  match s with
  | [] => Ret (true, pos)
  | c :: s' =>
      let pos := S pos in
      if pos =? List.length text then Ret (false, pos)
      else
        ch ← read text pos;
        if negb (Ascii.eqb ch c) then Ret (false, pos)
        else matchLiteral_loop text s' pos
  end.

Definition matchLiteral_at (text : bytes) (s : string) (pos : nat) : outcome (bool * nat) :=
  '(result, pos) ← matchLiteral_loop text (list_ascii_of_string s) pos;
  Ret (result, if result : bool then S pos else pos).

(** [matchFloatHex]: 0 - false, 1 - float, 2 - double.  The digit counter
    is a [u8]. *)
Definition matchFloatHex_at (text : bytes) (pos : nat) : outcome (Z * nat) :=
  if List.length text <? pos then Fault OutOfBounds
  else
    let k := span_len isHexDigit (drop pos text) in
    let count := u8 (Z.of_nat k) in
    Ret (if (count =? 8)%Z then 1%Z else if (count =? 16)%Z then 2%Z else 0%Z, pos + k).

(** *** The scanner proper *)

Definition skipWhitespace (st : t) : outcome t :=
  if m_end st <? m_pos st then Fault OutOfBounds
  else
    let k := span_len isWhitespace (drop (m_pos st) (m_text st)) in
    let skipped := take k (drop (m_pos st) (m_text st)) in
    let newlines := List.length (filter (fun ch => ch = newline) skipped) in
    Ret (with_currentLine (m_currentLine st + newlines) (with_pos (m_pos st + k) st)).

(** One of the [match*] calls of [getNextToken]: it moves [m_pos] and
    yields the token type, after which the failure is logged. *)
Definition matched (r : outcome (bool * nat)) (ty : JsonTokenType.t) (message : string)
    (st : t) : outcome (JsonTokenType.t * t) :=
  '(ok, pos) ← r;
  let type := if ok : bool then ty else JsonTokenType.INVALID in
  st ← logInvalidTokenError type message (with_pos pos st);
  Ret (type, st).

(** The chain of tests of [getNextToken] on the byte [ch] at [m_pos]: the
    token type, with [m_pos] behind what was matched. *)
Definition scan_token (ch : ascii) (st : t) : outcome (JsonTokenType.t * t) :=
  let text := m_text st in
  if isDigit ch || Ascii.eqb ch "-" then
    let q := m_pos st + 1 in
    is_hex ← (if q <? m_end st then c ← read text q; Ret (Ascii.eqb c "x") else Ret false);
    if is_hex : bool then
      '(rc, pos) ← matchFloatHex_at text (m_pos st + 2);
      let type :=
        if (rc =? 1)%Z then JsonTokenType.JSON_FLOAT_HEX
        else if (rc =? 2)%Z then JsonTokenType.JSON_DOUBLE_HEX
        else JsonTokenType.INVALID in
      st ← logInvalidTokenError type "floating point number in hexadecimal expected"
             (with_pos pos st);
      Ret (type, st)
    else matched (matchNumber_at text (m_pos st)) JsonTokenType.JSON_NUMBER "number expected" st
  else if Ascii.eqb ch dquote then
    matched (matchString_at text (m_pos st)) JsonTokenType.JSON_STRING "string expected" st
  else if Ascii.eqb ch "t" then
    matched (matchLiteral_at text "rue" (m_pos st)) JsonTokenType.JSON_TRUE "true expected" st
  else if Ascii.eqb ch "f" then
    matched (matchLiteral_at text "alse" (m_pos st)) JsonTokenType.JSON_FALSE "false expected" st
  else if Ascii.eqb ch "n" then
    matched (matchLiteral_at text "ull" (m_pos st)) JsonTokenType.JSON_NULL "null expected" st
  else if Ascii.eqb ch "{" then Ret (JsonTokenType.JSON_OBJECT_BEGIN, with_pos (m_pos st + 1) st)
  else if Ascii.eqb ch "[" then Ret (JsonTokenType.JSON_ARRAY_BEGIN, with_pos (m_pos st + 1) st)
  else if Ascii.eqb ch "}" then Ret (JsonTokenType.JSON_OBJECT_END, with_pos (m_pos st + 1) st)
  else if Ascii.eqb ch "]" then Ret (JsonTokenType.JSON_ARRAY_END, with_pos (m_pos st + 1) st)
  else if Ascii.eqb ch ":" then Ret (JsonTokenType.JSON_COLON, with_pos (m_pos st + 1) st)
  else if Ascii.eqb ch "," then Ret (JsonTokenType.JSON_COMMA, with_pos (m_pos st + 1) st)
  else
    st ← appendToErrorLog (invalid_token_message (m_currentLine st) None) st;
    Ret (JsonTokenType.INVALID, st).

Definition getNextToken (st : t) : outcome (JsonToken.t * t) :=
  let start := m_pos st in
  if m_end st <=? m_pos st then Ret (JsonToken.mk start 0 JsonTokenType.JSON_EOF, st)
  else
    ch ← read (m_text st) (m_pos st);
    '(type, st) ← scan_token ch st;
    st ←
      (if JsonTokenType.eqb type JsonTokenType.INVALID then
         pos ← scan_while (fun c => negb (isValid c)) (m_text st) (m_pos st + 1);
         Ret (with_pos pos st)
       else Ret st);
    let result := JsonToken.mk start (m_pos st - start) type in
    st ← skipWhitespace st;
    Ret (result, st).

(** *** The builder *)

(** [getLastNode]: the index of [&m_nodeBuffer[m_nodeCount - 1]].  With
    [m_nodeCount = 0] the C++ forms a pointer before the buffer; the callers
    use the result only after a successful [pushNode]. *)
Definition getLastNode (st : t) : nat := m_nodeCount st - 1.

Definition pushNode (st : t) : outcome (bool * t) :=
  if m_nodeCount st <? m_tokenCapacity st then
    node ← JsonNode.of_token (m_currentToken st);
    Ret (true, with_nodes (<[m_nodeCount st := node]> (m_nodeBuffer st)) (m_nodeCount st + 1) st)
  else
    st ← appendToErrorLog capacity_message
           (with_errorCode JsonErrorCode.CAPACITY_EXCEEDED st);
    Ret (false, st).

Definition expect (expected : bool) (message : string) (st : t) : outcome (bool * t) :=
  if negb expected then
    st ←
      (if negb (JsonTokenType.eqb (JsonToken.type (m_currentToken st)) JsonTokenType.INVALID) then
         let tok := m_currentToken st in
         let st := with_currentToken
                     (JsonToken.mk (JsonToken.data tok) (JsonToken.length tok)
                        JsonTokenType.SYNTACTIC_ERROR) st in
         let st := with_errorCode JsonErrorCode.SYNTACTIC_ERRORS st in
         appendToErrorLog (syntactic_error_message (m_currentLine st) message) st
       else Ret (with_errorCode JsonErrorCode.INVALID_TOKENS st));
    '(_, st) ← pushNode st;
    Ret (expected, st)
  else Ret (expected, st).

(** A write through a node pointer: [f] applied in place to the node at
    index [i]. *)
Definition update_node (i : nat) (f : JsonNode.t -> JsonNode.t) (st : t) : outcome t :=
  match m_nodeBuffer st !! i with
  | Some n => Ret (with_nodes (<[i := f n]> (m_nodeBuffer st)) (m_nodeCount st) st)
  | None => Fault OutOfBounds
  end.

(** [m_currentToken = getNextToken()]. *)
Definition advance (st : t) : outcome t :=
  '(tok, st) ← getNextToken st;
  Ret (with_currentToken tok st).

Definition token_is (ty : JsonTokenType.t) (st : t) : bool :=
  JsonTokenType.eqb (JsonToken.type (m_currentToken st)) ty.

(** [previous->next = last_node_ptr] when [previous] is not null. *)
Definition link_previous (previous : option nat) (last_node_ptr : nat) (st : t) : outcome t :=
  match previous with
  | Some prev => update_node prev (JsonNode.set_next (Some last_node_ptr)) st
  | None => Ret st
  end.

(** [parseArray] and [parseObject], each with the [while] loop of its
    body as a function of the loop's local variables.  A loop function
    stands at the loop's condition, with [result] true. *)
Fixpoint parseArray (fuel : nat) (st : t) : outcome (bool * t) :=
  match fuel with
  | 0 => Fault OutOfFuel
  | S fuel' =>
      st ← advance st;
      if token_is JsonTokenType.JSON_ARRAY_END st then Ret (true, st)
      else parseArray_loop fuel' (getLastNode st) None st
  end
with parseArray_loop (fuel : nat) (complex_node : nat) (previous_value_ptr : option nat)
    (st : t) : outcome (bool * t) :=
  match fuel with
  | 0 => Fault OutOfFuel
  | S fuel' =>
      if negb (m_pos st <? m_end st) then Ret (true, st)
      else
        let is_first_node := negb (bool_decide (is_Some previous_value_ptr)) in
        let is_primitive := isPrimitiveValueToken (m_currentToken st) in
        let is_array := token_is JsonTokenType.JSON_ARRAY_BEGIN st in
        let is_object := token_is JsonTokenType.JSON_OBJECT_BEGIN st in
        '(result, st) ← expect (is_primitive || is_array || is_object)
                          (if is_first_node then "value or array end expected"
                           else "value expected") st;
        if negb result then Ret (false, st)
        else
          '(result, st) ← pushNode st;
          if negb result then Ret (false, st)
          else
            st ← update_node complex_node
                   (fun n => JsonNode.set_count (JsonNode.count n + 1) n) st;
            let last_node_ptr := getLastNode st in
            st ← link_previous previous_value_ptr last_node_ptr st;
            let previous_value_ptr := Some last_node_ptr in
            '(result, st) ←
              (if is_array then parseArray fuel' st
               else if is_object then parseObject fuel' st
               else Ret (true, st));
            if negb result then Ret (false, st)
            else
              st ← advance st;
              if token_is JsonTokenType.JSON_ARRAY_END st then Ret (true, st)
              else
                '(result, st) ← expect (token_is JsonTokenType.JSON_COMMA st)
                                  "comma or array end expected" st;
                if negb result then Ret (false, st)
                else
                  st ← advance st;
                  parseArray_loop fuel' complex_node previous_value_ptr st
  end
with parseObject (fuel : nat) (st : t) : outcome (bool * t) :=
  match fuel with
  | 0 => Fault OutOfFuel
  | S fuel' =>
      st ← advance st;
      if token_is JsonTokenType.JSON_OBJECT_END st then Ret (true, st)
      else parseObject_loop fuel' (getLastNode st) None None st
  end
with parseObject_loop (fuel : nat) (complex_node : nat)
    (previous_key_ptr previous_value_ptr : option nat) (st : t) : outcome (bool * t) :=
  match fuel with
  | 0 => Fault OutOfFuel
  | S fuel' =>
      if negb (m_pos st <? m_end st) then Ret (true, st)
      else
        let is_first_node := negb (bool_decide (is_Some previous_value_ptr)) in
        '(result, st) ← expect (token_is JsonTokenType.JSON_STRING st)
                          (if is_first_node then "string (key) or object end expected"
                           else "string (key) expected") st;
        if negb result then Ret (false, st)
        else
          let tok := m_currentToken st in
          let st := with_currentToken
                      (JsonToken.mk (JsonToken.data tok) (JsonToken.length tok)
                         JsonTokenType.JSON_KEY) st in
          '(result, st) ← pushNode st;
          if negb result then Ret (false, st)
          else
            let last_node_ptr := getLastNode st in
            st ← link_previous previous_key_ptr last_node_ptr st;
            let previous_key_ptr := Some last_node_ptr in
            st ← advance st;
            '(result, st) ← expect (token_is JsonTokenType.JSON_COLON st) "colon expected" st;
            if negb result then Ret (false, st)
            else
              st ← advance st;
              let is_primitive := isPrimitiveValueToken (m_currentToken st) in
              let is_array := token_is JsonTokenType.JSON_ARRAY_BEGIN st in
              let is_object := token_is JsonTokenType.JSON_OBJECT_BEGIN st in
              '(result, st) ← expect (is_primitive || is_array || is_object) "value expected" st;
              if negb result then Ret (false, st)
              else
                '(result, st) ← pushNode st;
                if negb result then Ret (false, st)
                else
                  st ← update_node complex_node
                         (fun n => JsonNode.set_count (JsonNode.count n + 1) n) st;
                  let last_node_ptr := getLastNode st in
                  st ← link_previous previous_value_ptr last_node_ptr st;
                  let previous_value_ptr := Some last_node_ptr in
                  '(result, st) ←
                    (if is_array then parseArray fuel' st
                     else if is_object then parseObject fuel' st
                     else Ret (true, st));
                  if negb result then Ret (false, st)
                  else
                    st ← advance st;
                    if token_is JsonTokenType.JSON_OBJECT_END st then Ret (true, st)
                    else
                      '(result, st) ← expect (token_is JsonTokenType.JSON_COMMA st)
                                        "comma or object end expected" st;
                      if negb result then Ret (false, st)
                      else
                        st ← advance st;
                        parseObject_loop fuel' complex_node previous_key_ptr
                          previous_value_ptr st
  end.

(** The [while (loop_result && m_pos < m_end)] loop of [Parse]. *)
Fixpoint Parse_loop (fuel : nat) (st : t) : outcome (bool * t) :=
  match fuel with
  | 0 => Fault OutOfFuel
  | S fuel' =>
      if negb (m_pos st <? m_end st) then Ret (true, st)
      else
        st ← advance st;
        let isArray := token_is JsonTokenType.JSON_ARRAY_BEGIN st in
        let isObject := token_is JsonTokenType.JSON_OBJECT_BEGIN st in
        '(loop_result, st) ← expect (isArray || isObject) "Array or object expected" st;
        if negb loop_result then Ret (false, st)
        else
          '(_, st) ← pushNode st;
          '(loop_result, st) ←
            (if isArray then parseArray fuel' st
             else if isObject then parseObject fuel' st
             else Ret (loop_result, st));
          if negb loop_result then Ret (false, st)
          else Parse_loop fuel' st
  end.

(** The fuel [Parse] gives its loops: two units for each byte of the text
    that is still to be read, and a few more. *)
Definition Parse_fuel (st : t) : nat := 2 * (m_end st - m_pos st) + 4.

(** [Parse(new_buffer, new_capacity)]: [new_buffer] is the new array, of
    [new_capacity] slots, or [None] for [nullptr]. *)
Definition Parse (new_buffer : option (list JsonNode.t)) (st : t) : outcome t :=
  let st :=
    match new_buffer with
    | Some buffer =>
        mk (m_text st) 0 JsonErrorCode.NOT_DONE buffer 0 (m_currentToken st) 1 []
    | None => st
    end in
  if IsValid st then Ret st
  else
    st ← skipWhitespace st;
    '(loop_result, st) ← Parse_loop (Parse_fuel st) st;
    '(loop_result, st) ←
      (if loop_result : bool then st ← advance st; pushNode st
       else Ret (false, st));
    if loop_result : bool then Ret (with_errorCode JsonErrorCode.VALID_JSON st)
    else logInvalidTokenPosition st.

End JsonParser.

(** * Notions the statements below are phrased with *)

(** The number a run of decimal digits denotes. *)
Fixpoint decimal_value (ds : bytes) : Z :=
  match ds with
  | [] => 0
  | ch :: ds' => (byte_val ch - 48) * 10 ^ Z.of_nat (List.length ds') + decimal_value ds'
  end.

(** The text does not go on with a digit. *)
Definition no_digit_ahead (rest : bytes) : Prop :=
  match rest with
  | [] => True
  | ch :: _ => isdigit ch = false
  end.

(** The node reached from node [i] by [k] steps along [next]. *)
Fixpoint nth_sibling (buf : list JsonNode.t) (k : nat) (i : nat) : option nat :=
  match k with
  | 0 => Some i
  | S k' => n ← buf !! i; nx ← JsonNode.next n; nth_sibling buf k' nx
  end.

(** The text of an index step: a bracket, an optional minus sign, the
    digits, a bracket. *)
Definition index_step (negative : bool) (ds : bytes) : bytes :=
  "["%char :: (if negative then ["-"%char] else []) ++ ds ++ ["]"%char].

(** The element index the resolver is to select for the magnitude [i] in an
    array of [count] elements. *)
Definition wrapped_index (negative : bool) (i : Z) (count : nat) : nat :=
  let idx := if (Z.of_nat count <=? i)%Z then (i mod Z.of_nat count)%Z else i in
  Z.to_nat (if negative && negb (idx =? 0)%Z then (Z.of_nat count - idx)%Z else idx).

(** The nodes a parse of [text] leaves in a buffer of [capacity] slots. *)
Definition parsed_nodes (text : bytes) (capacity : nat) : list JsonNode.t :=
  match JsonParser.Parse None
          (JsonParser.SetUp text
             (replicate capacity (JsonNode.mk (string_view.mk 0 0) 0 JsonNodeType.INVALID None)))
  with
  | Ret st => take (JsonParser.m_nodeCount st) (JsonParser.m_nodeBuffer st)
  | Fault _ => []
  end.

(** The parts a well-formed string body is made of: a plain byte, a
    single-character escape, a [u] escape with its four hex digits. *)
Inductive string_item : bytes -> Prop :=
| item_plain ch :
    (32 <= byte_val ch < 255)%Z -> ch <> dquote -> ch <> "/"%char -> ch <> backslash ->
    string_item [ch]
| item_escape ch :
    JsonParser.is_simple_escape ch = true -> string_item [backslash; ch]
| item_unicode h1 h2 h3 h4 :
    JsonParser.isHexDigit h1 = true -> JsonParser.isHexDigit h2 = true ->
    JsonParser.isHexDigit h3 = true -> JsonParser.isHexDigit h4 = true ->
    string_item [backslash; "u"%char; h1; h2; h3; h4].

Inductive string_body : bytes -> Prop :=
| body_nil : string_body []
| body_item item body : string_item item -> string_body body -> string_body (item ++ body).

(** What can follow a well-formed string body, with the verdict of
    [matchString] and how far behind the body [m_pos] is left: the closing
    quote ([m_pos] moves over it); the end of the text; a control character;
    a solidus that is not escaped; a backslash before a byte that starts no
    escape ([m_pos] rests on that byte). *)
Inductive string_end : bytes -> bool -> nat -> Prop :=
| end_quote tail : string_end (dquote :: tail) true 1
| end_of_text : string_end [] false 0
| end_control ch tail : (byte_val ch < 32)%Z -> string_end (ch :: tail) false 0
| end_solidus tail : string_end ("/"%char :: tail) false 0
| end_bad_escape ch tail :
    JsonParser.is_simple_escape ch = false -> ch <> "u"%char ->
    string_end (backslash :: ch :: tail) false 1.

(** What the scanner leaves alone. *)
Definition builder_kept (st st' : JsonParser.t) : Prop :=
  JsonParser.m_text st' = JsonParser.m_text st
  /\ JsonParser.m_errorCode st' = JsonParser.m_errorCode st
  /\ JsonParser.m_nodeBuffer st' = JsonParser.m_nodeBuffer st
  /\ JsonParser.m_nodeCount st' = JsonParser.m_nodeCount st.

(** The outcome is not the exhaustion of the model's fuel. *)
Definition fueled {A : Type} (m : outcome A) : Prop := m <> Fault OutOfFuel.

(** What every step of the builder keeps: the text and the capacity stay,
    [m_pos] and [m_nodeCount] never go back, and the count stays within the
    capacity. *)
Definition parse_step (st st' : JsonParser.t) : Prop :=
  JsonParser.m_text st' = JsonParser.m_text st
  /\ (JsonParser.m_pos st <= JsonParser.m_pos st'
      /\ JsonParser.m_tokenCapacity st' = JsonParser.m_tokenCapacity st
      /\ JsonParser.m_nodeCount st <= JsonParser.m_nodeCount st'
      /\ (JsonParser.m_nodeCount st <= JsonParser.m_tokenCapacity st ->
          JsonParser.m_nodeCount st' <= JsonParser.m_tokenCapacity st')).

(** The bytes of the text still to be read. *)
Definition remaining (st : JsonParser.t) : nat := JsonParser.m_end st - JsonParser.m_pos st.

(** The node buffer has no free slot. *)
Definition buffer_full (st : JsonParser.t) : Prop :=
  JsonParser.m_tokenCapacity st <= JsonParser.m_nodeCount st.

(** Nothing was written to the node buffer. *)
Definition nodes_kept (st st' : JsonParser.t) : Prop :=
  JsonParser.m_nodeBuffer st' = JsonParser.m_nodeBuffer st
  /\ JsonParser.m_nodeCount st' = JsonParser.m_nodeCount st.

(** What a parse function leaves of a state whose buffer is full: the nodes,
    and the status unless it fails, which it does with capacity-exceeded. *)
Definition stuck (st : JsonParser.t) (b : bool) (st' : JsonParser.t) : Prop :=
  nodes_kept st st'
  /\ (b = false -> JsonParser.m_errorCode st' = JsonErrorCode.CAPACITY_EXCEEDED)
  /\ (b = true -> JsonParser.m_errorCode st' = JsonParser.m_errorCode st).

(** The outcome is a return or a fault of the C++, not the end of the
    model's fuel. *)
Definition finishes {A : Type} (m : outcome A) : bool :=
  match m with
  | Fault OutOfFuel => false
  | _ => true
  end.

(** The status is one of the three error statuses. *)
Definition failed (st : JsonParser.t) : Prop :=
  JsonParser.m_errorCode st = JsonErrorCode.SYNTACTIC_ERRORS
  \/ JsonParser.m_errorCode st = JsonErrorCode.INVALID_TOKENS
  \/ JsonParser.m_errorCode st = JsonErrorCode.CAPACITY_EXCEEDED.

(** *** The layout of the nodes of a document

    The builder stores a value as a run of consecutive nodes: the value's
    own node first, then, for a container, its [count] children one after
    the other, every child with the whole of its own run.  The children of
    an array are chained by [next]; in an object every child is a key node
    directly followed by the run of its value, the keys chained by [next]
    and the values chained by [next]. *)

Definition IsScalar (n : JsonNode.t) : bool :=
  match JsonNode.type n with
  | JsonNodeType.JSON_TRUE | JsonNodeType.JSON_FALSE | JsonNodeType.JSON_NULL
  | JsonNodeType.JSON_NUMBER | JsonNodeType.JSON_FLOAT_HEX | JsonNodeType.JSON_DOUBLE_HEX
  | JsonNodeType.JSON_STRING => true
  | _ => false
  end.

(** What a run of nodes holds: one value; the [count] items of an array,
    the last of which starts at [last]; the [count] members of an object,
    the key of the last of which is at [last]. *)
Inductive part : Type :=
| Value
| Items (count : nat) (last : option nat)
| Members (count : nat) (last : option nat).

(** [laid buf p i j]: the nodes [i .. j) of [buf] hold [p]. *)
Inductive laid (buf : list JsonNode.t) : part -> nat -> nat -> Prop :=
| laid_scalar i n :
    buf !! i = Some n -> IsScalar n = true -> laid buf Value i (S i)
| laid_array i j n last :
    buf !! i = Some n -> JsonNode.IsArray n = true ->
    laid buf (Items (JsonNode.count n) last) (S i) j -> laid buf Value i j
| laid_object i j n last :
    buf !! i = Some n -> JsonNode.IsObject n = true ->
    laid buf (Members (JsonNode.count n) last) (S i) j -> laid buf Value i j
| items_none i : laid buf (Items 0 None) i i
| items_one i j n :
    laid buf Value i j -> buf !! i = Some n -> JsonNode.next n = None ->
    laid buf (Items 1 (Some i)) i j
| items_cons c i j k n last :
    laid buf Value i j -> buf !! i = Some n -> JsonNode.next n = Some j ->
    laid buf (Items (S c) last) j k -> laid buf (Items (S (S c)) last) i k
| members_none i : laid buf (Members 0 None) i i
| members_one i j key v :
    buf !! i = Some key -> JsonNode.IsKey key = true -> JsonNode.next key = None ->
    laid buf Value (S i) j -> buf !! S i = Some v -> JsonNode.next v = None ->
    laid buf (Members 1 (Some i)) i j
| members_cons c i j k key v last :
    buf !! i = Some key -> JsonNode.IsKey key = true -> JsonNode.next key = Some j ->
    laid buf Value (S i) j -> buf !! S i = Some v -> JsonNode.next v = Some (S j) ->
    laid buf (Members (S c) last) j k -> laid buf (Members (S (S c)) last) i k.

(** The documents of a text, one after the other: containers that nothing
    links. *)
Inductive forest (buf : list JsonNode.t) : nat -> nat -> Prop :=
| forest_nil i : forest buf i i
| forest_cons i j k n :
    buf !! i = Some n -> JsonNode.IsComplex n = true -> JsonNode.next n = None ->
    laid buf Value i j -> forest buf j k -> forest buf i k.

(** A node changed in its [count] at most. *)
Definition same_but_count (n n' : JsonNode.t) : Prop :=
  JsonNode.as_sv n' = JsonNode.as_sv n
  /\ JsonNode.type n' = JsonNode.type n
  /\ JsonNode.next n' = JsonNode.next n.

(** What filling the container at [cn] leaves of the buffer [buf]: the
    nodes before it, and the container's node but for its count. *)
Definition frame (cn : nat) (buf buf' : list JsonNode.t) : Prop :=
  List.length buf' = List.length buf
  /\ (forall x, x < cn -> buf' !! x = buf !! x)
  /\ exists n n', buf !! cn = Some n /\ buf' !! cn = Some n' /\ same_but_count n n'.

(** The loop of [parseArray] stands at its condition: the container at
    [cn] holds the items read so far, the last of them at
    [previous_value_ptr]. *)
Definition array_open (cn : nat) (previous_value_ptr : option nat) (st : JsonParser.t) : Prop :=
  exists n,
    JsonParser.m_nodeBuffer st !! cn = Some n /\ JsonNode.IsArray n = true
    /\ cn < JsonParser.m_nodeCount st <= JsonParser.m_tokenCapacity st
    /\ laid (JsonParser.m_nodeBuffer st) (Items (JsonNode.count n) previous_value_ptr)
         (S cn) (JsonParser.m_nodeCount st).

(** The same for the loop of [parseObject]; the last value is the node
    behind the last key. *)
Definition object_open (cn : nat) (previous_key_ptr previous_value_ptr : option nat)
    (st : JsonParser.t) : Prop :=
  exists n,
    JsonParser.m_nodeBuffer st !! cn = Some n /\ JsonNode.IsObject n = true
    /\ cn < JsonParser.m_nodeCount st <= JsonParser.m_tokenCapacity st
    /\ previous_value_ptr = S <$> previous_key_ptr
    /\ laid (JsonParser.m_nodeBuffer st) (Members (JsonNode.count n) previous_key_ptr)
         (S cn) (JsonParser.m_nodeCount st).

(** The bytes a token of each kind can start with.  The scanner makes no
    key and no syntactic-error token, and an end-of-input token starts with
    no byte. *)
Definition token_start (ty : JsonTokenType.t) (ch : ascii) : Prop :=
  match ty with
  | JsonTokenType.INVALID => True
  | JsonTokenType.JSON_ARRAY_BEGIN => ch = "["%char
  | JsonTokenType.JSON_OBJECT_BEGIN => ch = "{"%char
  | JsonTokenType.JSON_ARRAY_END => ch = "]"%char
  | JsonTokenType.JSON_OBJECT_END => ch = "}"%char
  | JsonTokenType.JSON_COLON => ch = ":"%char
  | JsonTokenType.JSON_COMMA => ch = ","%char
  | JsonTokenType.JSON_TRUE => ch = "t"%char
  | JsonTokenType.JSON_FALSE => ch = "f"%char
  | JsonTokenType.JSON_NULL => ch = "n"%char
  | JsonTokenType.JSON_NUMBER | JsonTokenType.JSON_FLOAT_HEX | JsonTokenType.JSON_DOUBLE_HEX =>
      JsonParser.isDigit ch = true \/ ch = "-"%char
  | JsonTokenType.JSON_STRING => ch = dquote
  | JsonTokenType.JSON_KEY | JsonTokenType.JSON_EOF | JsonTokenType.SYNTACTIC_ERROR => False
  end.

(** The text does not go on with a byte of the class [f]. *)
Definition stops (f : ascii -> bool) (rest : bytes) : Prop :=
  match rest with
  | [] => True
  | ch :: _ => f ch = false
  end.

(** The digit for a number below 16, and a number written with [k] hex
    digits, the most significant first. *)
Definition nibble_char (n : Z) : ascii :=
  nth (Z.to_nat n) (list_ascii_of_string "0123456789abcdef") "0"%char.

Fixpoint hex_encode (k : nat) (w : Z) : bytes :=
  match k with
  | 0 => []
  | S k' => nibble_char (w / 16 ^ Z.of_nat k') :: hex_encode k' (w mod 16 ^ Z.of_nat k')
  end.

(** A byte string written as the body of a JSON string: the backslash and
    the quotation mark are escaped, every other byte stands for itself. *)
Definition json_escape (s : bytes) : bytes :=
  flat_map (fun ch => if Ascii.eqb ch backslash || Ascii.eqb ch dquote
                      then [backslash; ch] else [ch]) s.

(** The bytes [matchString] takes as they are, and the two it takes behind
    a backslash. *)
Definition string_byte (ch : ascii) : Prop :=
  (32 <= byte_val ch < 255)%Z /\ ch <> "/"%char.

(** *** Views into the text *)

(** The view of a node lies inside the text, and the view of a string or
    key node holds at least its two quotation marks. *)
Definition view_ok (text : bytes) (n : JsonNode.t) : Prop :=
  string_view.data (JsonNode.as_sv n) + string_view.length (JsonNode.as_sv n) <= List.length text
  /\ (JsonNode.IsString n = true -> 2 <= string_view.length (JsonNode.as_sv n)).

Definition token_ok (text : bytes) (tok : JsonToken.t) : Prop :=
  JsonToken.data tok + JsonToken.length tok <= List.length text
  /\ (JsonToken.type tok = JsonTokenType.JSON_STRING \/ JsonToken.type tok = JsonTokenType.JSON_KEY ->
      2 <= JsonToken.length tok).

(** Every node stored so far has a good view. *)
Definition nodes_ok (st : JsonParser.t) : Prop :=
  forall i n, i < JsonParser.m_nodeCount st -> JsonParser.m_nodeBuffer st !! i = Some n ->
    view_ok (JsonParser.m_text st) n.

(** The nodes and the token at hand have good views, and the scanner has
    not passed the end of the text. *)
Definition views_ok (st : JsonParser.t) : Prop :=
  nodes_ok st
  /\ token_ok (JsonParser.m_text st) (JsonParser.m_currentToken st)
  /\ JsonParser.m_pos st <= JsonParser.m_end st.

(** * Properties *)

(** ** Outcome monad *)

Lemma bind_Ret {A B} (m : outcome A) (k : A -> outcome B) (b : B) :
  (m ≫= k) = Ret b -> exists a, m = Ret a /\ k a = Ret b.
Proof. destruct m as [a|f]; simpl; [eauto | discriminate]. Qed.

(** ** Node model *)

(** C10: [IsValue] holds of every node that is neither a key nor invalid nor
    a syntactic error - of arrays, objects and the end-of-input node in
    particular - and [GetValue] of an array, object or end-of-input node is
    the node itself, not [nullptr]. *)
Theorem C10_IsValue_GetValue (this : nat) (n : JsonNode.t) :
  JsonNode.IsValue n =
    match JsonNode.type n with
    | JsonNodeType.JSON_KEY | JsonNodeType.INVALID | JsonNodeType.SYNTACTIC_ERROR => false
    | _ => true
    end
  /\ (JsonNode.IsArray n = true \/ JsonNode.IsObject n = true \/ JsonNode.IsEOF n = true ->
      JsonNode.IsValue n = true /\ JsonNode.GetValue this n = Some this).
Proof.
  destruct n as [sv c ty nx].
  unfold JsonNode.IsValue, JsonNode.GetValue, JsonNode.IsKey, JsonNode.IsInvalid,
    JsonNode.IsArray, JsonNode.IsObject, JsonNode.IsEOF; simpl.
  split.
  - destruct ty; reflexivity.
  - destruct ty; simpl; intros [H | [H | H]]; try discriminate H; split; reflexivity.
Qed.

(** ** Decimal readers *)

Lemma byte_val_range ch : (0 <= byte_val ch < 256)%Z.
Proof. destruct ch as [[] [] [] [] [] [] [] []]; vm_compute; split; congruence. Qed.

Lemma isdigit_range ch : isdigit ch = true -> (48 <= byte_val ch <= 57)%Z.
Proof.
  unfold isdigit, char_val. intros H.
  apply andb_prop in H as [H1 H2].
  apply Z.leb_le in H1. apply Z.leb_le in H2.
  destruct (byte_val ch <? 128)%Z eqn:E; [lia|].
  apply Z.ltb_ge in E. pose proof (byte_val_range ch). lia.
Qed.

Lemma decimal_value_bounds ds :
  Forall (fun ch => isdigit ch = true) ds ->
  (0 <= decimal_value ds < 10 ^ Z.of_nat (List.length ds))%Z.
Proof.
  induction 1 as [|ch ds Hch Hds IH]; simpl decimal_value; simpl List.length.
  - simpl. lia.
  - apply isdigit_range in Hch.
    rewrite Nat2Z.inj_succ, Z.pow_succ_r by lia.
    nia.
Qed.

Lemma to_u64_digits_count ds rest n :
  Forall (fun ch => isdigit ch = true) ds -> no_digit_ahead rest ->
  snd (to_u64_digits (ds ++ rest) n) = List.length ds.
Proof.
  intros Hds Hrest. revert n.
  induction Hds as [|ch ds Hch Hds IH]; intros n; simpl.
  - destruct rest as [|c rest]; [reflexivity|]. simpl in *. rewrite Hrest. reflexivity.
  - rewrite Hch.
    specialize (IH (u64 (n * 10 + u64 (char_val ch - 48)))).
    destruct (to_u64_digits (ds ++ rest) _) as [n' k]. simpl in *. congruence.
Qed.

Lemma to_s64_digits_count ds rest n :
  Forall (fun ch => isdigit ch = true) ds -> no_digit_ahead rest ->
  snd (to_s64_digits (ds ++ rest) n) = List.length ds.
Proof.
  intros Hds Hrest. revert n.
  induction Hds as [|ch ds Hch Hds IH]; intros n; simpl.
  - destruct rest as [|c rest]; [reflexivity|]. simpl in *. rewrite Hrest. reflexivity.
  - rewrite Hch.
    specialize (IH (s64 (n * 10 + s64 (char_val ch - 48)))).
    destruct (to_s64_digits (ds ++ rest) _) as [n' k]. simpl in *. congruence.
Qed.

(** On two digit runs of the same length [memcmp] decides the order of the
    numbers they denote. *)
Lemma memcmp_digits a b ra rb :
  Forall (fun ch => isdigit ch = true) a ->
  Forall (fun ch => isdigit ch = true) b ->
  List.length a = List.length b ->
  exists c, memcmp (a ++ ra) (b ++ rb) (List.length a) = Ret c
    /\ ((0 < c)%Z <-> (decimal_value b < decimal_value a)%Z).
Proof.
  intros Ha. revert b.
  induction Ha as [|x a Hx Ha IH]; intros b Hb Hlen.
  - destruct b; [|discriminate]. exists 0%Z. simpl. split; [reflexivity | lia].
  - destruct b as [|y b]; [discriminate|].
    inversion Hb as [|? ? Hy Hb']; subst.
    simpl in Hlen. injection Hlen as Hlen.
    destruct (IH b Hb' Hlen) as (c & Hc & Hiff).
    simpl memcmp. rewrite Hc. simpl.
    eexists; split; [reflexivity|].
    pose proof (decimal_value_bounds a Ha) as Ba.
    pose proof (decimal_value_bounds b Hb') as Bb.
    apply isdigit_range in Hx. apply isdigit_range in Hy.
    simpl decimal_value. rewrite <- Hlen in *.
    set (P := (10 ^ Z.of_nat (List.length a))%Z) in *.
    destruct (byte_val x <? byte_val y)%Z eqn:E1; [|destruct (byte_val y <? byte_val x)%Z eqn:E2].
    + apply Z.ltb_lt in E1. split; [lia | nia].
    + apply Z.ltb_lt in E2. split; [nia | lia].
    + apply Z.ltb_ge in E1. apply Z.ltb_ge in E2.
      assert (byte_val x = byte_val y) as -> by lia. rewrite Hiff. lia.
Qed.

Lemma digits_of_literal (s : string) :
  forallb isdigit (list_ascii_of_string s) = true ->
  Forall (fun ch => isdigit ch = true) (list_ascii_of_string s).
Proof.
  induction (list_ascii_of_string s) as [|ch l IH]; simpl; intros H; constructor.
  - apply andb_prop in H. tauto.
  - apply IH. apply andb_prop in H. tauto.
Qed.

(** A run of digits whose value is at least [10 ^ k] has more than [k]
    digits. *)
Lemma decimal_value_length ds k :
  Forall (fun ch => isdigit ch = true) ds ->
  (10 ^ Z.of_nat k <= decimal_value ds)%Z -> k < List.length ds.
Proof.
  intros Hds Hv.
  pose proof (decimal_value_bounds ds Hds) as B.
  destruct (Nat.lt_ge_cases k (List.length ds)) as [|Hle]; [assumption|].
  assert (10 ^ Z.of_nat (List.length ds) <= 10 ^ Z.of_nat k)%Z
    by (apply Z.pow_le_mono_r; lia).
  lia.
Qed.

Lemma to_u64_rejects ds rest :
  Forall (fun ch => isdigit ch = true) ds -> no_digit_ahead rest ->
  (2 ^ 64 - 1 < decimal_value ds)%Z ->
  exists n, to_u64 (ds ++ rest) = Ret (0, n).
Proof.
  intros Hds Hrest Hv.
  pose proof (to_u64_digits_count ds rest 0 Hds Hrest) as Hk.
  unfold to_u64. destruct (to_u64_digits (ds ++ rest) 0) as [n k]. simpl in Hk. subst k.
  assert (19 < List.length ds) as Hlen.
  { apply decimal_value_length; [assumption|].
    change (10 ^ Z.of_nat 19)%Z with 10000000000000000000%Z. lia. }
  destruct (20 <? List.length ds) eqn:E; [simpl; eauto|].
  apply Nat.ltb_ge in E.
  assert (List.length ds = 20) as H20 by lia.
  rewrite H20. simpl "=?".
  set (lit := list_ascii_of_string "18446744073709551615").
  destruct (memcmp_digits ds lit rest [] Hds (digits_of_literal "18446744073709551615" eq_refl)) as (c & Hc & Hiff);
    [rewrite H20; reflexivity|].
  rewrite H20 in Hc. rewrite app_nil_r in Hc. rewrite Hc. simpl.
  assert (0 < c)%Z as Hpos by (apply Hiff; vm_compute decimal_value at 1; lia).
  apply Z.ltb_lt in Hpos. rewrite Hpos. eauto.
Qed.

Lemma to_s64_unsigned d s :
  Ascii.eqb d "-" = false ->
  to_s64 (d :: s) =
    (let '(n, k) := to_s64_digits (d :: s) 0 in
     overflow ←
       (if 19 <? k then Ret true
        else if k =? 19 then
          c ← memcmp (d :: s) (list_ascii_of_string "9223372036854775807") 19;
          Ret (0 <? c)%Z
        else Ret false);
     Ret (if overflow : bool then 0 else k, n)).
Proof. intros Hd. unfold to_s64. simpl read. simpl mbind at 1. rewrite Hd. reflexivity. Qed.

Lemma to_s64_signed s :
  to_s64 ("-"%char :: s) =
    (let '(n, k) := to_s64_digits s 0 in
     overflow ←
       (if 20 <? 1 + k then Ret true
        else if 1 + k =? 20 then
          c ← memcmp ("-"%char :: s) (list_ascii_of_string "-9223372036854775808") 20;
          Ret (0 <? c)%Z
        else Ret false);
     Ret (if overflow : bool then 0 else 1 + k, s64 (- n))).
Proof. reflexivity. Qed.

Lemma to_s64_rejects_positive ds rest :
  Forall (fun ch => isdigit ch = true) ds -> no_digit_ahead rest ->
  (2 ^ 63 - 1 < decimal_value ds)%Z ->
  exists n, to_s64 (ds ++ rest) = Ret (0, n).
Proof.
  intros Hds Hrest Hv.
  assert (18 < List.length ds) as Hlen.
  { apply decimal_value_length; [assumption|].
    change (10 ^ Z.of_nat 18)%Z with 1000000000000000000%Z. lia. }
  pose proof (to_s64_digits_count ds rest 0 Hds Hrest) as Hk.
  assert (exists d s, ds ++ rest = d :: s /\ Ascii.eqb d "-" = false) as (d & s & Hs & Hd).
  { destruct ds as [|d ds']; [simpl in Hlen; lia|].
    exists d, (ds' ++ rest). split; [reflexivity|].
    inversion Hds as [|? ? Hx _]; subst. apply isdigit_range in Hx.
    destruct (Ascii.eqb_spec d "-") as [->|]; [change (byte_val "-") with 45%Z in Hx; lia | reflexivity]. }
  rewrite Hs in Hk |- *. rewrite (to_s64_unsigned d s Hd).
  destruct (to_s64_digits (d :: s) 0) as [n k]. simpl in Hk. subst k.
  destruct (19 <? List.length ds) eqn:E; [simpl; eauto|].
  apply Nat.ltb_ge in E.
  assert (List.length ds = 19) as H19 by lia.
  rewrite H19. simpl "=?".
  destruct (memcmp_digits ds (list_ascii_of_string "9223372036854775807") rest []
              Hds (digits_of_literal "9223372036854775807" eq_refl)) as (c & Hc & Hiff);
    [rewrite H19; reflexivity|].
  rewrite H19 in Hc. rewrite app_nil_r in Hc. rewrite Hs in Hc. rewrite Hc. simpl.
  assert (0 < c)%Z as Hpos by (apply Hiff; vm_compute decimal_value at 1; lia).
  apply Z.ltb_lt in Hpos. rewrite Hpos. eauto.
Qed.

Lemma to_s64_rejects_negative ds rest :
  Forall (fun ch => isdigit ch = true) ds -> no_digit_ahead rest ->
  (2 ^ 63 < decimal_value ds)%Z ->
  exists n, to_s64 ("-"%char :: ds ++ rest) = Ret (0, n).
Proof.
  intros Hds Hrest Hv.
  assert (18 < List.length ds) as Hlen.
  { apply decimal_value_length; [assumption|].
    change (10 ^ Z.of_nat 18)%Z with 1000000000000000000%Z. lia. }
  pose proof (to_s64_digits_count ds rest 0 Hds Hrest) as Hk.
  rewrite to_s64_signed.
  destruct (to_s64_digits (ds ++ rest) 0) as [n k]. simpl in Hk. subst k.
  destruct (20 <? 1 + List.length ds) eqn:E; [simpl; eauto|].
  apply Nat.ltb_ge in E.
  assert (List.length ds = 19) as H19 by lia.
  rewrite H19. simpl "=?".
  destruct (memcmp_digits ds (list_ascii_of_string "9223372036854775808") rest []
              Hds (digits_of_literal "9223372036854775808" eq_refl)) as (c & Hc & Hiff);
    [rewrite H19; reflexivity|].
  rewrite H19 in Hc. rewrite app_nil_r in Hc.
  change (memcmp ("-"%char :: ds ++ rest) (list_ascii_of_string "-9223372036854775808") 20)
    with (r ← memcmp (ds ++ rest) (list_ascii_of_string "9223372036854775808") 19;
          Ret (if (byte_val "-" <? byte_val "-")%Z then (-1)%Z
               else if (byte_val "-" <? byte_val "-")%Z then 1%Z else r)).
  rewrite Hc. simpl.
  assert (0 < c)%Z as Hpos by (apply Hiff; vm_compute decimal_value at 1; lia).
  apply Z.ltb_lt in Hpos. rewrite Hpos. eauto.
Qed.

(** C7: the boundary texts of [to_u64] and [to_s64], and the rule behind
    them: a run of digits [ds] (followed by no further digit) that denotes a
    number above the unsigned, the signed maximum, or - behind a minus sign -
    a number below the signed minimum makes the reader return 0. *)
Theorem C7_integer_bounds (ds rest : bytes) :
  Forall (fun ch => isdigit ch = true) ds -> no_digit_ahead rest ->
  to_u64 (list_ascii_of_string "18446744073709551615") = Ret (20, (2 ^ 64 - 1)%Z)
  /\ (exists n, to_u64 (list_ascii_of_string "18446744073709551616") = Ret (0, n))
  /\ to_s64 (list_ascii_of_string "-9223372036854775808") = Ret (20, (- 2 ^ 63)%Z)
  /\ (exists n, to_s64 (list_ascii_of_string "9223372036854775808") = Ret (0, n))
  /\ ((2 ^ 64 - 1 < decimal_value ds)%Z -> exists n, to_u64 (ds ++ rest) = Ret (0, n))
  /\ ((2 ^ 63 - 1 < decimal_value ds)%Z -> exists n, to_s64 (ds ++ rest) = Ret (0, n))
  /\ ((2 ^ 63 < decimal_value ds)%Z -> exists n, to_s64 ("-"%char :: ds ++ rest) = Ret (0, n)).
Proof.
  intros Hds Hrest.
  split; [vm_compute; reflexivity|].
  split; [eexists; vm_compute; reflexivity|].
  split; [vm_compute; reflexivity|].
  split; [eexists; vm_compute; reflexivity|].
  split; [|split].
  - apply to_u64_rejects; assumption.
  - apply to_s64_rejects_positive; assumption.
  - apply to_s64_rejects_negative; assumption.
Qed.

Lemma C7_integer_bounds_witness :
  (2 ^ 64 - 1 < decimal_value (list_ascii_of_string "99999999999999999999"))%Z
  /\ exists n,
       to_u64 (list_ascii_of_string "99999999999999999999" ++ list_ascii_of_string "]")
       = Ret (0, n).
Proof.
  split; [vm_compute; reflexivity|].
  apply (C7_integer_bounds (list_ascii_of_string "99999999999999999999")
           (list_ascii_of_string "]")).
  - apply (digits_of_literal "99999999999999999999"). reflexivity.
  - reflexivity.
  - vm_compute. reflexivity.
Defined.

(** ** Hexadecimal bit patterns *)

(** C4 (the code departs from the claim): [hex_to_double] accumulates the
    sixteen digits in a 32-bit variable, so the first eight digits leave no
    trace in the result, and the upper half of the result is whatever lies
    behind that variable.  The tokens of 1.0 and of -1.0 decode to the same
    bits, for every content of the adjacent memory. *)
Theorem C4_hex_to_double_loses_high_digits (adjacent : Z) :
  hex_to_double adjacent (list_ascii_of_string "0x3FF0000000000000")
    = Ret (2 ^ 32 * u32 adjacent)%Z
  /\ hex_to_double adjacent (list_ascii_of_string "0xBFF0000000000000")
    = Ret (2 ^ 32 * u32 adjacent)%Z
  /\ hex_to_float (list_ascii_of_string "0x4048f5c3") = Ret 1078523331%Z.
Proof. repeat split; reflexivity. Qed.

(** ** Strings *)

(** C9 (the code departs from the claim): [GetAsString] asserts that its
    destination is not null before anything else, so the call with a null
    destination ends in the assertion, whatever the node; the measuring mode
    is reached through [json_string_to_utf8] only. *)
Theorem C9_GetAsString_null_destination (text : bytes) (n : JsonNode.t) :
  GetAsString text n false = Fault AssertFailed
  /\ json_string_to_utf8 false (json_text "a\tb'") 4 = Ret ([], 3)
  /\ GetAsString (json_text "['a\tb']")
       (JsonNode.mk (string_view.mk 1 6) 0 JsonNodeType.JSON_STRING None) true
     = Ret (["a"; "009"; "b"]%char, 3).
Proof. repeat split; reflexivity. Qed.

(** ** Path resolver: index steps *)

Lemma u64_small z : (0 <= z < 2 ^ 64)%Z -> u64 z = z.
Proof. intros H. unfold u64. apply Z.mod_small. lia. Qed.

Lemma to_u64_digits_value ds rest n :
  Forall (fun ch => isdigit ch = true) ds -> no_digit_ahead rest ->
  fst (to_u64_digits (ds ++ rest) (u64 n))
  = u64 (n * 10 ^ Z.of_nat (List.length ds) + decimal_value ds).
Proof.
  intros Hds Hrest. revert n.
  induction Hds as [|ch ds Hch Hds IH]; intros n.
  - simpl List.length. simpl decimal_value. rewrite Z.pow_0_r, Z.mul_1_r, Z.add_0_r.
    destruct rest as [|c rest]; [reflexivity|]. simpl in *. rewrite Hrest. reflexivity.
  - simpl to_u64_digits. rewrite Hch.
    assert (char_val ch = byte_val ch) as Hcv.
    { apply isdigit_range in Hch. unfold char_val.
      destruct (byte_val ch <? 128)%Z eqn:E; [reflexivity|]. apply Z.ltb_ge in E. lia. }
    pose proof (isdigit_range ch Hch) as Hr.
    rewrite Hcv. rewrite (u64_small (byte_val ch - 48)) by lia.
    assert (u64 (u64 n * 10 + (byte_val ch - 48)) = u64 (n * 10 + (byte_val ch - 48))) as ->.
    { unfold u64. rewrite Z.add_mod, Z.mul_mod_idemp_l, <- Z.add_mod by lia. reflexivity. }
    specialize (IH (n * 10 + (byte_val ch - 48))%Z).
    destruct (to_u64_digits (ds ++ rest) _) as [n' k]. simpl in IH |- *. rewrite IH.
    f_equal. simpl List.length. simpl decimal_value.
    rewrite Nat2Z.inj_succ, Z.pow_succ_r by lia. ring.
Qed.

(** A run of at most twenty digits that denotes a number below [2 ^ 64] is
    read in full, as that number. *)
Lemma to_u64_accepts ds rest :
  Forall (fun ch => isdigit ch = true) ds -> no_digit_ahead rest ->
  List.length ds <= 20 -> (decimal_value ds <= 2 ^ 64 - 1)%Z ->
  to_u64 (ds ++ rest) = Ret (List.length ds, decimal_value ds).
Proof.
  intros Hds Hrest Hlen Hv.
  pose proof (to_u64_digits_count ds rest 0 Hds Hrest) as Hk.
  pose proof (to_u64_digits_value ds rest 0 Hds Hrest) as Hn.
  pose proof (decimal_value_bounds ds Hds) as B.
  unfold to_u64. change (u64 0) with 0%Z in Hn.
  destruct (to_u64_digits (ds ++ rest) 0) as [n k]. simpl in Hk, Hn. subst k n.
  rewrite Z.mul_0_l, Z.add_0_l, u64_small by lia.
  destruct (20 <? List.length ds) eqn:E; [apply Nat.ltb_lt in E; lia|].
  destruct (List.length ds =? 20) eqn:E20; [|reflexivity].
  apply Nat.eqb_eq in E20.
  destruct (memcmp_digits ds (list_ascii_of_string "18446744073709551615") rest []
              Hds (digits_of_literal "18446744073709551615" eq_refl)) as (c & Hc & Hiff);
    [rewrite E20; reflexivity|].
  rewrite E20 in Hc. rewrite app_nil_r in Hc. rewrite Hc. simpl.
  destruct (0 <? c)%Z eqn:Ec; [|reflexivity].
  apply Z.ltb_lt in Ec. apply Hiff in Ec. vm_compute decimal_value in Ec at 1. lia.
Qed.

Lemma skip_to_item_nth_sibling buf k i j :
  nth_sibling buf k i = Some j -> skip_to_item buf k (Some i) = Ret (Some j).
Proof.
  revert i. induction k as [|k IH]; intros i; simpl.
  - congruence.
  - destruct (buf !! i) as [n|] eqn:Hn; simpl; [|discriminate].
    unfold JsonNode.GetNext. destruct (JsonNode.next n) as [nx|]; simpl; [|discriminate].
    apply IH.
Qed.

Lemma wrapped_index_lt negative i count :
  0 < count -> (0 <= i)%Z -> wrapped_index negative i count < count.
Proof.
  intros Hc Hi. unfold wrapped_index.
  destruct (Z.of_nat count <=? i)%Z eqn:E.
  - pose proof (Z.mod_pos_bound i (Z.of_nat count) ltac:(lia)).
    destruct (i mod Z.of_nat count =? 0)%Z eqn:E0; destruct negative; simpl; lia.
  - apply Z.leb_gt in E.
    destruct (i =? 0)%Z eqn:E0; destruct negative; simpl; lia.
Qed.

(** One index step of the main loop. *)
Lemma array_index_step fuel text buf a n negative ds rest len :
  buf !! a = Some n -> JsonNode.IsArray n = true -> 0 < JsonNode.count n ->
  Forall (fun ch => isdigit ch = true) ds -> ds <> [] ->
  List.length ds <= 20 -> (decimal_value ds <= 2 ^ 64 - 1)%Z ->
  (forall k, k < JsonNode.count n -> is_Some (nth_sibling buf k (a + 1))) ->
  exists j len',
    nth_sibling buf (wrapped_index negative (decimal_value ds) (JsonNode.count n)) (a + 1) = Some j
    /\ get_value_node_loop (S fuel) text buf (index_step negative ds ++ rest) len (Some a)
       = get_value_node_loop fuel text buf rest len' (Some j).
Proof.
  intros Hn Harr Hcount Hds Hne Hlen Hv Hchain.
  pose proof (decimal_value_bounds ds Hds) as B.
  destruct (Hchain (wrapped_index negative (decimal_value ds) (JsonNode.count n))) as [j Hj].
  { apply wrapped_index_lt; lia. }
  exists j, (if negative then len - 1 - 1 - Z.of_nat (List.length ds) - 1
             else len - 1 - Z.of_nat (List.length ds) - 1)%Z.
  split; [exact Hj|].
  assert (JsonNode.IsEOF n = false) as Heof.
  { unfold JsonNode.IsArray, JsonNode.IsEOF, JsonNodeType.eqb in *.
    destruct (JsonNode.type n); simpl in *; congruence. }
  assert (to_u64 ((ds ++ ["]"%char]) ++ rest) = Ret (List.length ds, decimal_value ds)) as Hu.
  { rewrite <- app_assoc. apply to_u64_accepts; try assumption. reflexivity. }
  assert (drop (List.length ds) ((ds ++ ["]"%char]) ++ rest) = "]"%char :: rest) as Hdrop.
  { rewrite <- app_assoc. rewrite drop_app_length. reflexivity. }
  assert ((List.length ds =? 0) = false) as Hl0.
  { apply Nat.eqb_neq. destruct ds; [congruence | simpl; lia]. }
  assert ((JsonNode.count n =? 0) = false) as Hc0 by (apply Nat.eqb_neq; lia).
  unfold index_step.
  cbn [get_value_node_loop app]. unfold deref at 1. rewrite Hn. cbn [mbind outcome_bind].
  rewrite Heof, Harr. change (Ascii.eqb "[" "[") with true. cbn [andb].
  unfold JsonNode.GetCount, JsonNode.IsComplex. rewrite Harr. cbn [orb JSON_ASSERT mbind outcome_bind].
  rewrite Hc0. cbn [fmap option_fmap option_map].
  destruct negative.
  - cbn [app]. change (Ascii.eqb "-" "-") with true. cbn iota.
    rewrite Hu. cbn [mbind outcome_bind]. rewrite Hl0, Hdrop.
    change (Ascii.eqb "]" "]") with true. cbn iota.
    unfold wrapped_index in Hj. cbn [andb] in Hj |- *.
    rewrite (skip_to_item_nth_sibling _ _ _ _ Hj). cbn [mbind outcome_bind]. reflexivity.
  - cbn [app].
    assert (exists d ds', ds = d :: ds' /\ Ascii.eqb d "-" = false) as (d & ds' & -> & Hd).
    { destruct ds as [|d ds']; [congruence|]. exists d, ds'. split; [reflexivity|].
      inversion Hds as [|? ? Hx _]; subst. apply isdigit_range in Hx.
      destruct (Ascii.eqb_spec d "-") as [->|]; [change (byte_val "-") with 45%Z in Hx; lia | reflexivity]. }
    cbn [app]. rewrite Hd. cbn [app] in Hu, Hdrop.
    rewrite Hu. cbn [mbind outcome_bind]. rewrite Hl0, Hdrop.
    change (Ascii.eqb "]" "]") with true. cbn iota.
    unfold wrapped_index in Hj. cbn [andb] in Hj |- *.
    rewrite (skip_to_item_nth_sibling _ _ _ _ Hj). cbn [mbind outcome_bind]. reflexivity.
Qed.

Lemma get_value_node_index text buf a n negative ds :
  buf !! a = Some n -> JsonNode.IsArray n = true -> 0 < JsonNode.count n ->
  Forall (fun ch => isdigit ch = true) ds -> ds <> [] ->
  List.length ds <= 20 -> (decimal_value ds <= 2 ^ 64 - 1)%Z ->
  (forall k, k < JsonNode.count n -> is_Some (nth_sibling buf k (a + 1))) ->
  exists j,
    nth_sibling buf (wrapped_index negative (decimal_value ds) (JsonNode.count n)) (a + 1) = Some j
    /\ get_value_node text buf a (index_step negative ds) = Ret (Some j).
Proof.
  intros Hn Harr Hcount Hds Hne Hlen Hv Hchain.
  unfold get_value_node, deref. rewrite Hn. cbn [mbind outcome_bind].
  rewrite Harr. cbn [orb JSON_ASSERT mbind outcome_bind].
  assert (exists f, List.length (index_step negative ds) = S f) as [f Hf].
  { unfold index_step. simpl. eauto. }
  rewrite Hf.
  destruct (array_index_step (S f) text buf a n negative ds []
              (Z.of_nat (S f)) Hn Harr Hcount Hds Hne Hlen Hv Hchain) as (j & len' & Hj & Hstep).
  rewrite app_nil_r in Hstep. exists j. split; [exact Hj|].
  rewrite Hstep. reflexivity.
Qed.

(** C1: an index step on an array of [count >= 1] elements whose index text
    is a valid unsigned decimal (digits, at most twenty of them, denoting a
    number below [2 ^ 64]) resolves - never to not-found - to the element
    that [wrapped_index] names: [i mod count] for [i >= count], [i]
    otherwise, and counted from the end for a negative step that is not 0.
    On a 2-element array [[-1]] and [[1]] resolve to the same node, and so do
    [[2]] and [[0]]. *)
Theorem C1_index_step_wraps (text : bytes) (buf : list JsonNode.t) (a : nat)
    (n : JsonNode.t) (negative : bool) (ds : bytes) :
  buf !! a = Some n -> JsonNode.IsArray n = true -> 1 <= JsonNode.count n ->
  Forall (fun ch => isdigit ch = true) ds -> ds <> [] ->
  List.length ds <= 20 -> (decimal_value ds <= 2 ^ 64 - 1)%Z ->
  (forall k, k < JsonNode.count n -> is_Some (nth_sibling buf k (a + 1))) ->
  (exists j,
     nth_sibling buf (wrapped_index negative (decimal_value ds) (JsonNode.count n)) (a + 1)
       = Some j
     /\ get_value_node text buf a (index_step negative ds) = Ret (Some j))
  /\ (JsonNode.count n = 2 ->
      exists last first,
        nth_sibling buf 1 (a + 1) = Some last
        /\ get_value_node text buf a (list_ascii_of_string "[-1]") = Ret (Some last)
        /\ get_value_node text buf a (list_ascii_of_string "[1]") = Ret (Some last)
        /\ nth_sibling buf 0 (a + 1) = Some first
        /\ get_value_node text buf a (list_ascii_of_string "[2]") = Ret (Some first)
        /\ get_value_node text buf a (list_ascii_of_string "[0]") = Ret (Some first)).
Proof.
  intros Hn Harr Hcount Hds Hne Hlen Hv Hchain.
  split.
  - apply (get_value_node_index text buf a n); assumption || lia.
  - intros H2.
    assert (forall negative s,
      forallb isdigit (list_ascii_of_string s) = true ->
      list_ascii_of_string s <> [] ->
      List.length (list_ascii_of_string s) <= 20 ->
      (decimal_value (list_ascii_of_string s) <= 2 ^ 64 - 1)%Z ->
      exists j,
        nth_sibling buf
          (wrapped_index negative (decimal_value (list_ascii_of_string s)) (JsonNode.count n))
          (a + 1) = Some j
        /\ get_value_node text buf a (index_step negative (list_ascii_of_string s))
           = Ret (Some j)) as Hstep.
    { intros neg s Hs Hs0 Hs20 Hsv.
      apply (get_value_node_index text buf a n); try assumption; try lia.
      apply digits_of_literal, Hs. }
    destruct (Hstep true "1") as (l1 & Hl1 & Hg1); [reflexivity | discriminate | simpl; lia | vm_compute; congruence |].
    destruct (Hstep false "1") as (l2 & Hl2 & Hg2); [reflexivity | discriminate | simpl; lia | vm_compute; congruence |].
    destruct (Hstep false "2") as (f1 & Hf1 & Hg3); [reflexivity | discriminate | simpl; lia | vm_compute; congruence |].
    destruct (Hstep false "0") as (f2 & Hf2 & Hg4); [reflexivity | discriminate | simpl; lia | vm_compute; congruence |].
    rewrite H2 in Hl1, Hl2, Hf1, Hf2.
    change (wrapped_index true (decimal_value (list_ascii_of_string "1")) 2) with 1 in Hl1.
    change (wrapped_index false (decimal_value (list_ascii_of_string "1")) 2) with 1 in Hl2.
    change (wrapped_index false (decimal_value (list_ascii_of_string "2")) 2) with 0 in Hf1.
    change (wrapped_index false (decimal_value (list_ascii_of_string "0")) 2) with 0 in Hf2.
    assert (l2 = l1) as -> by congruence.
    assert (f2 = f1) as -> by congruence.
    exists l1, f1.
    split; [exact Hl1|]. split; [exact Hg1|]. split; [exact Hg2|].
    split; [exact Hf1|]. split; [exact Hg3 | exact Hg4].
Qed.

Lemma C1_index_step_wraps_witness :
  get_value_node (json_text "[10,20,30]") (parsed_nodes (json_text "[10,20,30]") 8) 0
    (list_ascii_of_string "[-4]") = Ret (Some 3).
Proof.
  destruct (C1_index_step_wraps (json_text "[10,20,30]")
              (parsed_nodes (json_text "[10,20,30]") 8) 0
              (JsonNode.mk (string_view.mk 0 1) 3 JsonNodeType.JSON_ARRAY None)
              true (list_ascii_of_string "4")) as [(j & Hj & Hget) _].
  - reflexivity.
  - reflexivity.
  - simpl. lia.
  - repeat constructor.
  - discriminate.
  - simpl. lia.
  - vm_compute. congruence.
  - intros k Hk. simpl in Hk.
    destruct k as [|[|[|k]]]; [vm_compute; eauto .. | lia].
  - vm_compute in Hj. injection Hj as <-. exact Hget.
Defined.

(** ** Path resolver: key steps *)

(** C6 (the code departs from the claim): in the object [{"x":1}] the step
    [.z], which names no key, runs the key chain to its end and then tests
    [current_node->IsEOF()] on the null pointer; and in [{"x":1,"xy":2}] the
    step [.xy] is matched by the key [x], a proper prefix of the step's key,
    after which the rest of the path fails: not-found, although the key [xy]
    is there.  The steps [.x] and [."xy"] resolve as the claim says. *)
Theorem C6_key_step_departs :
  get_value_node (json_text "{'x':1}") (parsed_nodes (json_text "{'x':1}") 8) 0
    (json_text ".z") = Fault NullDeref
  /\ get_value_node (json_text "{'x':1,'xy':2}") (parsed_nodes (json_text "{'x':1,'xy':2}") 8) 0
       (json_text ".xy") = Ret None
  /\ get_value_node (json_text "{'x':1,'xy':2}") (parsed_nodes (json_text "{'x':1,'xy':2}") 8) 0
       (json_text ".'xy'") = Ret (Some 4)
  /\ get_value_node (json_text "{'x':1,'xy':2}") (parsed_nodes (json_text "{'x':1,'xy':2}") 8) 0
       (json_text ".x") = Ret (Some 2).
Proof. repeat split; vm_compute; reflexivity. Qed.

(** ** Scanner: strings *)

Lemma read_middle (pre : bytes) ch tail : read (pre ++ ch :: tail) (List.length pre) = Ret ch.
Proof. unfold read, bytes. rewrite list_lookup_middle by reflexivity. reflexivity. Qed.

Lemma inside_middle (pre : bytes) ch tail :
  (List.length pre <? List.length (pre ++ ch :: tail)) = true.
Proof. apply Nat.ltb_lt. rewrite length_app. simpl. lia. Qed.

Lemma eqb_false_of_neq (a b : ascii) : a <> b -> Ascii.eqb a b = false.
Proof. intros H. destruct (Ascii.eqb_spec a b); congruence. Qed.

Lemma snoc_cons (pre : bytes) ch tail : pre ++ ch :: tail = (pre ++ [ch]) ++ tail.
Proof. rewrite <- app_assoc. reflexivity. Qed.

Lemma length_snoc (pre : bytes) ch : List.length (pre ++ [ch]) = S (List.length pre).
Proof. rewrite length_app. simpl. lia. Qed.

(** One well-formed item costs the loop one round. *)
Lemma matchString_loop_item fuel pre item tail :
  string_item item ->
  JsonParser.matchString_loop (S fuel) (pre ++ item ++ tail) (List.length pre)
  = JsonParser.matchString_loop fuel (pre ++ item ++ tail) (List.length pre + List.length item).
Proof.
  intros Hitem. destruct Hitem as [ch Hr Hq Hs Hb | ch He | h1 h2 h3 h4 H1 H2 H3 H4].
  - cbn [JsonParser.matchString_loop app].
    rewrite inside_middle, read_middle. cbn [negb mbind outcome_bind].
    rewrite (eqb_false_of_neq _ _ Hq), (eqb_false_of_neq _ _ Hs), (eqb_false_of_neq _ _ Hb).
    destruct (byte_val ch <? 32)%Z eqn:E1; [apply Z.ltb_lt in E1; lia|].
    destruct (byte_val ch <? 255)%Z eqn:E2; [|apply Z.ltb_ge in E2; lia].
    cbn [orb]. simpl List.length. rewrite Nat.add_1_r. reflexivity.
  - cbn [JsonParser.matchString_loop app].
    rewrite inside_middle, read_middle. cbn [negb mbind outcome_bind].
    change (Ascii.eqb backslash dquote) with false.
    change (byte_val backslash <? 32)%Z with false.
    change (Ascii.eqb backslash "/") with false.
    change (Ascii.eqb backslash backslash) with true. cbn [orb].
    rewrite (snoc_cons pre backslash), <- length_snoc with (ch := backslash).
    rewrite read_middle. cbn [mbind outcome_bind]. rewrite He.
    rewrite length_snoc. simpl List.length.
    replace (List.length pre + 2) with (S (S (List.length pre))) by lia. reflexivity.
  - cbn [JsonParser.matchString_loop app].
    rewrite inside_middle, read_middle. cbn [negb mbind outcome_bind].
    change (Ascii.eqb backslash dquote) with false.
    change (byte_val backslash <? 32)%Z with false.
    change (Ascii.eqb backslash "/") with false.
    change (Ascii.eqb backslash backslash) with true. cbn [orb].
    rewrite (snoc_cons pre backslash), <- length_snoc with (ch := backslash).
    rewrite read_middle. cbn [mbind outcome_bind].
    change (JsonParser.is_simple_escape "u") with false.
    change (Ascii.eqb "u" "u") with true. cbn iota.
    rewrite (snoc_cons (pre ++ [backslash]) "u"%char).
    unfold JsonParser.scan_hex4.
    rewrite <- (length_snoc (pre ++ [backslash]) "u"%char).
    set (pre' := (pre ++ [backslash]) ++ ["u"%char]).
    assert ((List.length pre' <? List.length pre') = false) as Hlt by (apply Nat.ltb_irrefl).
    destruct (List.length (pre' ++ h1 :: h2 :: h3 :: h4 :: tail) <? List.length pre') eqn:E.
    { apply Nat.ltb_lt in E. rewrite length_app in E. lia. }
    rewrite drop_app_length. cbn [span_len]. rewrite H1, H2, H3, H4.
    cbn [Nat.min mbind outcome_bind].
    replace (List.length pre' + 4) with (List.length pre + 6)
      by (unfold pre'; rewrite !length_snoc; lia).
    reflexivity.
Qed.

(** A well-formed body is scanned through, to whatever follows it. *)
Lemma matchString_loop_body body :
  string_body body ->
  forall fuel pre tail, List.length body <= fuel ->
  exists fuel', 0 < fuel' /\
    JsonParser.matchString_loop (S fuel) (pre ++ body ++ tail) (List.length pre)
    = JsonParser.matchString_loop fuel' (pre ++ body ++ tail) (List.length pre + List.length body).
Proof.
  induction 1 as [|item body Hitem Hbody IH]; intros fuel pre tail Hfuel.
  - exists (S fuel). split; [lia|]. simpl. rewrite Nat.add_0_r. reflexivity.
  - assert (0 < List.length item) as Hpos by (destruct Hitem; simpl; lia).
    rewrite length_app in Hfuel.
    destruct fuel as [|fuel]; [lia|].
    rewrite <- app_assoc, matchString_loop_item by assumption.
    destruct (IH fuel (pre ++ item) tail ltac:(lia)) as (fuel' & Hf' & Heq).
    exists fuel'. split; [assumption|].
    rewrite <- !app_assoc in Heq. rewrite length_app in Heq.
    rewrite Heq. rewrite length_app. f_equal. lia.
Qed.

(** The verdict of [matchString] on what follows the body. *)
Lemma matchString_loop_end fuel pre rest result off :
  string_end rest result off ->
  exists pos,
    JsonParser.matchString_loop (S fuel) (pre ++ rest) (List.length pre) = Ret pos
    /\ (result ←
          (if pos =? List.length (pre ++ rest) then Ret false
           else ch ← read (pre ++ rest) pos; Ret (Ascii.eqb ch dquote));
        Ret (result, if result : bool then S pos else pos))
       = Ret (result, List.length pre + off).
Proof.
  intros Hend. destruct Hend as [tail | | ch tail Hc | tail | ch tail He Hu].
  - exists (List.length pre). cbn [JsonParser.matchString_loop].
    rewrite inside_middle, read_middle. cbn [negb mbind outcome_bind].
    change (Ascii.eqb dquote dquote) with true. cbn iota. split; [reflexivity|].
    destruct (List.length pre =? List.length (pre ++ dquote :: tail)) eqn:E.
    { apply Nat.eqb_eq in E. rewrite !length_app in E. simpl in E. lia. }
    rewrite ?read_middle. cbn [mbind outcome_bind].
    change (Ascii.eqb dquote dquote) with true. cbn iota. rewrite Nat.add_1_r. reflexivity.
  - exists (List.length pre). cbn [JsonParser.matchString_loop]. rewrite app_nil_r.
    rewrite Nat.ltb_irrefl. cbn [negb]. split; [reflexivity|].
    rewrite Nat.eqb_refl. cbn [mbind outcome_bind]. rewrite Nat.add_0_r. reflexivity.
  - exists (List.length pre). cbn [JsonParser.matchString_loop].
    rewrite inside_middle, read_middle. cbn [negb mbind outcome_bind].
    assert (Ascii.eqb ch dquote = false) as Hq.
    { apply eqb_false_of_neq. intros ->. change (byte_val dquote) with 34%Z in Hc. lia. }
    rewrite Hq. apply Z.ltb_lt in Hc. rewrite Hc. cbn [orb]. split; [reflexivity|].
    destruct (List.length pre =? List.length (pre ++ ch :: tail)) eqn:E.
    { apply Nat.eqb_eq in E. rewrite !length_app in E. simpl in E. lia. }
    rewrite ?read_middle. cbn [mbind outcome_bind]. rewrite ?Hq, Nat.add_0_r. reflexivity.
  - exists (List.length pre). cbn [JsonParser.matchString_loop].
    rewrite inside_middle, read_middle. cbn [negb mbind outcome_bind].
    change (Ascii.eqb "/" dquote) with false. change (Ascii.eqb "/" "/") with true.
    rewrite orb_true_r. cbn [orb]. split; [reflexivity|].
    destruct (List.length pre =? List.length (pre ++ "/"%char :: tail)) eqn:E.
    { apply Nat.eqb_eq in E. rewrite !length_app in E. simpl in E. lia. }
    rewrite ?read_middle. cbn [mbind outcome_bind].
    rewrite Nat.add_0_r. reflexivity.
  - exists (S (List.length pre)). cbn [JsonParser.matchString_loop].
    rewrite inside_middle, read_middle. cbn [negb mbind outcome_bind].
    change (Ascii.eqb backslash dquote) with false.
    change (byte_val backslash <? 32)%Z with false.
    change (Ascii.eqb backslash "/") with false.
    change (Ascii.eqb backslash backslash) with true. cbn [orb].
    rewrite (snoc_cons pre backslash), <- length_snoc with (ch := backslash).
    rewrite ?read_middle. cbn [mbind outcome_bind]. rewrite He.
    rewrite (eqb_false_of_neq _ _ Hu). split; [reflexivity|].
    destruct (List.length (pre ++ [backslash])
              =? List.length ((pre ++ [backslash]) ++ ch :: tail)) eqn:E.
    { apply Nat.eqb_eq in E. rewrite !length_app in E. simpl in E. lia. }
    rewrite ?read_middle. cbn [mbind outcome_bind].
    assert (Ascii.eqb ch dquote = false) as Hq.
    { destruct (Ascii.eqb_spec ch dquote) as [->|]; [|reflexivity].
      vm_compute in He. discriminate. }
    rewrite ?Hq. cbn [mbind outcome_bind]. rewrite length_snoc, Nat.add_1_r. reflexivity.
Qed.

Lemma matchString_scan fuel pre body rest result off :
  string_body body -> string_end rest result off -> List.length body <= fuel ->
  (pos ← JsonParser.matchString_loop (S fuel) (pre ++ dquote :: body ++ rest) (S (List.length pre));
   result ←
     (if pos =? List.length (pre ++ dquote :: body ++ rest) then Ret false
      else ch ← read (pre ++ dquote :: body ++ rest) pos; Ret (Ascii.eqb ch dquote));
   Ret (result, if result : bool then S pos else pos))
  = Ret (result, List.length pre + 1 + List.length body + off).
Proof.
  intros Hbody Hend Hfuel.
  replace (pre ++ dquote :: body ++ rest) with ((pre ++ [dquote]) ++ body ++ rest)
    by (rewrite <- app_assoc; reflexivity).
  rewrite <- (length_snoc pre dquote).
  destruct (matchString_loop_body body Hbody fuel (pre ++ [dquote]) rest Hfuel)
    as (fuel' & Hf' & Heq).
  rewrite Heq. destruct fuel' as [|fuel']; [lia|].
  destruct (matchString_loop_end fuel' ((pre ++ [dquote]) ++ body) rest result off Hend)
    as (pos & Hloop & Hres).
  rewrite <- app_assoc in Hloop, Hres. rewrite length_app in Hloop.
  rewrite Hloop. cbn [mbind outcome_bind].
  rewrite Hres. rewrite !length_app. simpl List.length. f_equal.
Qed.

Lemma matchString_at_spec pre body rest result off :
  string_body body -> string_end rest result off ->
  JsonParser.matchString_at (pre ++ dquote :: body ++ rest) (List.length pre)
  = Ret (result, List.length pre + 1 + List.length body + off).
Proof.
  intros Hbody Hend. unfold JsonParser.matchString_at.
  apply matchString_scan; [assumption | assumption |].
  rewrite length_app. simpl. rewrite length_app. lia.
Qed.

Lemma span_len_le f (s : bytes) : span_len f s <= List.length s.
Proof. induction s as [|ch s IH]; simpl; [lia|]. destruct (f ch); simpl; lia. Qed.

Lemma scan_while_inside f (text : bytes) pos :
  pos <= List.length text ->
  exists pos', JsonParser.scan_while f text pos = Ret pos' /\ pos <= pos' <= List.length text.
Proof.
  intros Hpos. unfold JsonParser.scan_while.
  destruct (List.length text <? pos) eqn:E; [apply Nat.ltb_lt in E; lia|].
  eexists; split; [reflexivity|].
  pose proof (span_len_le f (drop pos text)) as H. rewrite length_drop in H. lia.
Qed.

Lemma skipWhitespace_inside st :
  JsonParser.m_pos st <= JsonParser.m_end st ->
  exists st', JsonParser.skipWhitespace st = Ret st'.
Proof.
  intros Hpos. unfold JsonParser.skipWhitespace.
  destruct (JsonParser.m_end st <? JsonParser.m_pos st) eqn:E; [apply Nat.ltb_lt in E; lia|].
  eauto.
Qed.

Lemma string_end_inside rest off :
  string_end rest false off -> rest <> [] -> off < List.length rest.
Proof. intros H Hne. inversion H; subst; simpl; try lia. exfalso. apply Hne. reflexivity. Qed.

Lemma string_end_accepts rest off : string_end rest true off -> 0 < List.length rest /\ off = 1.
Proof. intros H. inversion H; subst. simpl. lia. Qed.

(** With room in the log the message is appended. *)
Lemma appendToErrorLog_room formatted st :
  List.length (JsonParser.m_errorLog st) + List.length formatted
  <= JsonParser.JSON_ERROR_MESSAGE_LENGTH ->
  JsonParser.appendToErrorLog formatted st
  = Ret (JsonParser.mk (JsonParser.m_text st) (JsonParser.m_pos st) (JsonParser.m_errorCode st)
           (JsonParser.m_nodeBuffer st) (JsonParser.m_nodeCount st)
           (JsonParser.m_currentToken st) (JsonParser.m_currentLine st)
           (JsonParser.m_errorLog st ++ formatted)).
Proof.
  intros H. unfold JsonParser.appendToErrorLog.
  replace (0 <=? Z.of_nat (List.length formatted))%Z with true
    by (symmetry; apply Z.leb_le; lia).
  replace (Z.of_nat (List.length (JsonParser.m_errorLog st)) + Z.of_nat (List.length formatted)
           <=? Z.of_nat JsonParser.JSON_ERROR_MESSAGE_LENGTH)%Z with true
    by (symmetry; apply Z.leb_le; lia).
  reflexivity.
Qed.

(** A message that was appended has left the rest of the state alone. *)
Lemma appendToErrorLog_inv formatted st st' :
  JsonParser.appendToErrorLog formatted st = Ret st' ->
  st' = JsonParser.mk (JsonParser.m_text st) (JsonParser.m_pos st) (JsonParser.m_errorCode st)
          (JsonParser.m_nodeBuffer st) (JsonParser.m_nodeCount st)
          (JsonParser.m_currentToken st) (JsonParser.m_currentLine st)
          (JsonParser.m_errorLog st ++ formatted).
Proof.
  unfold JsonParser.appendToErrorLog, JSON_ASSERT. intros H.
  destruct (0 <=? _)%Z; [|discriminate].
  destruct (_ <=? _)%Z; [|discriminate].
  cbn in H. congruence.
Qed.

Lemma logInvalidTokenError_inv ty msg st st' :
  JsonParser.logInvalidTokenError ty msg st = Ret st' ->
  exists log,
    st' = JsonParser.mk (JsonParser.m_text st) (JsonParser.m_pos st) (JsonParser.m_errorCode st)
            (JsonParser.m_nodeBuffer st) (JsonParser.m_nodeCount st)
            (JsonParser.m_currentToken st) (JsonParser.m_currentLine st) log.
Proof.
  unfold JsonParser.logInvalidTokenError. destruct (JsonTokenType.eqb _ _); intros H.
  - apply appendToErrorLog_inv in H. eauto.
  - injection H as <-. destruct st. eauto.
Qed.

(** C8, as the code has it: a token that begins with a quotation mark and
    goes on with a well-formed body (plain bytes from 0x20 to 0xFE other than
    the quotation mark, the backslash and the solidus; escapes of the
    recognized set; [u] escapes with four hex digits) is a string token when
    the closing quotation mark follows the body.  [matchString] rejects it,
    and leaves [m_pos] on the offending point, when the text ends behind the
    body or when a control character, a solidus that is not escaped, or a
    backslash before a byte of no escape follows; in these three cases, where
    the text goes on, the token is invalid, given that the log has room for
    the message. *)
Theorem C8_string_scan (st : JsonParser.t) (pre body rest : bytes) (result : bool) (off : nat) :
  string_body body -> string_end rest result off ->
  JsonParser.m_text st = pre ++ dquote :: body ++ rest ->
  JsonParser.m_pos st = List.length pre ->
  JsonParser.matchString_at (JsonParser.m_text st) (JsonParser.m_pos st)
    = Ret (result, List.length pre + 1 + List.length body + off)
  /\ (result = true ->
      exists st',
        JsonParser.getNextToken st
        = Ret (JsonToken.mk (List.length pre) (List.length body + 2) JsonTokenType.JSON_STRING, st'))
  /\ (result = false -> rest <> [] ->
      List.length (JsonParser.m_errorLog st)
      + List.length (JsonParser.invalid_token_message (JsonParser.m_currentLine st)
                       (Some "string expected"))
      <= JsonParser.JSON_ERROR_MESSAGE_LENGTH ->
      exists len st',
        JsonParser.getNextToken st
        = Ret (JsonToken.mk (List.length pre) len JsonTokenType.INVALID, st')).
Proof.
  intros Hbody Hend Htext Hpos.
  pose proof (matchString_at_spec pre body rest result off Hbody Hend) as Hm.
  rewrite <- Htext, <- Hpos in Hm at 1.
  split; [exact Hm|].
  assert (JsonParser.m_end st = List.length pre + 1 + List.length body + List.length rest) as Hend'.
  { unfold JsonParser.m_end. rewrite Htext, length_app. simpl. rewrite length_app. lia. }
  assert ((JsonParser.m_end st <=? JsonParser.m_pos st) = false) as Hin
    by (apply Nat.leb_gt; lia).
  assert (read (JsonParser.m_text st) (JsonParser.m_pos st) = Ret dquote) as Hread
    by (rewrite Htext, Hpos; apply read_middle).
  split.
  - intros ->. destruct (string_end_accepts rest off Hend) as [Hr ->].
    unfold JsonParser.getNextToken. rewrite Hin, Hread. cbn [mbind outcome_bind].
    unfold JsonParser.scan_token.
    change (JsonParser.isDigit dquote || Ascii.eqb dquote "-") with false.
    change (Ascii.eqb dquote dquote) with true. cbn iota.
    unfold JsonParser.matched. rewrite Hm. cbn [mbind outcome_bind].
    unfold JsonParser.logInvalidTokenError.
    change (JsonTokenType.eqb JsonTokenType.JSON_STRING JsonTokenType.INVALID) with false.
    cbn iota. cbn [mbind outcome_bind].
    change (JsonTokenType.eqb JsonTokenType.JSON_STRING JsonTokenType.INVALID) with false.
    cbn iota.
    destruct (skipWhitespace_inside
                (JsonParser.with_pos (List.length pre + 1 + List.length body + 1) st))
      as [st' Hst']; [simpl; unfold JsonParser.m_end in *; simpl; lia|].
    cbn [mbind outcome_bind]. rewrite Hst'. cbn [mbind outcome_bind]. exists st'.
    simpl JsonParser.m_pos. rewrite Hpos. do 3 f_equal. lia.
  - intros -> Hne Hroom. pose proof (string_end_inside rest off Hend Hne) as Hoff.
    unfold JsonParser.getNextToken. rewrite Hin, Hread. cbn [mbind outcome_bind].
    unfold JsonParser.scan_token.
    change (JsonParser.isDigit dquote || Ascii.eqb dquote "-") with false.
    change (Ascii.eqb dquote dquote) with true. cbn iota.
    unfold JsonParser.matched. rewrite Hm. cbn [mbind outcome_bind].
    unfold JsonParser.logInvalidTokenError.
    change (JsonTokenType.eqb JsonTokenType.INVALID JsonTokenType.INVALID) with true.
    cbn iota.
    rewrite appendToErrorLog_room by exact Hroom. cbn [mbind outcome_bind].
    change (JsonTokenType.eqb JsonTokenType.INVALID JsonTokenType.INVALID) with true.
    cbn iota.
    set (st1 := JsonParser.mk _ _ _ _ _ _ _ _).
    assert (JsonParser.m_text st1 = JsonParser.m_text st) as Ht1 by reflexivity.
    assert (JsonParser.m_pos st1 = List.length pre + 1 + List.length body + off) as Hp1
      by reflexivity.
    destruct (scan_while_inside (fun c => negb (JsonParser.isValid c)) (JsonParser.m_text st1)
                (JsonParser.m_pos st1 + 1)) as (pos' & Hscan & Hle).
    { rewrite Hp1, Ht1. unfold JsonParser.m_end in Hend'. lia. }
    rewrite Hscan. cbn [mbind outcome_bind].
    destruct (skipWhitespace_inside (JsonParser.with_pos pos' st1)) as [st' Hst'].
    { unfold JsonParser.m_end. change (JsonParser.m_text (JsonParser.with_pos pos' st1))
        with (JsonParser.m_text st1).
      change (JsonParser.m_pos (JsonParser.with_pos pos' st1)) with pos'. lia. }
    rewrite Hst'. cbn [mbind outcome_bind]. rewrite Hpos. eauto.
Qed.

Lemma C8_string_scan_witness :
  exists st',
    JsonParser.getNextToken (JsonParser.SetUp (json_text "'a\nb\/c'") [])
    = Ret (JsonToken.mk 0 9 JsonTokenType.JSON_STRING, st').
Proof.
  destruct (C8_string_scan (JsonParser.SetUp (json_text "'a\nb\/c'") [])
              [] (json_text "a\nb\/c") [dquote] true 1) as (_ & Hacc & _).
  - apply (body_item ["a"%char]); [constructor; vm_compute; intuition congruence|].
    apply (body_item [backslash; "n"%char]); [constructor; reflexivity|].
    apply (body_item ["b"%char]); [constructor; vm_compute; intuition congruence|].
    apply (body_item [backslash; "/"%char]); [constructor; reflexivity|].
    apply (body_item ["c"%char]); [constructor; vm_compute; intuition congruence|].
    constructor.
  - constructor.
  - reflexivity.
  - reflexivity.
  - exact (Hacc eq_refl).
Defined.

(** C8 as the claim has it fails on the token ["a/b"]: it is closed by a
    quotation mark, holds no backslash and no control character, and is
    invalid all the same, with [m_pos] left on the solidus. *)
Lemma C8_solidus_counterexample :
  JsonParser.matchString_at (json_text "'a/b'") 0 = Ret (false, 2)
  /\ (exists st',
        JsonParser.getNextToken (JsonParser.SetUp (json_text "'a/b'") [])
        = Ret (JsonToken.mk 0 5 JsonTokenType.INVALID, st'))
  /\ forallb (fun ch => (32 <=? byte_val ch)%Z && negb (Ascii.eqb ch backslash))
       (json_text "'a/b'") = true
  /\ last (json_text "'a/b'") = Some dquote.
Proof. repeat split; try reflexivity. eexists. vm_compute. reflexivity. Qed.

(** ** Scanner: every token moves [m_pos] forward *)

Ltac bind_inv H :=
  match type of H with
  | (?m ≫= _) = Ret _ =>
      let E := fresh "E" in
      destruct m eqn:E; [cbn [mbind outcome_bind] in H | discriminate H]
  end.

Tactic Notation "bind_as" hyp(H) "as" simple_intropattern(x) ident(E) :=
  match type of H with
  | (?m ≫= _) = Ret _ =>
      destruct m as [x|] eqn:E; [cbn [mbind outcome_bind] in H | discriminate H]
  end.

Ltac ret_inv H :=
  match type of H with
  | Ret _ = Ret _ => injection H as H; subst
  | Fault _ = Ret _ => discriminate H
  end.

Lemma scan_while_mono f text pos p :
  JsonParser.scan_while f text pos = Ret p -> pos <= p <= List.length text.
Proof.
  unfold JsonParser.scan_while. intros H.
  destruct (List.length text <? pos) eqn:E; [discriminate|].
  apply Nat.ltb_ge in E. injection H as <-.
  pose proof (span_len_le f (drop pos text)) as Hs. rewrite length_drop in Hs. lia.
Qed.

Lemma scan_hex4_mono text pos p :
  JsonParser.scan_hex4 text pos = Ret p -> pos <= p.
Proof.
  unfold JsonParser.scan_hex4. intros H.
  destruct (List.length text <? pos); [discriminate|]. injection H as <-. lia.
Qed.

Lemma matchString_loop_mono fuel text pos p :
  JsonParser.matchString_loop fuel text pos = Ret p -> pos <= p.
Proof.
  revert pos. induction fuel as [|fuel IH]; intros pos H; [discriminate|].
  cbn [JsonParser.matchString_loop] in H.
  destruct (negb (pos <? List.length text)); [injection H as <-; lia|].
  bind_inv H.
  destruct (Ascii.eqb a dquote); [injection H as <-; lia|].
  destruct ((byte_val a <? 32)%Z || Ascii.eqb a "/" || false); [injection H as <-; lia|].
  destruct (Ascii.eqb a backslash).
  - bind_inv H.
    destruct (JsonParser.is_simple_escape a0); [apply IH in H; lia|].
    destruct (Ascii.eqb a0 "u"); [|injection H as <-; lia].
    bind_inv H. apply scan_hex4_mono in E1. apply IH in H. lia.
  - destruct (byte_val a <? 255)%Z; [apply IH in H; lia|].
    bind_inv H. destruct (a0 =? 0); [injection H as <-; lia|]. apply IH in H. lia.
Qed.

Lemma matchString_at_mono text pos ok p :
  JsonParser.matchString_at text pos = Ret (ok, p) -> pos < p.
Proof.
  unfold JsonParser.matchString_at. intros H.
  bind_inv H. apply matchString_loop_mono in E.
  bind_inv H. injection H as _ <-. destruct a0; lia.
Qed.

Lemma do_digits_mono text pos ok p :
  JsonParser.do_digits text pos = Ret (ok, p) -> pos <= p.
Proof.
  unfold JsonParser.do_digits. intros H.
  destruct (pos =? List.length text); [injection H as _ <-; lia|].
  bind_inv H. destruct (JsonParser.isDigit a); [|injection H as _ <-; lia].
  bind_inv H. apply scan_while_mono in E0. injection H as _ <-. lia.
Qed.

Lemma matchNumber_loop_mono fuel text pos ok p :
  JsonParser.matchNumber_loop fuel text pos = Ret (ok, p) -> pos <= p.
Proof.
  revert pos. induction fuel as [|fuel IH]; intros pos H; [discriminate|].
  cbn [JsonParser.matchNumber_loop] in H.
  destruct (negb (pos <? List.length text)); [injection H as _ <-; lia|].
  bind_inv H.
  destruct (Ascii.eqb a ".").
  - bind_inv H. destruct a0 as [r q]. apply do_digits_mono in E0.
    destruct r; [apply IH in H; lia | injection H as _ <-; lia].
  - destruct (Ascii.eqb a "e" || Ascii.eqb a "E"); [|injection H as _ <-; lia].
    bind_inv H. apply do_digits_mono in H.
    destruct (S pos =? List.length text); [injection E0 as <-; lia|].
    bind_inv E0. injection E0 as <-.
    destruct (Ascii.eqb a1 "-" || Ascii.eqb a1 "+"); lia.
Qed.

Lemma matchNumber_at_mono text pos ok p :
  JsonParser.matchNumber_at text pos = Ret (ok, p) -> pos <= p /\ (ok = true -> pos < p).
Proof.
  unfold JsonParser.matchNumber_at. intros H.
  bind_inv H.
  assert (pos <= a) as Ha.
  { destruct (pos =? List.length text); [injection E as <-; lia|].
    bind_inv E. injection E as <-. destruct (Ascii.eqb a0 "-"); lia. }
  bind_inv H.
  destruct (Ascii.eqb a0 "0"); [apply matchNumber_loop_mono in H; lia|].
  destruct ((49 <=? char_val a0)%Z && (char_val a0 <=? 57)%Z).
  - bind_inv H. apply scan_while_mono in E1. apply matchNumber_loop_mono in H. lia.
  - injection H as <- <-. split; [lia | discriminate].
Qed.

Lemma matchLiteral_loop_mono text s pos ok p :
  JsonParser.matchLiteral_loop text s pos = Ret (ok, p) ->
  pos <= p /\ (s <> [] -> pos < p).
Proof.
  revert pos. induction s as [|c s IH]; intros pos H; cbn [JsonParser.matchLiteral_loop] in H.
  - injection H as _ <-. split; [lia | congruence].
  - destruct (S pos =? List.length text); [injection H as _ <-; split; lia|].
    bind_inv H. destruct (negb (Ascii.eqb a c)); [injection H as _ <-; split; lia|].
    apply IH in H. split; lia.
Qed.

Lemma matchLiteral_at_mono text (s : string) pos ok p :
  list_ascii_of_string s <> [] ->
  JsonParser.matchLiteral_at text s pos = Ret (ok, p) -> pos < p.
Proof.
  unfold JsonParser.matchLiteral_at. intros Hs H.
  bind_inv H. destruct a as [r q]. apply matchLiteral_loop_mono in E.
  injection H as _ <-. destruct E as [_ E]. specialize (E Hs). destruct r; lia.
Qed.

Lemma matchFloatHex_at_mono text pos rc p :
  JsonParser.matchFloatHex_at text pos = Ret (rc, p) -> pos <= p.
Proof.
  unfold JsonParser.matchFloatHex_at. intros H.
  destruct (List.length text <? pos); [discriminate|]. injection H as _ <-. lia.
Qed.

Lemma builder_kept_refl st : builder_kept st st.
Proof. repeat split. Qed.

Lemma builder_kept_trans st1 st2 st3 :
  builder_kept st1 st2 -> builder_kept st2 st3 -> builder_kept st1 st3.
Proof. unfold builder_kept. intuition congruence. Qed.

Lemma matched_spec r ty msg st type st' pos0 :
  JsonParser.matched r ty msg st = Ret (type, st') ->
  (forall ok p, r = Ret (ok, p) -> pos0 <= p /\ (ok = true -> pos0 < p)) ->
  builder_kept st st'
  /\ JsonParser.m_currentToken st' = JsonParser.m_currentToken st
  /\ pos0 <= JsonParser.m_pos st'
  /\ (type <> JsonTokenType.INVALID -> pos0 < JsonParser.m_pos st').
Proof.
  unfold JsonParser.matched. intros H Hr.
  bind_inv H. destruct a as [ok p]. destruct (Hr ok p eq_refl) as [Hle Hlt].
  bind_as H as s1 E1. injection H as <- <-.
  apply logInvalidTokenError_inv in E1 as (log & ->). simpl.
  split; [repeat split|]. split; [reflexivity|]. split; [exact Hle|].
  destruct ok; [auto | congruence].
Qed.

Lemma scan_token_spec ch st type st' :
  JsonParser.scan_token ch st = Ret (type, st') ->
  builder_kept st st'
  /\ JsonParser.m_currentToken st' = JsonParser.m_currentToken st
  /\ JsonParser.m_pos st <= JsonParser.m_pos st'
  /\ (type <> JsonTokenType.INVALID -> JsonParser.m_pos st < JsonParser.m_pos st').
Proof.
  unfold JsonParser.scan_token. intros H.
  destruct (JsonParser.isDigit ch || Ascii.eqb ch "-").
  { bind_inv H. destruct a.
    - bind_inv H. destruct a as [rc p]. apply matchFloatHex_at_mono in E0.
      bind_as H as s1 E1. injection H as <- <-.
      apply logInvalidTokenError_inv in E1 as (log & ->). simpl.
      (split; [repeat split|]); (split; [reflexivity|]); split; lia.
    - eapply matched_spec; [exact H|]. intros ok p Hr. apply matchNumber_at_mono in Hr. exact Hr. }
  destruct (Ascii.eqb ch dquote).
  { eapply matched_spec; [exact H|]. intros ok p Hr. apply matchString_at_mono in Hr. lia. }
  destruct (Ascii.eqb ch "t").
  { eapply matched_spec; [exact H|]. intros ok p Hr.
    apply matchLiteral_at_mono in Hr; [lia | discriminate]. }
  destruct (Ascii.eqb ch "f").
  { eapply matched_spec; [exact H|]. intros ok p Hr.
    apply matchLiteral_at_mono in Hr; [lia | discriminate]. }
  destruct (Ascii.eqb ch "n").
  { eapply matched_spec; [exact H|]. intros ok p Hr.
    apply matchLiteral_at_mono in Hr; [lia | discriminate]. }
  repeat match type of H with
         | (if ?b then _ else _) = _ =>
             destruct b;
             [injection H as <- <-; simpl; (split; [repeat split|]);
              (split; [reflexivity|]); split; lia|]
         end.
  bind_as H as s1 E1. injection H as <- <-. apply appendToErrorLog_inv in E1 as ->. simpl.
  split; [repeat split|]. split; [reflexivity|].
  split; [lia | congruence].
Qed.

Lemma skipWhitespace_spec st st' :
  JsonParser.skipWhitespace st = Ret st' ->
  builder_kept st st'
  /\ JsonParser.m_currentToken st' = JsonParser.m_currentToken st
  /\ JsonParser.m_pos st <= JsonParser.m_pos st' <= JsonParser.m_end st.
Proof.
  unfold JsonParser.skipWhitespace. intros H.
  destruct (JsonParser.m_end st <? JsonParser.m_pos st) eqn:E; [discriminate|].
  apply Nat.ltb_ge in E. injection H as <-. simpl.
  split; [repeat split|]. split; [reflexivity|].
  pose proof (span_len_le JsonParser.isWhitespace (drop (JsonParser.m_pos st) (JsonParser.m_text st)))
    as Hs.
  rewrite length_drop in Hs. unfold JsonParser.m_end in *. lia.
Qed.

(** [getNextToken]: at the end of the text it yields the end-of-input token
    and changes nothing; before the end it moves [m_pos] forward, and never
    beyond [m_end]; the builder's fields are not touched. *)
Lemma getNextToken_spec st tok st' :
  JsonParser.getNextToken st = Ret (tok, st') ->
  builder_kept st st'
  /\ JsonParser.m_currentToken st' = JsonParser.m_currentToken st
  /\ (JsonParser.m_end st <= JsonParser.m_pos st ->
      st' = st /\ JsonToken.type tok = JsonTokenType.JSON_EOF)
  /\ (JsonParser.m_pos st < JsonParser.m_end st ->
      JsonParser.m_pos st < JsonParser.m_pos st' <= JsonParser.m_end st).
Proof.
  unfold JsonParser.getNextToken. intros H.
  destruct (JsonParser.m_end st <=? JsonParser.m_pos st) eqn:E.
  { apply Nat.leb_le in E. injection H as <- <-.
    split; [apply builder_kept_refl|]. split; [reflexivity|]. split; [auto | lia]. }
  apply Nat.leb_gt in E.
  bind_as H as ch Ech. bind_as H as [type st1] Escan.
  apply scan_token_spec in Escan as (K1 & T1 & Hle1 & Hlt1).
  bind_as H as st2 Eskip. bind_as H as st3 Ews. injection H as <- <-.
  apply skipWhitespace_spec in Ews as (K3 & T3 & Hle3).
  assert (builder_kept st1 st2 /\ JsonParser.m_currentToken st2 = JsonParser.m_currentToken st1
          /\ JsonParser.m_pos st < JsonParser.m_pos st2) as (K2 & T2 & Hlt2).
  { destruct (JsonTokenType.eqb type JsonTokenType.INVALID) eqn:Ety.
    - bind_as Eskip as pos Epos. injection Eskip as <-. apply scan_while_mono in Epos. simpl.
      split; [repeat split|]. split; [reflexivity | lia].
    - injection Eskip as <-. split; [apply builder_kept_refl|]. split; [reflexivity|].
      apply Hlt1. intros ->. discriminate Ety. }
  split; [eauto using builder_kept_trans|].
  split; [congruence|].
  split; [lia|]. intros _.
  destruct K1 as (Kt1 & _), K2 as (Kt2 & _).
  unfold JsonParser.m_end in *. rewrite Kt2, Kt1 in Hle3. lia.
Qed.

(** ** The fuel of the model is never what ends a parse *)

Lemma fueled_ret {A} (a : A) : fueled (Ret a).
Proof. discriminate. Qed.

Lemma fueled_fault {A} f : f <> OutOfFuel -> fueled (@Fault A f).
Proof. unfold fueled. congruence. Qed.

Lemma fueled_bind {A B} (m : outcome A) (k : A -> outcome B) :
  fueled m -> (forall a, m = Ret a -> fueled (k a)) -> fueled (m ≫= k).
Proof.
  unfold fueled. intros Hm Hk. destruct m as [a|f]; cbn [mbind outcome_bind].
  - apply Hk. reflexivity.
  - congruence.
Qed.

Create HintDb fueled.

Ltac fueled_step :=
  first
    [ apply fueled_ret
    | apply fueled_fault; discriminate
    | apply fueled_bind; [|intros ? ?]
    | match goal with
      | |- fueled (if ?b then _ else _) => destruct b eqn:?
      | |- fueled (match ?x with _ => _ end) => destruct x eqn:?
      end
    | solve [auto with fueled] ].

Ltac fueled_tac := repeat fueled_step.

Lemma fueled_read s i : fueled (read s i).
Proof. unfold read. fueled_tac. Qed.
#[local] Hint Resolve fueled_read : fueled.

Lemma fueled_scan_while f text pos : fueled (JsonParser.scan_while f text pos).
Proof. unfold JsonParser.scan_while. fueled_tac. Qed.
#[local] Hint Resolve fueled_scan_while : fueled.

Lemma fueled_scan_hex4 text pos : fueled (JsonParser.scan_hex4 text pos).
Proof. unfold JsonParser.scan_hex4. fueled_tac. Qed.
#[local] Hint Resolve fueled_scan_hex4 : fueled.

Lemma fueled_utf8_len ch : fueled (utf8_len ch).
Proof. unfold utf8_len. fueled_tac. Qed.
#[local] Hint Resolve fueled_utf8_len : fueled.

Lemma fueled_matchString_loop fuel text pos :
  List.length text - pos < fuel -> fueled (JsonParser.matchString_loop fuel text pos).
Proof.
  revert pos. induction fuel as [|fuel IH]; intros pos Hfuel; [lia|].
  cbn [JsonParser.matchString_loop].
  destruct (pos <? List.length text) eqn:Hin; cbn [negb]; [|apply fueled_ret].
  apply Nat.ltb_lt in Hin.
  apply fueled_bind; [apply fueled_read|]. intros ch _.
  destruct (Ascii.eqb ch dquote); [apply fueled_ret|].
  destruct ((byte_val ch <? 32)%Z || Ascii.eqb ch "/" || false); [apply fueled_ret|].
  destruct (Ascii.eqb ch backslash).
  - apply fueled_bind; [apply fueled_read|]. intros c _.
    destruct (JsonParser.is_simple_escape c); [apply IH; lia|].
    destruct (Ascii.eqb c "u"); [|apply fueled_ret].
    apply fueled_bind; [apply fueled_scan_hex4|]. intros p Hp.
    apply scan_hex4_mono in Hp. apply IH. lia.
  - destruct (byte_val ch <? 255)%Z; [apply IH; lia|].
    apply fueled_bind; [apply fueled_utf8_len|]. intros len _.
    destruct (len =? 0) eqn:E; [apply fueled_ret|].
    apply Nat.eqb_neq in E. apply IH. lia.
Qed.

Lemma fueled_matchString_at text pos : fueled (JsonParser.matchString_at text pos).
Proof.
  unfold JsonParser.matchString_at.
  apply fueled_bind; [apply fueled_matchString_loop; lia|]. intros p _. fueled_tac.
Qed.
#[local] Hint Resolve fueled_matchString_at : fueled.

Lemma fueled_do_digits text pos : fueled (JsonParser.do_digits text pos).
Proof. unfold JsonParser.do_digits. fueled_tac. Qed.
#[local] Hint Resolve fueled_do_digits : fueled.

Lemma fueled_matchNumber_loop fuel text pos :
  List.length text - pos < fuel -> fueled (JsonParser.matchNumber_loop fuel text pos).
Proof.
  revert pos. induction fuel as [|fuel IH]; intros pos Hfuel; [lia|].
  cbn [JsonParser.matchNumber_loop].
  destruct (pos <? List.length text) eqn:Hin; cbn [negb]; [|apply fueled_ret].
  apply Nat.ltb_lt in Hin.
  apply fueled_bind; [apply fueled_read|]. intros ch _.
  destruct (Ascii.eqb ch ".").
  - apply fueled_bind; [apply fueled_do_digits|]. intros [r q] Hq.
    apply do_digits_mono in Hq. destruct r; [apply IH; lia | apply fueled_ret].
  - fueled_tac.
Qed.

Lemma fueled_matchNumber_at text pos : fueled (JsonParser.matchNumber_at text pos).
Proof.
  unfold JsonParser.matchNumber_at.
  apply fueled_bind; [fueled_tac|]. intros p _.
  apply fueled_bind; [apply fueled_read|]. intros ch _.
  destruct (Ascii.eqb ch "0"); [apply fueled_matchNumber_loop; lia|].
  destruct ((49 <=? char_val ch)%Z && (char_val ch <=? 57)%Z); [|apply fueled_ret].
  apply fueled_bind; [apply fueled_scan_while|]. intros q _.
  apply fueled_matchNumber_loop. lia.
Qed.
#[local] Hint Resolve fueled_matchNumber_at : fueled.

Lemma fueled_matchLiteral_loop text s pos : fueled (JsonParser.matchLiteral_loop text s pos).
Proof.
  revert pos. induction s as [|c s IH]; intros pos; cbn [JsonParser.matchLiteral_loop].
  - apply fueled_ret.
  - fueled_tac.
Qed.
#[local] Hint Resolve fueled_matchLiteral_loop : fueled.

Lemma fueled_matchLiteral_at text s pos : fueled (JsonParser.matchLiteral_at text s pos).
Proof. unfold JsonParser.matchLiteral_at. fueled_tac. Qed.
#[local] Hint Resolve fueled_matchLiteral_at : fueled.

Lemma fueled_matchFloatHex_at text pos : fueled (JsonParser.matchFloatHex_at text pos).
Proof. unfold JsonParser.matchFloatHex_at. fueled_tac. Qed.
#[local] Hint Resolve fueled_matchFloatHex_at : fueled.

Lemma fueled_JSON_ASSERT b : fueled (JSON_ASSERT b).
Proof. unfold JSON_ASSERT. fueled_tac. Qed.
#[local] Hint Resolve fueled_JSON_ASSERT : fueled.

Lemma fueled_appendToErrorLog formatted st : fueled (JsonParser.appendToErrorLog formatted st).
Proof. unfold JsonParser.appendToErrorLog. fueled_tac. Qed.
#[local] Hint Resolve fueled_appendToErrorLog : fueled.

Lemma fueled_logInvalidTokenError ty msg st : fueled (JsonParser.logInvalidTokenError ty msg st).
Proof. unfold JsonParser.logInvalidTokenError. fueled_tac. Qed.
#[local] Hint Resolve fueled_logInvalidTokenError : fueled.

Lemma fueled_print_string s : fueled (print_string s).
Proof. induction s as [|ch s IH]; cbn [print_string]; fueled_tac. Qed.
#[local] Hint Resolve fueled_print_string : fueled.

Lemma fueled_print_string_n n s : fueled (print_string_n n s).
Proof.
  revert s. induction n as [|n IH]; intros s; cbn [print_string_n]; [fueled_tac|].
  destruct s as [|ch s]; [fueled_tac|].
  destruct (Ascii.eqb ch nul); [fueled_tac|].
  apply fueled_bind; [apply IH | intros ? ?; fueled_tac].
Qed.
#[local] Hint Resolve fueled_print_string_n : fueled.

Lemma fueled_print_precision p s : fueled (print_precision p s).
Proof. unfold print_precision. fueled_tac. Qed.
#[local] Hint Resolve fueled_print_precision : fueled.

Lemma fueled_scan_back text nl b : fueled (JsonParser.scan_back text nl b).
Proof.
  revert nl. induction b as [|b IH]; intros nl; cbn [JsonParser.scan_back]; [fueled_tac|].
  destruct (negb _); [fueled_tac|].
  apply fueled_bind; [auto with fueled | intros ? ?; apply IH].
Qed.
#[local] Hint Resolve fueled_scan_back : fueled.

Lemma fueled_logInvalidTokenPosition st : fueled (JsonParser.logInvalidTokenPosition st).
Proof. unfold JsonParser.logInvalidTokenPosition. fueled_tac. Qed.
#[local] Hint Resolve fueled_logInvalidTokenPosition : fueled.

Lemma fueled_matched r ty msg st : fueled r -> fueled (JsonParser.matched r ty msg st).
Proof. intros Hr. unfold JsonParser.matched. fueled_tac. Qed.

Lemma fueled_scan_token ch st : fueled (JsonParser.scan_token ch st).
Proof.
  unfold JsonParser.scan_token.
  repeat first [ apply fueled_matched; auto with fueled | fueled_step ].
Qed.
#[local] Hint Resolve fueled_scan_token : fueled.

Lemma fueled_skipWhitespace st : fueled (JsonParser.skipWhitespace st).
Proof. unfold JsonParser.skipWhitespace. fueled_tac. Qed.
#[local] Hint Resolve fueled_skipWhitespace : fueled.

Lemma fueled_getNextToken st : fueled (JsonParser.getNextToken st).
Proof. unfold JsonParser.getNextToken. fueled_tac. Qed.
#[local] Hint Resolve fueled_getNextToken : fueled.

Lemma fueled_advance st : fueled (JsonParser.advance st).
Proof. unfold JsonParser.advance. fueled_tac. Qed.
#[local] Hint Resolve fueled_advance : fueled.

Lemma fueled_of_token tok : fueled (JsonNode.of_token tok).
Proof. unfold JsonNode.of_token. destruct (JsonToken.type tok); fueled_tac. Qed.
#[local] Hint Resolve fueled_of_token : fueled.

Lemma fueled_pushNode st : fueled (JsonParser.pushNode st).
Proof. unfold JsonParser.pushNode. fueled_tac. Qed.
#[local] Hint Resolve fueled_pushNode : fueled.

Lemma fueled_expect b msg st : fueled (JsonParser.expect b msg st).
Proof. unfold JsonParser.expect. fueled_tac. Qed.
#[local] Hint Resolve fueled_expect : fueled.

Lemma fueled_update_node i f st : fueled (JsonParser.update_node i f st).
Proof. unfold JsonParser.update_node. fueled_tac. Qed.
#[local] Hint Resolve fueled_update_node : fueled.

Lemma fueled_link_previous p l st : fueled (JsonParser.link_previous p l st).
Proof. unfold JsonParser.link_previous. fueled_tac. Qed.
#[local] Hint Resolve fueled_link_previous : fueled.

(** ** Builder: what each step keeps *)

Lemma parse_step_refl st : parse_step st st.
Proof. unfold parse_step. intuition lia. Qed.

Lemma parse_step_trans st1 st2 st3 : parse_step st1 st2 -> parse_step st2 st3 -> parse_step st1 st3.
Proof. unfold parse_step. intros (T1 & A1) (T2 & A2). split; [congruence | lia]. Qed.

Lemma advance_spec st st' :
  JsonParser.advance st = Ret st' ->
  builder_kept st st'
  /\ (JsonParser.m_end st <= JsonParser.m_pos st ->
      JsonParser.m_pos st' = JsonParser.m_pos st
      /\ JsonParser.token_is JsonTokenType.JSON_EOF st' = true)
  /\ (JsonParser.m_pos st < JsonParser.m_end st ->
      JsonParser.m_pos st < JsonParser.m_pos st' <= JsonParser.m_end st).
Proof.
  unfold JsonParser.advance. intros H. bind_inv H. destruct a as [tok st1].
  injection H as <-. apply getNextToken_spec in E as (K & _ & Hend & Hin).
  split; [exact K|]. split.
  - intros Hge. destruct (Hend Hge) as [-> Hty]. split; [reflexivity|].
    unfold JsonParser.token_is. simpl. rewrite Hty. reflexivity.
  - exact Hin.
Qed.

Lemma advance_step st st' : JsonParser.advance st = Ret st' -> parse_step st st'.
Proof.
  intros H. apply advance_spec in H as ((T & _ & B & C) & Hend & Hin).
  unfold parse_step, JsonParser.m_tokenCapacity. rewrite T, B, C.
  split; [reflexivity|].
  destruct (Nat.lt_ge_cases (JsonParser.m_pos st) (JsonParser.m_end st)) as [Hlt|Hge].
  - specialize (Hin Hlt). lia.
  - destruct (Hend Hge) as [-> _]. lia.
Qed.

Lemma advance_remaining st st' :
  JsonParser.advance st = Ret st' ->
  remaining st' <= remaining st /\ (0 < remaining st -> remaining st' < remaining st).
Proof.
  intros H. apply advance_spec in H as ((T & _) & Hend & Hin).
  unfold remaining, JsonParser.m_end in *. rewrite T.
  destruct (Nat.lt_ge_cases (JsonParser.m_pos st) (List.length (JsonParser.m_text st)))
    as [Hlt|Hge].
  - specialize (Hin Hlt). lia.
  - destruct (Hend Hge) as [-> _]. lia.
Qed.

Lemma pushNode_step st b st' : JsonParser.pushNode st = Ret (b, st') -> parse_step st st'.
Proof.
  unfold JsonParser.pushNode. intros H.
  destruct (JsonParser.m_nodeCount st <? JsonParser.m_tokenCapacity st) eqn:E.
  - apply Nat.ltb_lt in E. bind_inv H. injection H as <- <-.
    unfold parse_step, JsonParser.m_tokenCapacity in *. simpl. rewrite length_insert.
    split; [reflexivity | lia].
  - bind_as H as s1 E1. injection H as <- <-. apply appendToErrorLog_inv in E1 as ->.
    unfold parse_step, JsonParser.m_tokenCapacity. simpl.
    split; [reflexivity | lia].
Qed.

Lemma logInvalidTokenPosition_inv st st' :
  JsonParser.logInvalidTokenPosition st = Ret st' ->
  exists log,
    st' = JsonParser.mk (JsonParser.m_text st) (JsonParser.m_pos st) (JsonParser.m_errorCode st)
            (JsonParser.m_nodeBuffer st) (JsonParser.m_nodeCount st)
            (JsonParser.m_currentToken st) (JsonParser.m_currentLine st) log.
Proof.
  unfold JsonParser.logInvalidTokenPosition. intros H.
  bind_as H as b E1. bind_as H as a E2. bind_as H as e1 E3. bind_as H as e2 E4.
  bind_as H as e3 E5. apply appendToErrorLog_inv in H. eauto.
Qed.

Lemma pushNode_inv st b st' :
  JsonParser.pushNode st = Ret (b, st') ->
  (b = true /\ JsonParser.m_nodeCount st < JsonParser.m_tokenCapacity st
   /\ exists node,
        JsonNode.of_token (JsonParser.m_currentToken st) = Ret node
        /\ st' = JsonParser.with_nodes (<[JsonParser.m_nodeCount st := node]> (JsonParser.m_nodeBuffer st))
                   (JsonParser.m_nodeCount st + 1) st)
  \/ (b = false /\ JsonParser.m_tokenCapacity st <= JsonParser.m_nodeCount st
      /\ st' = JsonParser.mk (JsonParser.m_text st) (JsonParser.m_pos st)
                 JsonErrorCode.CAPACITY_EXCEEDED
                 (JsonParser.m_nodeBuffer st) (JsonParser.m_nodeCount st)
                 (JsonParser.m_currentToken st) (JsonParser.m_currentLine st)
                 (JsonParser.m_errorLog st ++ JsonParser.capacity_message)).
Proof.
  unfold JsonParser.pushNode. intros H.
  destruct (JsonParser.m_nodeCount st <? JsonParser.m_tokenCapacity st) eqn:E.
  - apply Nat.ltb_lt in E. bind_as H as node E1. injection H as <- <-. left. eauto.
  - apply Nat.ltb_ge in E. bind_as H as s1 E1. injection H as <- <-.
    apply appendToErrorLog_inv in E1 as ->. right. auto.
Qed.

(** What [expect] does before its [pushNode] when the token is not the
    expected one. *)
Lemma expect_inv msg st r st' :
  JsonParser.expect false msg st = Ret (r, st') ->
  r = false
  /\ exists ec tok log b1,
       JsonParser.pushNode
         (JsonParser.mk (JsonParser.m_text st) (JsonParser.m_pos st) ec
            (JsonParser.m_nodeBuffer st) (JsonParser.m_nodeCount st) tok
            (JsonParser.m_currentLine st) log) = Ret (b1, st')
       /\ JsonToken.data tok = JsonToken.data (JsonParser.m_currentToken st)
       /\ JsonToken.length tok = JsonToken.length (JsonParser.m_currentToken st)
       /\ ((JsonToken.type (JsonParser.m_currentToken st) <> JsonTokenType.INVALID
            /\ JsonToken.type tok = JsonTokenType.SYNTACTIC_ERROR
            /\ ec = JsonErrorCode.SYNTACTIC_ERRORS)
           \/ (JsonToken.type (JsonParser.m_currentToken st) = JsonTokenType.INVALID
               /\ tok = JsonParser.m_currentToken st
               /\ ec = JsonErrorCode.INVALID_TOKENS)).
Proof.
  unfold JsonParser.expect. cbn [negb]. intros H.
  bind_as H as s1 E1. bind_as H as [b1 s2] E2. injection H as <- <-.
  split; [reflexivity|].
  unfold JsonTokenType.eqb in E1.
  destruct (bool_decide_reflect
              (JsonToken.type (JsonParser.m_currentToken st) = JsonTokenType.INVALID))
    as [Hty|Hty]; cbn [negb] in E1.
  - injection E1 as <-. eexists _, _, _, b1. split; [exact E2|].
    split; [reflexivity|]. split; [reflexivity|]. right. auto.
  - apply appendToErrorLog_inv in E1 as ->. simpl in E2.
    eexists _, _, _, b1. split; [exact E2|].
    split; [reflexivity|]. split; [reflexivity|]. left. auto.
Qed.

Lemma expect_step b msg st r st' : JsonParser.expect b msg st = Ret (r, st') -> parse_step st st'.
Proof.
  destruct b; intros H.
  - unfold JsonParser.expect in H. cbn [negb] in H. injection H as <- <-. apply parse_step_refl.
  - apply expect_inv in H as (_ & ec & tok & log & b1 & E & _).
    apply pushNode_step in E. exact E.
Qed.

Lemma update_node_step i f st st' : JsonParser.update_node i f st = Ret st' -> parse_step st st'.
Proof.
  unfold JsonParser.update_node. intros H.
  destruct (JsonParser.m_nodeBuffer st !! i); [|discriminate]. injection H as <-.
  unfold parse_step, JsonParser.m_tokenCapacity. simpl. rewrite length_insert.
  split; [reflexivity | lia].
Qed.

Lemma link_previous_step p l st st' :
  JsonParser.link_previous p l st = Ret st' -> parse_step st st'.
Proof.
  unfold JsonParser.link_previous. intros H. destruct p.
  - eapply update_node_step; eauto.
  - injection H as <-. apply parse_step_refl.
Qed.

Lemma with_currentToken_step tok st : parse_step st (JsonParser.with_currentToken tok st).
Proof. exact (parse_step_refl st). Qed.

Lemma parse_step_remaining st st' : parse_step st st' -> remaining st' <= remaining st.
Proof. unfold parse_step, remaining, JsonParser.m_end. intros (T & A). rewrite T. lia. Qed.

Create HintDb parse_step.
#[local] Hint Resolve advance_step pushNode_step expect_step update_node_step
  link_previous_step parse_step_refl : parse_step.

(** ** Builder: symbolic execution of the parse functions *)

(** Splits the first bind of [H : (m ≫= k) = Ret r]. *)
Ltac bind_step H :=
  match type of H with
  | (?m ≫= _) = Ret _ =>
      let E := fresh "E" in
      let x := fresh "x" in
      destruct m as [x|] eqn:E;
      [ cbn [mbind outcome_bind] in H;
        match type of x with
        | (_ * _)%type => destruct x
        | _ => idtac
        end
      | discriminate H ]
  end.

(** Runs [H] down to the return it ends with. *)
Ltac walk_step H :=
  first
    [ ret_inv H
    | bind_step H
    | match type of H with
      | (if ?c then _ else _) = Ret _ => destruct c eqn:?
      end ].

Ltac walk H :=
  repeat walk_step H;
  repeat match goal with
    | E : (if _ then _ else _) = Ret _ |- _ => walk_step E
    | E : Ret _ = Ret _ |- _ => ret_inv E
    | E : (_ ≫= _) = Ret _ |- _ => walk_step E
    end.

(** Turns the equations of the executed steps into [parse_step] facts. *)
Ltac note_steps :=
  repeat match goal with
    | E : JsonParser.advance _ = Ret _ |- _ => apply advance_step in E
    | E : JsonParser.pushNode _ = Ret _ |- _ => apply pushNode_step in E
    | E : JsonParser.expect _ _ _ = Ret _ |- _ => apply expect_step in E
    | E : JsonParser.update_node _ _ _ = Ret _ |- _ => apply update_node_step in E
    | E : JsonParser.link_previous _ _ _ = Ret _ |- _ => apply link_previous_step in E
    end.

Ltac chain_steps :=
  unfold parse_step, JsonParser.m_tokenCapacity in *; simpl in *;
  repeat match goal with H : _ /\ _ |- _ => destruct H end;
  split; [congruence | lia].

Lemma parse_steps fuel :
  (forall st b st', JsonParser.parseArray fuel st = Ret (b, st') -> parse_step st st')
  /\ (forall c p st b st',
        JsonParser.parseArray_loop fuel c p st = Ret (b, st') -> parse_step st st')
  /\ (forall st b st', JsonParser.parseObject fuel st = Ret (b, st') -> parse_step st st')
  /\ (forall c pk pv st b st',
        JsonParser.parseObject_loop fuel c pk pv st = Ret (b, st') -> parse_step st st').
Proof.
  induction fuel as [|fuel (IHa & IHal & IHo & IHol)].
  { repeat split; intros; discriminate. }
  split; [|split; [|split]].
  - intros st b st' H. cbn [JsonParser.parseArray] in H.
    bind_step H. apply advance_step in E.
    destruct (JsonParser.token_is JsonTokenType.JSON_ARRAY_END x).
    + ret_inv H. assumption.
    + apply IHal in H. eauto using parse_step_trans.
  - intros c p st b st' H. cbn [JsonParser.parseArray_loop] in H.
    walk H; note_steps;
      repeat match goal with
        | E : JsonParser.parseArray fuel _ = Ret _ |- _ => apply IHa in E
        | E : JsonParser.parseObject fuel _ = Ret _ |- _ => apply IHo in E
        | E : JsonParser.parseArray_loop fuel _ _ _ = Ret _ |- _ => apply IHal in E
        end;
      try apply parse_step_refl; chain_steps.
  - intros st b st' H. cbn [JsonParser.parseObject] in H.
    bind_step H. apply advance_step in E.
    destruct (JsonParser.token_is JsonTokenType.JSON_OBJECT_END x).
    + ret_inv H. assumption.
    + apply IHol in H. eauto using parse_step_trans.
  - intros c pk pv st b st' H. cbn [JsonParser.parseObject_loop] in H.
    walk H; note_steps;
      repeat match goal with
        | E : JsonParser.parseArray fuel _ = Ret _ |- _ => apply IHa in E
        | E : JsonParser.parseObject fuel _ = Ret _ |- _ => apply IHo in E
        | E : JsonParser.parseObject_loop fuel _ _ _ _ = Ret _ |- _ => apply IHol in E
        end;
      try apply parse_step_refl; chain_steps.
Qed.

(** ** Builder: the parse functions end before their fuel does *)

Lemma remaining_positive st :
  negb (JsonParser.m_pos st <? JsonParser.m_end st) = false -> 0 < remaining st.
Proof.
  intros H. apply negb_false_iff, Nat.ltb_lt in H. unfold remaining. lia.
Qed.

Lemma remaining_zero st :
  negb (JsonParser.m_pos st <? JsonParser.m_end st) = true -> remaining st = 0.
Proof.
  intros H. apply negb_true_iff, Nat.ltb_ge in H. unfold remaining. lia.
Qed.

(** Collects what the executed steps say about [remaining]. *)
Ltac note_remaining fuel :=
  repeat match goal with
    | E : (if ?c then _ else _) = Ret _ |- _ => destruct c eqn:?
    | E : Ret _ = Ret _ |- _ => ret_inv E
    | E : JsonParser.advance _ = Ret _ |- _ => apply advance_remaining in E
    | E : JsonParser.pushNode _ = Ret _ |- _ =>
        apply pushNode_step, parse_step_remaining in E
    | E : JsonParser.expect _ _ _ = Ret _ |- _ =>
        apply expect_step, parse_step_remaining in E
    | E : JsonParser.update_node _ _ _ = Ret _ |- _ =>
        apply update_node_step, parse_step_remaining in E
    | E : JsonParser.link_previous _ _ _ = Ret _ |- _ =>
        apply link_previous_step, parse_step_remaining in E
    | E : JsonParser.parseArray fuel _ = Ret _ |- _ =>
        apply (proj1 (parse_steps fuel)), parse_step_remaining in E
    | E : JsonParser.parseObject fuel _ = Ret _ |- _ =>
        apply (proj1 (proj2 (proj2 (parse_steps fuel)))), parse_step_remaining in E
    | E : negb (JsonParser.m_pos _ <? JsonParser.m_end _) = false |- _ =>
        apply remaining_positive in E
    | E : negb (JsonParser.m_pos _ <? JsonParser.m_end _) = true |- _ =>
        apply remaining_zero in E
    end;
  repeat match goal with
    | H : context [remaining (JsonParser.with_currentToken ?t ?s)] |- _ =>
        change (remaining (JsonParser.with_currentToken t s)) with (remaining s) in H
    | |- context [remaining (JsonParser.with_currentToken ?t ?s)] =>
        change (remaining (JsonParser.with_currentToken t s)) with (remaining s)
    end.

Ltac fuel_walk fuel IHa IHal IHo IHol :=
  repeat first
    [ apply fueled_ret
    | match goal with
      | |- fueled (JsonParser.parseArray fuel _) => apply IHa; note_remaining fuel; lia
      | |- fueled (JsonParser.parseObject fuel _) => apply IHo; note_remaining fuel; lia
      | |- fueled (JsonParser.parseArray_loop fuel _ _ _) =>
          apply IHal; note_remaining fuel; lia
      | |- fueled (JsonParser.parseObject_loop fuel _ _ _ _) =>
          apply IHol; note_remaining fuel; lia
      | |- fueled (if ?b then _ else _) => destruct b eqn:?
      | |- fueled (_ ≫= _) =>
          apply fueled_bind;
          [|let x := fresh "x" in intros x ?;
            match type of x with
            | (_ * _)%type => destruct x
            | _ => idtac
            end]
      end
    | solve [auto with fueled] ].

Lemma parse_fueled fuel :
  (forall st, 2 * remaining st + 2 <= fuel -> fueled (JsonParser.parseArray fuel st))
  /\ (forall c p st,
        (remaining st = 0 /\ 1 <= fuel) \/ 2 * remaining st + 3 <= fuel ->
        fueled (JsonParser.parseArray_loop fuel c p st))
  /\ (forall st, 2 * remaining st + 2 <= fuel -> fueled (JsonParser.parseObject fuel st))
  /\ (forall c pk pv st,
        (remaining st = 0 /\ 1 <= fuel) \/ 2 * remaining st + 3 <= fuel ->
        fueled (JsonParser.parseObject_loop fuel c pk pv st)).
Proof.
  induction fuel as [|fuel (IHa & IHal & IHo & IHol)].
  { repeat split; intros; lia. }
  split; [|split; [|split]].
  - intros st Hfuel. cbn [JsonParser.parseArray].
    fuel_walk fuel IHa IHal IHo IHol.
  - intros c p st Hfuel. cbn [JsonParser.parseArray_loop].
    fuel_walk fuel IHa IHal IHo IHol.
  - intros st Hfuel. cbn [JsonParser.parseObject].
    fuel_walk fuel IHa IHal IHo IHol.
  - intros c pk pv st Hfuel. cbn [JsonParser.parseObject_loop].
    fuel_walk fuel IHa IHal IHo IHol.
Qed.

Lemma Parse_loop_steps fuel st b st' :
  JsonParser.Parse_loop fuel st = Ret (b, st') -> parse_step st st'.
Proof.
  revert st. induction fuel as [|fuel IH]; intros st H; [discriminate|].
  cbn [JsonParser.Parse_loop] in H.
  walk H; note_steps;
    repeat match goal with
      | E : JsonParser.parseArray fuel _ = Ret _ |- _ => apply (proj1 (parse_steps fuel)) in E
      | E : JsonParser.parseObject fuel _ = Ret _ |- _ =>
          apply (proj1 (proj2 (proj2 (parse_steps fuel)))) in E
      | E : JsonParser.Parse_loop fuel _ = Ret _ |- _ => apply IH in E
      end;
    try apply parse_step_refl; chain_steps.
Qed.

Lemma Parse_loop_fueled fuel st :
  2 * remaining st + 1 <= fuel -> fueled (JsonParser.Parse_loop fuel st).
Proof.
  revert st. induction fuel as [|fuel IH]; intros st Hfuel; [lia|].
  destruct (parse_fueled fuel) as (IHa & _ & IHo & _).
  cbn [JsonParser.Parse_loop].
  repeat first
    [ apply fueled_ret
    | match goal with
      | |- fueled (JsonParser.parseArray fuel _) => apply IHa; note_remaining fuel; lia
      | |- fueled (JsonParser.parseObject fuel _) => apply IHo; note_remaining fuel; lia
      | |- fueled (JsonParser.Parse_loop fuel _) => apply IH; note_remaining fuel; lia
      | |- fueled (if ?b then _ else _) => destruct b eqn:?
      | |- fueled (_ ≫= _) =>
          apply fueled_bind;
          [|let x := fresh "x" in intros x ?;
            match type of x with
            | (_ * _)%type => destruct x
            | _ => idtac
            end]
      end
    | solve [auto with fueled] ].
Qed.

(** ** Builder: a full buffer stays as it is *)

Lemma nodes_kept_refl st : nodes_kept st st.
Proof. split; reflexivity. Qed.

Lemma nodes_kept_trans st1 st2 st3 : nodes_kept st1 st2 -> nodes_kept st2 st3 -> nodes_kept st1 st3.
Proof. unfold nodes_kept. intuition congruence. Qed.

Lemma nodes_kept_full st st' : nodes_kept st st' -> buffer_full st -> buffer_full st'.
Proof.
  unfold nodes_kept, buffer_full, JsonParser.m_tokenCapacity. intros [-> ->]. exact id.
Qed.

Lemma pushNode_full_inv st b st' :
  buffer_full st -> JsonParser.pushNode st = Ret (b, st') ->
  b = false /\ nodes_kept st st'
  /\ JsonParser.m_errorCode st' = JsonErrorCode.CAPACITY_EXCEEDED.
Proof.
  intros Hfull H. unfold buffer_full in Hfull.
  apply pushNode_inv in H as [(_ & Hlt & _)|(-> & _ & ->)]; [lia|].
  repeat split.
Qed.

Lemma expect_full_inv expected msg st r st' :
  buffer_full st -> JsonParser.expect expected msg st = Ret (r, st') ->
  r = expected /\ nodes_kept st st'
  /\ (expected = false -> JsonParser.m_errorCode st' = JsonErrorCode.CAPACITY_EXCEEDED)
  /\ (expected = true -> st' = st).
Proof.
  intros Hfull H. destruct expected.
  - unfold JsonParser.expect in H. cbn [negb] in H.
    injection H as <- <-. repeat split. discriminate.
  - apply expect_inv in H as (-> & ec & tok & log & b1 & E & _).
    apply pushNode_full_inv in E as (_ & K & C); [|exact Hfull].
    split; [reflexivity|]. split; [exact K|]. split; [auto | discriminate].
Qed.

Lemma advance_kept st st' :
  JsonParser.advance st = Ret st' ->
  nodes_kept st st' /\ JsonParser.m_errorCode st' = JsonParser.m_errorCode st.
Proof.
  intros H. apply advance_spec in H as ((_ & C & B & N) & _). repeat split; assumption.
Qed.

Lemma with_currentToken_full tok st :
  buffer_full st -> buffer_full (JsonParser.with_currentToken tok st).
Proof. exact id. Qed.

(** Runs the executed steps over a state whose buffer is full. *)
Ltac note_full :=
  repeat match goal with
    | F : buffer_full ?s, E : JsonParser.expect _ _ ?s = Ret _ |- _ =>
        let K := fresh "K" in
        destruct (expect_full_inv _ _ _ _ _ F E) as (? & K & ? & ?);
        pose proof (nodes_kept_full _ _ K F); clear E
    | F : buffer_full ?s, E : JsonParser.pushNode ?s = Ret _ |- _ =>
        let K := fresh "K" in
        destruct (pushNode_full_inv _ _ _ F E) as (? & K & ?);
        pose proof (nodes_kept_full _ _ K F); clear E
    | F : buffer_full ?s, E : JsonParser.pushNode (JsonParser.with_currentToken ?t ?s) = Ret _ |- _ =>
        let K := fresh "K" in
        destruct (pushNode_full_inv _ _ _ (with_currentToken_full t s F) E) as (? & K & ?);
        pose proof (nodes_kept_full _ _ K (with_currentToken_full t s F)); clear E
    | F : buffer_full ?s, E : JsonParser.advance ?s = Ret _ |- _ =>
        let K := fresh "K" in
        destruct (advance_kept _ _ E) as (K & ?);
        pose proof (nodes_kept_full _ _ K F); clear E
    end.

Ltac close_stuck :=
  subst; simpl in *; try discriminate;
  unfold stuck, nodes_kept in *; simpl in *;
  repeat match goal with
    | H : _ /\ _ |- _ => destruct H
    | H : negb _ = true |- _ => apply negb_true_iff in H
    | H : negb _ = false |- _ => apply negb_false_iff in H
    end;
  repeat match goal with
    | H : ?a = ?b, H' : ?a = ?b -> _ |- _ => specialize (H' H)
    | H : ?x = ?x -> _ |- _ => specialize (H eq_refl)
    end;
  subst; try discriminate; try congruence;
  intuition (try discriminate; congruence).

Lemma parse_stuck fuel :
  (forall st b st', buffer_full st -> JsonParser.parseArray fuel st = Ret (b, st') -> stuck st b st')
  /\ (forall c p st b st', buffer_full st ->
        JsonParser.parseArray_loop fuel c p st = Ret (b, st') -> stuck st b st')
  /\ (forall st b st', buffer_full st -> JsonParser.parseObject fuel st = Ret (b, st') -> stuck st b st')
  /\ (forall c pk pv st b st', buffer_full st ->
        JsonParser.parseObject_loop fuel c pk pv st = Ret (b, st') -> stuck st b st').
Proof.
  induction fuel as [|fuel (IHa & IHal & IHo & IHol)].
  { repeat split; intros; discriminate. }
  split; [|split; [|split]].
  - intros st b st' F H. cbn [JsonParser.parseArray] in H.
    bind_step H. note_full.
    destruct (JsonParser.token_is JsonTokenType.JSON_ARRAY_END x).
    + ret_inv H. close_stuck.
    + apply IHal in H; [|assumption]. close_stuck.
  - intros c p st b st' F H. cbn [JsonParser.parseArray_loop] in H.
    walk H; note_full; close_stuck.
  - intros st b st' F H. cbn [JsonParser.parseObject] in H.
    bind_step H. note_full.
    destruct (JsonParser.token_is JsonTokenType.JSON_OBJECT_END x).
    + ret_inv H. close_stuck.
    + apply IHol in H; [|assumption]. close_stuck.
  - intros c pk pv st b st' F H. cbn [JsonParser.parseObject_loop] in H.
    walk H; note_full; close_stuck.
Qed.

Lemma Parse_loop_stuck fuel st b st' :
  buffer_full st -> JsonParser.Parse_loop fuel st = Ret (b, st') ->
  nodes_kept st st'
  /\ (b = false -> JsonParser.m_errorCode st' = JsonErrorCode.CAPACITY_EXCEEDED).
Proof.
  revert st. induction fuel as [|fuel IH]; intros st F H; [discriminate|].
  destruct (parse_stuck fuel) as (IHa & _ & IHo & _).
  cbn [JsonParser.Parse_loop] in H.
  walk H; note_full;
    repeat match goal with
      | F : buffer_full ?s, E : JsonParser.parseArray fuel ?s = Ret _ |- _ =>
          let K := fresh "K" in
          pose proof (IHa _ _ _ F E) as (K & ? & ?);
          pose proof (nodes_kept_full _ _ K F); clear E
      | F : buffer_full ?s, E : JsonParser.parseObject fuel ?s = Ret _ |- _ =>
          let K := fresh "K" in
          pose proof (IHo _ _ _ F E) as (K & ? & ?);
          pose proof (nodes_kept_full _ _ K F); clear E
      | F : buffer_full ?s, E : JsonParser.Parse_loop fuel ?s = Ret _ |- _ =>
          let K := fresh "K" in
          pose proof (IH _ F E) as (K & ?);
          pose proof (nodes_kept_full _ _ K F); clear E
      end;
    clear IH IHa IHo; close_stuck.
Qed.

(** [Parse] into a buffer of no slots: whatever the text is, a parse that
    returns ends with [CAPACITY_EXCEEDED] and has stored no node - also when
    the first token is a scalar or malformed, for which [expect] has set
    another status before its own [pushNode] overwrites it.  The parse
    returns when the report of the failing token stays inside the text and
    the log has room for it. *)
Theorem Parse_without_capacity (st st' : JsonParser.t) :
  JsonParser.Parse (Some []) st = Ret st' ->
  JsonParser.GetErrorCode st' = JsonErrorCode.CAPACITY_EXCEEDED
  /\ JsonParser.GetCount st' = 0
  /\ JsonParser.m_nodeBuffer st' = [].
Proof.
  unfold JsonParser.Parse, JsonParser.GetErrorCode, JsonParser.GetCount.
  set (st0 := JsonParser.mk _ _ _ _ _ _ _ _).
  assert (F0 : buffer_full st0) by exact (le_n 0).
  change (JsonParser.IsValid st0) with false. cbv iota.
  intros H. bind_as H as st1 E1.
  apply skipWhitespace_spec in E1 as ((_ & _ & B1 & N1) & _).
  assert (K1 : nodes_kept st0 st1) by (split; assumption).
  pose proof (nodes_kept_full _ _ K1 F0) as F1.
  bind_as H as [b st2] E2.
  destruct (Parse_loop_stuck _ _ _ _ F1 E2) as (K2 & C2).
  pose proof (nodes_kept_full _ _ K2 F1) as F2.
  assert (K02 : nodes_kept st0 st2) by eauto using nodes_kept_trans.
  destruct b.
  - bind_as H as [b3 st4] E3. bind_as E3 as st3 E4.
    destruct (advance_kept _ _ E4) as (K3 & _).
    pose proof (nodes_kept_full _ _ K3 F2) as F3.
    destruct (pushNode_full_inv _ _ _ F3 E3) as (-> & K4 & C4).
    apply logInvalidTokenPosition_inv in H as (log & ->). simpl.
    destruct K02 as [? ?], K3 as [? ?], K4 as [? ?]. simpl in *.
    repeat split; congruence.
  - cbn [mbind outcome_bind] in H.
    apply logInvalidTokenPosition_inv in H as (log & ->). simpl.
    destruct K02 as [? ?]. simpl in *. repeat split; auto.
Qed.

Lemma Parse_without_capacity_witness :
  exists st',
    JsonParser.Parse (Some []) (JsonParser.SetUp (json_text "{'a':[1,2]}") []) = Ret st'
    /\ JsonParser.GetErrorCode st' = JsonErrorCode.CAPACITY_EXCEEDED
    /\ JsonParser.GetCount st' = 0
    /\ JsonParser.m_nodeBuffer st' = [].
Proof.
  eexists. split; [vm_compute; reflexivity|].
  apply (Parse_without_capacity (JsonParser.SetUp (json_text "{'a':[1,2]}") [])).
  vm_compute. reflexivity.
Defined.

(** ** Builder: what [Parse] guarantees whatever the text is *)

Lemma finishes_fueled {A} (m : outcome A) : fueled m -> finishes m = true.
Proof. unfold fueled. destruct m as [a|[]]; try reflexivity. congruence. Qed.

(** The loops of [Parse], [parseArray] and [parseObject] end on every text:
    each round that goes on has consumed a token, so the fuel [Parse] hands
    out, two units per remaining byte, is never used up.  The outcome is a
    return, or one of the faults of the C++ (an over-read behind an
    unterminated token). *)
Theorem Parse_terminates (new_buffer : option (list JsonNode.t)) (st : JsonParser.t) :
  finishes (JsonParser.Parse new_buffer st) = true.
Proof.
  apply finishes_fueled.
  unfold JsonParser.Parse.
  set (st0 := match new_buffer with Some _ => _ | None => st end).
  destruct (JsonParser.IsValid st0); [apply fueled_ret|].
  apply fueled_bind; [apply fueled_skipWhitespace|]. intros st1 _.
  apply fueled_bind.
  { apply Parse_loop_fueled. unfold JsonParser.Parse_fuel, remaining. lia. }
  intros [b st2] _. apply fueled_bind.
  - destruct b; [|apply fueled_ret].
    apply fueled_bind; [apply fueled_advance|]. intros st3 _. apply fueled_pushNode.
  - intros [b' st3] _. destruct b'; [apply fueled_ret | apply fueled_logInvalidTokenPosition].
Qed.

Lemma skipWhitespace_step st st' : JsonParser.skipWhitespace st = Ret st' -> parse_step st st'.
Proof.
  intros H. apply skipWhitespace_spec in H as ((T & _ & B & N) & _ & P).
  unfold parse_step, JsonParser.m_tokenCapacity. rewrite T, B, N. repeat split; lia.
Qed.

(** [Parse] never writes outside the buffer it is given: the text and the
    buffer's length stay, and the node count ends within the capacity. *)
Theorem Parse_within_capacity (buffer : list JsonNode.t) (st st' : JsonParser.t) :
  JsonParser.Parse (Some buffer) st = Ret st' ->
  JsonParser.m_text st' = JsonParser.m_text st
  /\ JsonParser.GetCapacity st' = List.length buffer
  /\ JsonParser.GetCount st' <= List.length buffer.
Proof.
  unfold JsonParser.Parse, JsonParser.GetCapacity, JsonParser.GetCount.
  set (st0 := JsonParser.mk _ _ _ _ _ _ _ _).
  change (JsonParser.IsValid st0) with false. cbv iota.
  intros H. bind_as H as st1 E1. apply skipWhitespace_step in E1.
  bind_as H as [b st2] E2. apply Parse_loop_steps in E2.
  assert (S02 : parse_step st0 st2) by eauto using parse_step_trans.
  assert (S03 : exists st3 ec log, parse_step st0 st3
            /\ st' = JsonParser.mk (JsonParser.m_text st3) (JsonParser.m_pos st3) ec
                       (JsonParser.m_nodeBuffer st3) (JsonParser.m_nodeCount st3)
                       (JsonParser.m_currentToken st3) (JsonParser.m_currentLine st3) log).
  { destruct b.
    - bind_as H as [b3 st4] E3. bind_as E3 as st3 E4.
      apply advance_step in E4. apply pushNode_step in E3.
      assert (S04 : parse_step st0 st4) by eauto using parse_step_trans.
      destruct b3.
      + injection H as <-. exists st4. eexists _, _. split; [exact S04 | reflexivity].
      + apply logInvalidTokenPosition_inv in H as (log & ->).
        exists st4. eexists _, _. split; [exact S04 | reflexivity].
    - cbn [mbind outcome_bind] in H.
      apply logInvalidTokenPosition_inv in H as (log & ->).
      exists st2. eexists _, _. split; [exact S02 | reflexivity]. }
  destruct S03 as (st3 & ec & log & (T & _ & C & _ & N) & ->).
  unfold JsonParser.m_tokenCapacity in *. simpl in *.
  specialize (N (Nat.le_0_l _)).
  repeat split; auto; lia.
Qed.

Lemma Parse_within_capacity_witness :
  exists st',
    JsonParser.Parse (Some (replicate 3 (JsonNode.mk (string_view.mk 0 0) 0 JsonNodeType.INVALID None)))
      (JsonParser.SetUp (json_text "[1,[2,3],4]") []) = Ret st'
    /\ JsonParser.GetCapacity st' = 3
    /\ JsonParser.GetCount st' <= 3.
Proof.
  eexists. split; [vm_compute; reflexivity|].
  apply (Parse_within_capacity
           (replicate 3 (JsonNode.mk (string_view.mk 0 0) 0 JsonNodeType.INVALID None))
           (JsonParser.SetUp (json_text "[1,[2,3],4]") [])).
  vm_compute. reflexivity.
Defined.

Lemma Parse_loop_done fuel st st' :
  JsonParser.Parse_loop fuel st = Ret (true, st') -> JsonParser.m_end st' <= JsonParser.m_pos st'.
Proof.
  revert st. induction fuel as [|fuel IH]; intros st H; [discriminate|].
  cbn [JsonParser.Parse_loop] in H.
  destruct (negb (JsonParser.m_pos st <? JsonParser.m_end st)) eqn:C.
  - injection H as <-. apply negb_true_iff, Nat.ltb_ge in C. exact C.
  - walk H; try discriminate; eauto.
Qed.

Lemma expect_false b msg st st' :
  JsonParser.expect b msg st = Ret (false, st') -> failed st'.
Proof.
  unfold failed. destruct b; [unfold JsonParser.expect; discriminate|]. intros H.
  apply expect_inv in H as (_ & ec & tok & log & b1 & E & _ & _ & Hec).
  apply pushNode_inv in E as [(_ & _ & node & _ & ->)|(_ & _ & ->)]; simpl; [|auto].
  destruct Hec as [(_ & _ & ->)|(_ & _ & ->)]; auto.
Qed.

Lemma pushNode_true st st' :
  JsonParser.pushNode st = Ret (true, st') ->
  exists node,
    JsonNode.of_token (JsonParser.m_currentToken st) = Ret node
    /\ JsonParser.m_nodeCount st < JsonParser.m_tokenCapacity st
    /\ st' = JsonParser.with_nodes (<[JsonParser.m_nodeCount st := node]> (JsonParser.m_nodeBuffer st))
               (JsonParser.m_nodeCount st + 1) st.
Proof.
  intros H. apply pushNode_inv in H as [(_ & C & node & E & ->)|(? & _)]; [eauto | discriminate].
Qed.

Lemma pushNode_false st st' :
  JsonParser.pushNode st = Ret (false, st') ->
  JsonParser.m_errorCode st' = JsonErrorCode.CAPACITY_EXCEEDED /\ nodes_kept st st'
  /\ buffer_full st.
Proof.
  unfold buffer_full. intros H.
  apply pushNode_inv in H as [(? & _)|(_ & C & ->)]; [discriminate|].
  repeat split. exact C.
Qed.

Lemma pushNode_failed st st' : JsonParser.pushNode st = Ret (false, st') -> failed st'.
Proof. intros H. apply pushNode_false in H as (C & _). right. right. exact C. Qed.

(** A parse function that gives up has set an error status. *)
Lemma parse_false_status fuel :
  (forall st st', JsonParser.parseArray fuel st = Ret (false, st') -> failed st')
  /\ (forall c p st st', JsonParser.parseArray_loop fuel c p st = Ret (false, st') -> failed st')
  /\ (forall st st', JsonParser.parseObject fuel st = Ret (false, st') -> failed st')
  /\ (forall c pk pv st st',
        JsonParser.parseObject_loop fuel c pk pv st = Ret (false, st') -> failed st').
Proof.
  induction fuel as [|fuel (IHa & IHal & IHo & IHol)].
  { repeat split; intros; discriminate. }
  split; [|split; [|split]].
  - intros st st' H. cbn [JsonParser.parseArray] in H.
    bind_step H. destruct (JsonParser.token_is _ _); [discriminate|eauto].
  - intros c p st st' H. cbn [JsonParser.parseArray_loop] in H.
    walk H; try discriminate;
      repeat match goal with
        | H : negb ?b = true |- _ => apply negb_true_iff in H; subst b
        end;
      eauto using expect_false, pushNode_failed.
  - intros st st' H. cbn [JsonParser.parseObject] in H.
    bind_step H. destruct (JsonParser.token_is _ _); [discriminate|eauto].
  - intros c pk pv st st' H. cbn [JsonParser.parseObject_loop] in H.
    walk H; try discriminate;
      repeat match goal with
        | H : negb ?b = true |- _ => apply negb_true_iff in H; subst b
        end;
      eauto using expect_false, pushNode_failed.
Qed.

Lemma Parse_loop_false_status fuel st st' :
  JsonParser.Parse_loop fuel st = Ret (false, st') -> failed st'.
Proof.
  revert st. induction fuel as [|fuel IH]; intros st H; [discriminate|].
  destruct (parse_false_status fuel) as (IHa & _ & IHo & _).
  cbn [JsonParser.Parse_loop] in H.
  walk H; try discriminate;
    repeat match goal with
      | H : negb ?b = true |- _ => apply negb_true_iff in H; subst b
      end;
    try match goal with H : negb false = false |- _ => discriminate H end;
    eauto using expect_false.
Qed.

Lemma advance_at_end st st' :
  JsonParser.m_end st <= JsonParser.m_pos st -> JsonParser.advance st = Ret st' ->
  st' = JsonParser.with_currentToken
          (JsonToken.mk (JsonParser.m_pos st) 0 JsonTokenType.JSON_EOF) st.
Proof.
  intros Hend H. unfold JsonParser.advance, JsonParser.getNextToken in H.
  apply Nat.leb_le in Hend. rewrite Hend in H. cbn [mbind outcome_bind] in H.
  injection H as <-. reflexivity.
Qed.

(** A parse into a fresh buffer that returns has decided: the status is
    [VALID_JSON] or one of the three error statuses, never [NOT_DONE]. *)
Theorem Parse_sets_status (buffer : list JsonNode.t) (st st' : JsonParser.t) :
  JsonParser.Parse (Some buffer) st = Ret st' ->
  JsonParser.GetErrorCode st' = JsonErrorCode.VALID_JSON
  \/ JsonParser.GetErrorCode st' = JsonErrorCode.SYNTACTIC_ERRORS
  \/ JsonParser.GetErrorCode st' = JsonErrorCode.INVALID_TOKENS
  \/ JsonParser.GetErrorCode st' = JsonErrorCode.CAPACITY_EXCEEDED.
Proof.
  unfold JsonParser.Parse, JsonParser.GetErrorCode.
  set (st0 := JsonParser.mk _ _ _ _ _ _ _ _).
  change (JsonParser.IsValid st0) with false. cbv iota.
  intros H. bind_as H as st1 E1. bind_as H as [b st2] E2.
  destruct b.
  - bind_as H as [b3 st4] E3. bind_as E3 as st3 E4.
    destruct b3; [injection H as <-; left; reflexivity|].
    apply logInvalidTokenPosition_inv in H as (log & ->).
    apply pushNode_false in E3 as (C & _). right. right. right. exact C.
  - cbn [mbind outcome_bind] in H.
    apply logInvalidTokenPosition_inv in H as (log & ->).
    right. exact (Parse_loop_false_status _ _ _ E2).
Qed.

Lemma Parse_sets_status_witness :
  exists st',
    JsonParser.Parse (Some (replicate 4 (JsonNode.mk (string_view.mk 0 0) 0 JsonNodeType.INVALID None)))
      (JsonParser.SetUp (json_text "[1 2]") []) = Ret st'
    /\ (JsonParser.GetErrorCode st' = JsonErrorCode.VALID_JSON
        \/ JsonParser.GetErrorCode st' = JsonErrorCode.SYNTACTIC_ERRORS
        \/ JsonParser.GetErrorCode st' = JsonErrorCode.INVALID_TOKENS
        \/ JsonParser.GetErrorCode st' = JsonErrorCode.CAPACITY_EXCEEDED).
Proof.
  eexists. split; [vm_compute; reflexivity|].
  apply (Parse_sets_status
           (replicate 4 (JsonNode.mk (string_view.mk 0 0) 0 JsonNodeType.INVALID None))
           (JsonParser.SetUp (json_text "[1 2]") [])).
  vm_compute. reflexivity.
Defined.

(** ** Layout: runs of nodes *)

Lemma laid_range buf p i j :
  laid buf p i j ->
  match p with
  | Value => i < j
  | Items c last | Members c last =>
      i <= j /\ (c = 0 -> last = None /\ i = j)
      /\ (forall l, last = Some l -> i <= l < j /\ 0 < c)
      /\ (0 < c -> i < j /\ is_Some last)
  end.
Proof.
  induction 1; simpl in *;
    repeat match goal with H : _ /\ _ |- _ => destruct H end;
    try lia;
    repeat split; intros; try lia; try discriminate; eauto;
    repeat match goal with
      | H : Some _ = Some _ |- _ => injection H as H; subst
      | H : forall l, ?x = Some l -> _, E : ?x = Some _ |- _ => specialize (H _ E)
      | H : forall l, Some ?a = Some l -> _ |- _ => specialize (H _ eq_refl)
      | H : 0 < S _ -> _ |- _ => specialize (H (Nat.lt_0_succ _))
      | H : _ /\ _ |- _ => destruct H
      end;
    try lia; eauto.
Qed.

Lemma laid_value_range buf i j : laid buf Value i j -> i < j.
Proof. exact (laid_range buf Value i j). Qed.

(** A run depends on its own nodes only. *)
Lemma laid_ext buf buf' p i j :
  laid buf p i j -> (forall x, i <= x < j -> buf' !! x = buf !! x) -> laid buf' p i j.
Proof.
  induction 1 as
    [ i n Hn Hs
    | i j n last Hn Ha Hc IH
    | i j n last Hn Ho Hc IH
    | i
    | i j n Hv IHv Hn Hnx
    | c i j k n last Hv IHv Hn Hnx Ht IHt
    | i
    | i j key v Hk Hik Hnk Hv IHv Hvn Hnv
    | c i j k key v last Hk Hik Hnk Hv IHv Hvn Hnv Ht IHt ]; intros E.
  - apply (laid_scalar _ i n); [rewrite E by lia|]; assumption.
  - pose proof (laid_range _ _ _ _ Hc) as (? & _).
    apply (laid_array _ i j n last); [rewrite E by lia; assumption|assumption|].
    apply IH. intros x Hx. apply E. lia.
  - pose proof (laid_range _ _ _ _ Hc) as (? & _).
    apply (laid_object _ i j n last); [rewrite E by lia; assumption|assumption|].
    apply IH. intros x Hx. apply E. lia.
  - constructor.
  - pose proof (laid_value_range _ _ _ Hv).
    apply (items_one _ i j n); [apply IHv; assumption| rewrite E by lia; assumption | assumption].
  - pose proof (laid_value_range _ _ _ Hv).
    pose proof (laid_range _ _ _ _ Ht) as (? & _).
    apply (items_cons _ c i j k n last); [apply IHv; intros; apply E; lia
      | rewrite E by lia; assumption | assumption | apply IHt; intros; apply E; lia].
  - constructor.
  - pose proof (laid_value_range _ _ _ Hv).
    apply (members_one _ i j key v); try assumption;
      [rewrite E by lia; assumption | apply IHv; intros; apply E; lia | rewrite E by lia; assumption].
  - pose proof (laid_value_range _ _ _ Hv).
    pose proof (laid_range _ _ _ _ Ht) as (? & _).
    apply (members_cons _ c i j k key v last); try assumption;
      [rewrite E by lia; assumption | apply IHv; intros; apply E; lia
      | rewrite E by lia; assumption | apply IHt; intros; apply E; lia].
Qed.

(** The node of a value may change in what a value's run does not
    constrain: its view and its [next]. *)
Lemma laid_root buf buf' i j n n' :
  laid buf Value i j -> buf !! i = Some n -> buf' !! i = Some n' ->
  JsonNode.type n' = JsonNode.type n -> JsonNode.count n' = JsonNode.count n ->
  (forall x, i < x < j -> buf' !! x = buf !! x) ->
  laid buf' Value i j.
Proof.
  intros H Hn Hn' Ht Hc E. inversion H as
    [ i0 n0 Hn0 Hs | i0 j0 n0 last Hn0 Ha Hi | i0 j0 n0 last Hn0 Ho Hm | | | | | | ]; subst;
    rewrite Hn in Hn0; injection Hn0 as <-.
  - apply (laid_scalar _ i n'); [assumption|]. unfold IsScalar in *. rewrite Ht. exact Hs.
  - apply (laid_array _ i j n' last); [assumption | |].
    + unfold JsonNode.IsArray in *. rewrite Ht. exact Ha.
    + rewrite Hc. apply (laid_ext buf); [assumption|]. intros; apply E; lia.
  - apply (laid_object _ i j n' last); [assumption | |].
    + unfold JsonNode.IsObject in *. rewrite Ht. exact Ho.
    + rewrite Hc. apply (laid_ext buf); [assumption|]. intros; apply E; lia.
Qed.

(** One more item behind the items of an array: the item that was the
    last is linked to the new one. *)
Lemma items_snoc buf buf' c prev i j k v :
  laid buf (Items c prev) i j ->
  (forall x, i <= x < j -> Some x <> prev -> buf' !! x = buf !! x) ->
  (forall p np, prev = Some p -> buf !! p = Some np ->
     exists np', buf' !! p = Some np' /\ JsonNode.type np' = JsonNode.type np
       /\ JsonNode.count np' = JsonNode.count np /\ JsonNode.next np' = Some j) ->
  laid buf' Value j k -> buf' !! j = Some v -> JsonNode.next v = None ->
  laid buf' (Items (S c) (Some j)) i k.
Proof.
  intros H. remember (Items c prev) as m eqn:Hm. revert c prev Hm.
  induction H as
    [ | | | i
    | i j n Hv _ Hn Hnx
    | c0 i j0 j n last Hv _ Hn Hnx Ht IHt
    | | | ]; intros c' prev' Hm E L Hnew Hv' Hnv; try discriminate Hm.
  - injection Hm as <- <-. apply (items_one _ i k v); assumption.
  - injection Hm as <- <-.
    destruct (L i n eq_refl Hn) as (np' & Hp & Hty & Hct & Hnp).
    apply (items_cons _ 0 i j k np' (Some j)); [|assumption|assumption|].
    + apply (laid_root buf buf' i j n np'); try assumption.
      intros x Hx. apply E; [lia|]. intros [= ->]. lia.
    + apply (items_one _ j k v); assumption.
  - injection Hm as <- <-.
    pose proof (laid_value_range _ _ _ Hv) as Hij.
    pose proof (laid_range _ _ _ _ Ht) as (Hjk & _ & Hlast & _).
    assert (Hout : forall x, i <= x < j0 -> Some x <> last).
    { intros x Hx Heq. symmetry in Heq. specialize (Hlast x Heq). lia. }
    apply (items_cons _ (S c0) i j0 k n (Some j)).
    + apply (laid_ext buf); [assumption|]. intros x Hx. apply E; [lia|]. apply Hout; lia.
    + rewrite E; [assumption|lia|]. apply Hout; lia.
    + assumption.
    + apply (IHt (S c0) last eq_refl); try assumption.
      intros x Hx. apply E. lia.
Qed.

(** One more member behind the members of an object: the key and the value
    that were the last are linked to the new ones. *)
Lemma members_snoc buf buf' c prev i j k key v :
  laid buf (Members c prev) i j ->
  (forall x, i <= x < j -> Some x <> prev -> Some x <> S <$> prev -> buf' !! x = buf !! x) ->
  (forall p np, prev = Some p -> buf !! p = Some np ->
     exists np', buf' !! p = Some np' /\ JsonNode.type np' = JsonNode.type np
       /\ JsonNode.next np' = Some j) ->
  (forall p nv, prev = Some p -> buf !! S p = Some nv ->
     exists nv', buf' !! S p = Some nv' /\ JsonNode.type nv' = JsonNode.type nv
       /\ JsonNode.count nv' = JsonNode.count nv /\ JsonNode.next nv' = Some (S j)) ->
  buf' !! j = Some key -> JsonNode.IsKey key = true -> JsonNode.next key = None ->
  laid buf' Value (S j) k -> buf' !! S j = Some v -> JsonNode.next v = None ->
  laid buf' (Members (S c) (Some j)) i k.
Proof.
  intros H. remember (Members c prev) as m eqn:Hm. revert c prev Hm.
  induction H as
    [ | | | | |
    | i
    | i j key0 v0 Hk Hik Hnk Hv _ Hvn Hnv
    | c0 i j0 j key0 v0 last Hk Hik Hnk Hv _ Hvn Hnv Ht IHt ];
    intros c' prev' Hm E LK LV Hkey Hiskey Hnkey Hval Hv' Hnv'; try discriminate Hm.
  - injection Hm as <- <-. apply (members_one _ i k key v); assumption.
  - injection Hm as <- <-.
    destruct (LK i key0 eq_refl Hk) as (k' & Hk' & Hkty & Hknx).
    destruct (LV i v0 eq_refl Hvn) as (v1 & Hv1 & Hvty & Hvct & Hvnx).
    pose proof (laid_value_range _ _ _ Hv) as Hij.
    apply (members_cons _ 0 i j k k' v1 (Some j)); try assumption.
    + unfold JsonNode.IsKey in *. rewrite Hkty. exact Hik.
    + apply (laid_root buf buf' (S i) j v0 v1); try assumption.
      intros x Hx. apply E; [lia| |]; intros [= ->]; lia.
    + apply (members_one _ j k key v); assumption.
  - injection Hm as <- <-.
    pose proof (laid_value_range _ _ _ Hv) as Hij.
    pose proof (laid_range _ _ _ _ Ht) as (Hjk & _ & Hlast & _).
    assert (Hout : forall x, i <= x < j0 -> Some x <> last /\ Some x <> S <$> last).
    { intros x Hx. destruct last as [l|]; [|split; discriminate].
      specialize (Hlast l eq_refl). split; intros [= ->]; lia. }
    apply (members_cons _ (S c0) i j0 k key0 v0 (Some j)); try assumption.
    + rewrite E; [assumption|lia| |]; apply Hout; lia.
    + apply (laid_ext buf); [assumption|]. intros x Hx. apply E; [lia| |]; apply Hout; lia.
    + rewrite E; [assumption|lia| |]; apply Hout; lia.
    + apply (IHt (S c0) last eq_refl); try assumption.
      intros x Hx. apply E. lia.
Qed.

(** ** Builder: the nodes of a parse are laid out as runs *)

Lemma expect_true b msg st st' :
  JsonParser.expect b msg st = Ret (true, st') -> b = true /\ st' = st.
Proof.
  destruct b; intros H.
  - unfold JsonParser.expect in H. cbn [negb] in H. injection H as <-. auto.
  - apply expect_inv in H as (? & _). discriminate.
Qed.

Lemma update_node_inv i f st st' :
  JsonParser.update_node i f st = Ret st' ->
  exists n, JsonParser.m_nodeBuffer st !! i = Some n
    /\ st' = JsonParser.with_nodes (<[i := f n]> (JsonParser.m_nodeBuffer st))
               (JsonParser.m_nodeCount st) st.
Proof.
  unfold JsonParser.update_node. destruct (_ !! i) as [n|]; [|discriminate].
  intros [= <-]. eauto.
Qed.

Lemma link_previous_inv prev l st st' :
  JsonParser.link_previous prev l st = Ret st' ->
  match prev with
  | Some p =>
      exists n, JsonParser.m_nodeBuffer st !! p = Some n
        /\ st' = JsonParser.with_nodes
                   (<[p := JsonNode.set_next (Some l) n]> (JsonParser.m_nodeBuffer st))
                   (JsonParser.m_nodeCount st) st
  | None => st' = st
  end.
Proof.
  unfold JsonParser.link_previous. destruct prev as [p|].
  - apply update_node_inv.
  - intros [= <-]. reflexivity.
Qed.

(** The node made of a token that starts a value. *)
Lemma of_token_value tok node :
  JsonNode.of_token tok = Ret node ->
  JsonParser.isPrimitiveValueToken tok
  || JsonTokenType.eqb (JsonToken.type tok) JsonTokenType.JSON_ARRAY_BEGIN
  || JsonTokenType.eqb (JsonToken.type tok) JsonTokenType.JSON_OBJECT_BEGIN = true ->
  JsonNode.next node = None /\ JsonNode.count node = 0
  /\ JsonNode.as_sv node = string_view.mk (JsonToken.data tok) (JsonToken.length tok)
  /\ (if JsonTokenType.eqb (JsonToken.type tok) JsonTokenType.JSON_ARRAY_BEGIN
      then JsonNode.IsArray node = true
      else if JsonTokenType.eqb (JsonToken.type tok) JsonTokenType.JSON_OBJECT_BEGIN
           then JsonNode.IsObject node = true
           else IsScalar node = true).
Proof.
  unfold JsonNode.of_token, JsonParser.isPrimitiveValueToken.
  destruct (JsonToken.type tok); intros [= <-] H; try discriminate H; repeat split.
Qed.

Lemma frame_refl cn buf n : buf !! cn = Some n -> frame cn buf buf.
Proof.
  intros H. split; [reflexivity|]. split; [reflexivity|].
  exists n, n. repeat split; assumption.
Qed.

Lemma frame_trans cn b1 b2 b3 : frame cn b1 b2 -> frame cn b2 b3 -> frame cn b1 b3.
Proof.
  intros (L1 & E1 & n1 & n1' & H1 & H1' & S1a & S1b & S1c)
         (L2 & E2 & n2 & n2' & H2 & H2' & S2a & S2b & S2c).
  rewrite H1' in H2. injection H2 as <-.
  split; [congruence|]. split; [intros x Hx; rewrite E2, E1 by assumption; reflexivity|].
  exists n1, n2'. repeat split; congruence.
Qed.

Lemma frame_below cn k b b' n :
  frame k b b' -> cn < k -> b !! cn = Some n -> frame cn b b'.
Proof.
  intros (L & E & _) Hlt Hn. split; [exact L|]. split; [intros x Hx; apply E; lia|].
  exists n, n. rewrite E by assumption. repeat split; assumption.
Qed.

Lemma array_open_kept cn prev st st' :
  nodes_kept st st' -> array_open cn prev st -> array_open cn prev st'.
Proof.
  unfold nodes_kept, array_open, JsonParser.m_tokenCapacity. intros [-> ->]. exact id.
Qed.

Lemma object_open_kept cn pk pv st st' :
  nodes_kept st st' -> object_open cn pk pv st -> object_open cn pk pv st'.
Proof.
  unfold nodes_kept, object_open, JsonParser.m_tokenCapacity. intros [-> ->]. exact id.
Qed.

Lemma frame_kept cn st st' st'' :
  nodes_kept st' st'' ->
  frame cn (JsonParser.m_nodeBuffer st) (JsonParser.m_nodeBuffer st') ->
  frame cn (JsonParser.m_nodeBuffer st) (JsonParser.m_nodeBuffer st'').
Proof. intros [-> _]. exact id. Qed.

(** The body of the loop of [parseArray] up to the nested call: the token's
    node is stored behind the items, counted and linked.  Once the nested
    call has laid out the value, the loop stands at its condition again. *)
Lemma array_body cn prev st0 st1 st2 st3 :
  array_open cn prev st0 ->
  JsonParser.isPrimitiveValueToken (JsonParser.m_currentToken st0)
  || JsonParser.token_is JsonTokenType.JSON_ARRAY_BEGIN st0
  || JsonParser.token_is JsonTokenType.JSON_OBJECT_BEGIN st0 = true ->
  JsonParser.pushNode st0 = Ret (true, st1) ->
  JsonParser.update_node cn (fun n => JsonNode.set_count (JsonNode.count n + 1) n) st1 = Ret st2 ->
  JsonParser.link_previous prev (JsonParser.getLastNode st2) st2 = Ret st3 ->
  JsonParser.getLastNode st2 = JsonParser.m_nodeCount st0
  /\ JsonParser.m_nodeCount st3 = S (JsonParser.m_nodeCount st0)
  /\ JsonParser.m_nodeCount st3 <= JsonParser.m_tokenCapacity st3
  /\ frame cn (JsonParser.m_nodeBuffer st0) (JsonParser.m_nodeBuffer st3)
  /\ (exists v,
        JsonParser.m_nodeBuffer st3 !! JsonParser.m_nodeCount st0 = Some v
        /\ JsonNode.next v = None /\ JsonNode.count v = 0
        /\ (if JsonParser.token_is JsonTokenType.JSON_ARRAY_BEGIN st0
            then JsonNode.IsArray v = true
            else if JsonParser.token_is JsonTokenType.JSON_OBJECT_BEGIN st0
                 then JsonNode.IsObject v = true
                 else IsScalar v = true))
  /\ (forall st4,
        frame (JsonParser.m_nodeCount st0) (JsonParser.m_nodeBuffer st3) (JsonParser.m_nodeBuffer st4) ->
        laid (JsonParser.m_nodeBuffer st4) Value (JsonParser.m_nodeCount st0)
          (JsonParser.m_nodeCount st4) ->
        JsonParser.m_nodeCount st4 <= JsonParser.m_tokenCapacity st4 ->
        array_open cn (Some (JsonParser.m_nodeCount st0)) st4).
Proof.
  intros (n & Hn & Harr & (Hcn & Hcap) & Hitems) Htok Hpush Hupd Hlink.
  apply pushNode_true in Hpush as (v & Hv & Hlt & ->).
  apply update_node_inv in Hupd as (n1 & Hn1 & Hst2).
  cbn [JsonParser.m_nodeBuffer JsonParser.m_nodeCount JsonParser.with_nodes] in Hn1, Hst2.
  unfold JsonParser.m_tokenCapacity in *.
  set (buf := JsonParser.m_nodeBuffer st0) in *.
  set (k := JsonParser.m_nodeCount st0) in *.
  rewrite list_lookup_insert_ne in Hn1 by lia.
  rewrite Hn in Hn1. injection Hn1 as <-.
  destruct (of_token_value _ _ Hv Htok) as (Hvn & Hvc & _ & Hkind).
  assert (Hlast : JsonParser.getLastNode st2 = k).
  { rewrite Hst2. unfold JsonParser.getLastNode. simpl. lia. }
  rewrite Hlast in Hlink. split; [exact Hlast|].
  subst st2.
  pose proof (laid_range _ _ _ _ Hitems) as (_ & _ & Hprev & _).
  set (buf2 := <[cn := JsonNode.set_count (JsonNode.count n + 1) n]> (<[k := v]> buf)) in *.
  assert (L2 : List.length buf2 = List.length buf).
  { unfold buf2. rewrite !length_insert. reflexivity. }
  assert (Hbuf3 : exists buf3,
    JsonParser.m_nodeBuffer st3 = buf3 /\ JsonParser.m_nodeCount st3 = k + 1
    /\ List.length buf3 = List.length buf
    /\ buf3 !! cn = Some (JsonNode.set_count (JsonNode.count n + 1) n)
    /\ buf3 !! k = Some v
    /\ (forall x, x <> cn -> x <> k -> Some x <> prev -> buf3 !! x = buf !! x)
    /\ (forall p np, prev = Some p -> buf !! p = Some np ->
          buf3 !! p = Some (JsonNode.set_next (Some k) np))).
  { apply link_previous_inv in Hlink. destruct prev as [p|].
    - destruct Hlink as (np & Hnp & ->). simpl in Hnp |- *.
      destruct (Hprev p eq_refl) as (Hp & _).
      eexists. split; [reflexivity|]. split; [reflexivity|].
      split; [rewrite length_insert; exact L2|].
      split; [rewrite list_lookup_insert_ne by lia; apply list_lookup_insert_eq;
              rewrite length_insert; lia|].
      split; [rewrite list_lookup_insert_ne by lia; unfold buf2;
              rewrite list_lookup_insert_ne by lia; apply list_lookup_insert_eq; lia|].
      split.
      + intros x Hx1 Hx2 Hx3. rewrite list_lookup_insert_ne by congruence.
        unfold buf2. rewrite !list_lookup_insert_ne by congruence. reflexivity.
      + intros p' np' [= <-] Hnp'. unfold buf2 in Hnp.
        rewrite !list_lookup_insert_ne in Hnp by lia. rewrite Hnp' in Hnp.
        injection Hnp as <-. apply list_lookup_insert_eq. rewrite L2.
        apply lookup_lt_Some in Hnp'. exact Hnp'.
    - subst st3. simpl. eexists. split; [reflexivity|]. split; [reflexivity|].
      split; [exact L2|].
      split; [apply list_lookup_insert_eq; rewrite length_insert; lia|].
      split; [unfold buf2; rewrite list_lookup_insert_ne by lia; apply list_lookup_insert_eq; lia|].
      split.
      + intros x Hx1 Hx2 _. unfold buf2. rewrite !list_lookup_insert_ne by congruence. reflexivity.
      + intros p np [=]. }
  destruct Hbuf3 as (buf3 & -> & -> & L3 & H3cn & H3k & H3other & H3prev).
  assert (Hprev_range : forall x, Some x = prev -> S cn <= x < k).
  { intros x <-. apply (Hprev x eq_refl). }
  assert (F03 : frame cn buf buf3).
  { split; [exact L3|]. split.
    - intros x Hx. apply H3other; [lia|lia|]. intros Hp. apply Hprev_range in Hp. lia.
    - exists n, (JsonNode.set_count (JsonNode.count n + 1) n). repeat split; assumption. }
  split; [lia|]. split; [rewrite L3; lia|]. split; [exact F03|].
  split; [exists v; repeat split; assumption|].
  intros st4 (L4 & E4 & v0 & v' & Hv0 & Hv' & _ & _ & Hnx') Hlaid Hcap4.
  rewrite H3k in Hv0. injection Hv0 as <-.
  exists (JsonNode.set_count (JsonNode.count n + 1) n).
  split; [rewrite E4 by lia; exact H3cn|]. split; [exact Harr|].
  pose proof (laid_value_range _ _ _ Hlaid) as Hk4.
  split; [unfold JsonParser.m_tokenCapacity; lia|].
  replace (JsonNode.count (JsonNode.set_count (JsonNode.count n + 1) n))
    with (S (JsonNode.count n)) by (simpl; lia).
  apply (items_snoc buf (JsonParser.m_nodeBuffer st4) (JsonNode.count n) prev (S cn) k
           (JsonParser.m_nodeCount st4) v'); try assumption.
  - intros x Hx Hne. rewrite E4 by lia. apply H3other; [lia|lia|assumption].
  - intros p np -> Hnp. exists (JsonNode.set_next (Some k) np).
    destruct (Hprev p eq_refl) as (Hp & _).
    rewrite E4 by lia. split; [exact (H3prev p np eq_refl Hnp)|]. repeat split.
  - congruence.
Qed.

Lemma members_last_range buf c l i j :
  laid buf (Members c (Some l)) i j -> i <= l /\ S l < j.
Proof.
  intros H. remember (Members c (Some l)) as m eqn:Hm. revert c Hm.
  induction H as
    [ | | | | |
    | i
    | i j key0 v0 Hk Hik Hnk Hv _ Hvn Hnv
    | c0 i j0 j key0 v0 last Hk Hik Hnk Hv _ Hvn Hnv Ht IHt ];
    intros c' Hm; try discriminate Hm.
  - injection Hm as <- <-. apply laid_value_range in Hv. lia.
  - injection Hm as <- ->. apply laid_value_range in Hv.
    destruct (IHt (S c0) eq_refl). lia.
Qed.

(** Looks a node up through the stores made before. *)
Ltac through_stores :=
  repeat first
    [ rewrite list_lookup_insert_ne by (first [lia | congruence])
    | rewrite list_lookup_insert_eq by (rewrite ?length_insert; lia) ].

(** The body of the loop of [parseObject] up to the nested call: the key's
    node and the value's node are stored behind the members, the value is
    counted, and both are linked. *)
Lemma object_body cn pk pv st0 st1 st2 sb st3 st4 st5 :
  object_open cn pk pv st0 ->
  JsonParser.pushNode
    (JsonParser.with_currentToken
       (JsonToken.mk (JsonToken.data (JsonParser.m_currentToken st0))
          (JsonToken.length (JsonParser.m_currentToken st0)) JsonTokenType.JSON_KEY) st0)
    = Ret (true, st1) ->
  JsonParser.link_previous pk (JsonParser.getLastNode st1) st1 = Ret st2 ->
  nodes_kept st2 sb ->
  JsonParser.isPrimitiveValueToken (JsonParser.m_currentToken sb)
  || JsonParser.token_is JsonTokenType.JSON_ARRAY_BEGIN sb
  || JsonParser.token_is JsonTokenType.JSON_OBJECT_BEGIN sb = true ->
  JsonParser.pushNode sb = Ret (true, st3) ->
  JsonParser.update_node cn (fun n => JsonNode.set_count (JsonNode.count n + 1) n) st3 = Ret st4 ->
  JsonParser.link_previous pv (JsonParser.getLastNode st4) st4 = Ret st5 ->
  JsonParser.getLastNode st1 = JsonParser.m_nodeCount st0
  /\ JsonParser.getLastNode st4 = S (JsonParser.m_nodeCount st0)
  /\ JsonParser.m_nodeCount st5 = S (S (JsonParser.m_nodeCount st0))
  /\ JsonParser.m_nodeCount st5 <= JsonParser.m_tokenCapacity st5
  /\ frame cn (JsonParser.m_nodeBuffer st0) (JsonParser.m_nodeBuffer st5)
  /\ (exists v,
        JsonParser.m_nodeBuffer st5 !! S (JsonParser.m_nodeCount st0) = Some v
        /\ JsonNode.next v = None /\ JsonNode.count v = 0
        /\ (if JsonParser.token_is JsonTokenType.JSON_ARRAY_BEGIN sb
            then JsonNode.IsArray v = true
            else if JsonParser.token_is JsonTokenType.JSON_OBJECT_BEGIN sb
                 then JsonNode.IsObject v = true
                 else IsScalar v = true))
  /\ (forall st6,
        frame (S (JsonParser.m_nodeCount st0)) (JsonParser.m_nodeBuffer st5)
          (JsonParser.m_nodeBuffer st6) ->
        laid (JsonParser.m_nodeBuffer st6) Value (S (JsonParser.m_nodeCount st0))
          (JsonParser.m_nodeCount st6) ->
        JsonParser.m_nodeCount st6 <= JsonParser.m_tokenCapacity st6 ->
        object_open cn (Some (JsonParser.m_nodeCount st0))
          (Some (S (JsonParser.m_nodeCount st0))) st6).
Proof.
  intros (n & Hn & Hobj & (Hcn & Hcap) & -> & Hmem) Hkey Hlk [Hkb Hkc] Htok Hpush Hupd Hlv.
  apply pushNode_true in Hkey as (key & Hkeynode & Hlt & ->).
  cbn in Hkeynode. injection Hkeynode as <-.
  cbn [JsonParser.m_nodeBuffer JsonParser.m_nodeCount JsonParser.with_nodes
       JsonParser.with_currentToken JsonParser.m_tokenCapacity] in *.
  unfold JsonParser.m_tokenCapacity in *.
  cbn [JsonParser.m_nodeBuffer JsonParser.m_nodeCount JsonParser.with_nodes
       JsonParser.with_currentToken] in *.
  set (buf := JsonParser.m_nodeBuffer st0) in *.
  set (k := JsonParser.m_nodeCount st0) in *.
  set (key := JsonNode.mk _ 0 JsonNodeType.JSON_KEY None) in *.
  assert (Hl1 : JsonParser.getLastNode
                  (JsonParser.with_nodes (<[k := key]> buf) (k + 1)
                     (JsonParser.with_currentToken
                        (JsonToken.mk (JsonToken.data (JsonParser.m_currentToken st0))
                           (JsonToken.length (JsonParser.m_currentToken st0))
                           JsonTokenType.JSON_KEY) st0)) = k).
  { unfold JsonParser.getLastNode. simpl. lia. }
  rewrite Hl1 in Hlk. split; [exact Hl1|].
  assert (Hprev : forall p, pk = Some p -> S cn <= p /\ S p < k).
  { intros p ->. exact (members_last_range _ _ _ _ _ Hmem). }
  (* the buffer behind the key *)
  assert (H2 : exists buf2,
    JsonParser.m_nodeBuffer st2 = buf2 /\ JsonParser.m_nodeCount st2 = k + 1
    /\ List.length buf2 = List.length buf
    /\ buf2 !! k = Some key
    /\ (forall x, x <> k -> Some x <> pk -> buf2 !! x = buf !! x)
    /\ (forall p np, pk = Some p -> buf !! p = Some np ->
          buf2 !! p = Some (JsonNode.set_next (Some k) np))).
  { apply link_previous_inv in Hlk. destruct pk as [p|].
    - destruct Hlk as (np & Hnp & ->). simpl in Hnp |- *.
      destruct (Hprev p eq_refl) as (Hp1 & Hp2).
      rewrite list_lookup_insert_ne in Hnp by lia.
      eexists. split; [reflexivity|]. split; [reflexivity|].
      split; [rewrite !length_insert; reflexivity|].
      split; [through_stores; reflexivity|].
      split.
      + intros x Hx1 Hx2. through_stores. reflexivity.
      + intros p' np' [= <-] Hnp'. rewrite Hnp' in Hnp. injection Hnp as <-.
        apply list_lookup_insert_eq. rewrite length_insert. lia.
    - subst st2. simpl. eexists. split; [reflexivity|]. split; [reflexivity|].
      split; [rewrite length_insert; reflexivity|].
      split; [through_stores; reflexivity|].
      split; [intros x Hx1 _; through_stores; reflexivity | intros p np [=]]. }
  destruct H2 as (buf2 & Hb2 & Hc2 & L2 & H2k & H2other & H2prev).
  rewrite Hb2 in Hkb. rewrite Hc2 in Hkc.
  apply pushNode_true in Hpush as (v & Hv & Hlt3 & Hst3).
  unfold JsonParser.m_tokenCapacity in Hlt3. rewrite Hkb, Hkc, L2 in Hlt3.
  rewrite Hkb, Hkc in Hst3.
  destruct (of_token_value _ _ Hv Htok) as (Hvn & Hvc & _ & Hkind).
  apply update_node_inv in Hupd as (n1 & Hn1 & Hst4).
  rewrite Hst3 in Hn1, Hst4.
  cbn [JsonParser.m_nodeBuffer JsonParser.m_nodeCount JsonParser.with_nodes] in Hn1, Hst4.
  assert (Hcn_pk : Some cn <> pk).
  { intros Heq. symmetry in Heq. apply Hprev in Heq. lia. }
  rewrite list_lookup_insert_ne, H2other, Hn in Hn1 by (first [lia | assumption]).
  injection Hn1 as <-.
  set (n' := JsonNode.set_count (JsonNode.count n + 1) n) in *.
  set (buf4 := <[cn := n']> (<[k + 1 := v]> buf2)) in *.
  assert (Hl4 : JsonParser.getLastNode st4 = S k).
  { rewrite Hst4. unfold JsonParser.getLastNode. simpl. lia. }
  rewrite Hl4 in Hlv. split; [exact Hl4|].
  subst st4. clear Hst3 st3.
  assert (L4 : List.length buf4 = List.length buf).
  { unfold buf4. rewrite !length_insert. exact L2. }
  assert (H5 : exists buf5,
    JsonParser.m_nodeBuffer st5 = buf5 /\ JsonParser.m_nodeCount st5 = k + 1 + 1
    /\ List.length buf5 = List.length buf
    /\ buf5 !! cn = Some n'
    /\ buf5 !! k = Some key
    /\ buf5 !! S k = Some v
    /\ (forall x, x <> cn -> x <> k -> x <> S k -> Some x <> pk -> Some x <> S <$> pk ->
          buf5 !! x = buf !! x)
    /\ (forall p np, pk = Some p -> buf !! p = Some np ->
          buf5 !! p = Some (JsonNode.set_next (Some k) np))
    /\ (forall p nv, pk = Some p -> buf !! S p = Some nv ->
          buf5 !! S p = Some (JsonNode.set_next (Some (S k)) nv))).
  { apply link_previous_inv in Hlv. destruct pk as [p|].
    - destruct Hlv as (nv & Hnv & ->).
      cbn [JsonParser.m_nodeBuffer JsonParser.m_nodeCount JsonParser.with_nodes] in Hnv |- *.
      destruct (Hprev p eq_refl) as (Hp1 & Hp2).
      unfold buf4 in Hnv. rewrite !list_lookup_insert_ne in Hnv by lia.
      rewrite H2other in Hnv by (first [lia | intros [= ?]; lia]).
      eexists. split; [reflexivity|]. split; [reflexivity|].
      split; [rewrite length_insert; exact L4|].
      split; [unfold buf4; through_stores; reflexivity|].
      split; [unfold buf4; through_stores; exact H2k|].
      split; [unfold buf4; replace (k + 1) with (S k) by lia; through_stores; reflexivity|].
      split; [|split].
      + intros x Hx1 Hx2 Hx3 Hx4 Hx5. unfold buf4.
        assert (x <> S p) by (intros ->; apply Hx5; reflexivity).
        rewrite !list_lookup_insert_ne by lia.
        apply H2other; assumption.
      + intros p' np' [= <-] Hnp'. unfold buf4. rewrite !list_lookup_insert_ne by lia.
        exact (H2prev p np' eq_refl Hnp').
      + intros p' nv' [= <-] Hnv'. rewrite Hnv' in Hnv. injection Hnv as <-.
        apply list_lookup_insert_eq. rewrite L4. lia.
    - change (st5 = JsonParser.with_nodes buf4 (k + 1 + 1)
                      (JsonParser.with_nodes (<[k + 1 := v]> buf2) (k + 1 + 1) sb)) in Hlv.
      subst st5.
      cbn [JsonParser.m_nodeBuffer JsonParser.m_nodeCount JsonParser.with_nodes].
      eexists. split; [reflexivity|]. split; [reflexivity|].
      split; [exact L4|].
      split; [unfold buf4; through_stores; reflexivity|].
      split; [unfold buf4; through_stores; exact H2k|].
      split; [unfold buf4; replace (k + 1) with (S k) by lia; through_stores; reflexivity|].
      split; [|split].
      + intros x Hx1 Hx2 Hx3 Hx4 Hx5. unfold buf4.
        rewrite !list_lookup_insert_ne by (first [lia | congruence]).
        apply H2other; assumption.
      + intros p np [=].
      + intros p np [=]. }
  destruct H5 as (buf5 & -> & -> & L5 & H5cn & H5k & H5v & H5other & H5pk & H5pv).
  assert (F05 : frame cn buf buf5).
  { split; [exact L5|]. split.
    - intros x Hx. apply H5other; try lia.
      + intros Hp. symmetry in Hp. apply Hprev in Hp. lia.
      + destruct pk as [p|]; [|discriminate]. intros [= ->].
        destruct (Hprev p eq_refl). lia.
    - exists n, n'. repeat split; assumption. }
  split; [lia|]. split; [rewrite L5; lia|]. split; [exact F05|].
  split; [exists v; repeat split; assumption|].
  intros st6 (L6 & E6 & v0 & v' & Hv0 & Hv' & _ & _ & Hnx') Hlaid Hcap6.
  rewrite H5v in Hv0. injection Hv0 as <-.
  exists n'. split; [rewrite E6 by lia; exact H5cn|]. split; [exact Hobj|].
  pose proof (laid_value_range _ _ _ Hlaid) as Hk6.
  split; [unfold JsonParser.m_tokenCapacity; lia|]. split; [reflexivity|].
  replace (JsonNode.count n') with (S (JsonNode.count n)) by (simpl; lia).
  apply (members_snoc buf (JsonParser.m_nodeBuffer st6) (JsonNode.count n) pk (S cn) k
           (JsonParser.m_nodeCount st6) key v'); try assumption.
  - intros x Hx Hne1 Hne2. rewrite E6 by lia. apply H5other; first [lia | assumption].
  - intros p np -> Hnp. exists (JsonNode.set_next (Some k) np).
    destruct (Hprev p eq_refl). rewrite E6 by lia.
    split; [exact (H5pk p np eq_refl Hnp)|]. repeat split.
  - intros p nv -> Hnv. exists (JsonNode.set_next (Some (S k)) nv).
    destruct (Hprev p eq_refl). rewrite E6 by lia.
    split; [exact (H5pv p nv eq_refl Hnv)|]. repeat split.
  - rewrite E6 by lia. exact H5k.
  - reflexivity.
  - reflexivity.
  - congruence.
Qed.

Lemma array_open_value cn last st :
  array_open cn last st ->
  laid (JsonParser.m_nodeBuffer st) Value cn (JsonParser.m_nodeCount st)
  /\ JsonParser.m_nodeCount st <= JsonParser.m_tokenCapacity st.
Proof.
  intros (n & Hn & Ha & (_ & Hcap) & Hitems). split; [|exact Hcap].
  exact (laid_array _ _ _ n last Hn Ha Hitems).
Qed.

Lemma object_open_value cn lk lv st :
  object_open cn lk lv st ->
  laid (JsonParser.m_nodeBuffer st) Value cn (JsonParser.m_nodeCount st)
  /\ JsonParser.m_nodeCount st <= JsonParser.m_tokenCapacity st.
Proof.
  intros (n & Hn & Ho & (_ & Hcap) & _ & Hmem). split; [|exact Hcap].
  exact (laid_object _ _ _ n lk Hn Ho Hmem).
Qed.

Lemma array_open_frame cn prev st :
  array_open cn prev st -> frame cn (JsonParser.m_nodeBuffer st) (JsonParser.m_nodeBuffer st).
Proof. intros (n & Hn & _). exact (frame_refl _ _ _ Hn). Qed.

Lemma object_open_frame cn pk pv st :
  object_open cn pk pv st -> frame cn (JsonParser.m_nodeBuffer st) (JsonParser.m_nodeBuffer st).
Proof. intros (n & Hn & _). exact (frame_refl _ _ _ Hn). Qed.

(** An empty container that was just stored is open. *)
Lemma array_open_fresh st n :
  1 <= JsonParser.m_nodeCount st <= JsonParser.m_tokenCapacity st ->
  JsonParser.m_nodeBuffer st !! (JsonParser.m_nodeCount st - 1) = Some n ->
  JsonNode.IsArray n = true -> JsonNode.count n = 0 ->
  array_open (JsonParser.m_nodeCount st - 1) None st.
Proof.
  intros Hk Hn Ha Hc. exists n. split; [exact Hn|]. split; [exact Ha|]. split; [lia|].
  rewrite Hc. replace (S (JsonParser.m_nodeCount st - 1)) with (JsonParser.m_nodeCount st) by lia.
  constructor.
Qed.

Lemma object_open_fresh st n :
  1 <= JsonParser.m_nodeCount st <= JsonParser.m_tokenCapacity st ->
  JsonParser.m_nodeBuffer st !! (JsonParser.m_nodeCount st - 1) = Some n ->
  JsonNode.IsObject n = true -> JsonNode.count n = 0 ->
  object_open (JsonParser.m_nodeCount st - 1) None None st.
Proof.
  intros Hk Hn Ha Hc. exists n. split; [exact Hn|]. split; [exact Ha|]. split; [lia|].
  split; [reflexivity|].
  rewrite Hc. replace (S (JsonParser.m_nodeCount st - 1)) with (JsonParser.m_nodeCount st) by lia.
  constructor.
Qed.

Lemma parse_laid fuel :
  (forall st st' n,
     JsonParser.parseArray fuel st = Ret (true, st') ->
     1 <= JsonParser.m_nodeCount st <= JsonParser.m_tokenCapacity st ->
     JsonParser.m_nodeBuffer st !! (JsonParser.m_nodeCount st - 1) = Some n ->
     JsonNode.IsArray n = true -> JsonNode.count n = 0 ->
     frame (JsonParser.m_nodeCount st - 1) (JsonParser.m_nodeBuffer st) (JsonParser.m_nodeBuffer st')
     /\ laid (JsonParser.m_nodeBuffer st') Value (JsonParser.m_nodeCount st - 1)
          (JsonParser.m_nodeCount st')
     /\ JsonParser.m_nodeCount st' <= JsonParser.m_tokenCapacity st')
  /\ (forall cn prev st st',
        JsonParser.parseArray_loop fuel cn prev st = Ret (true, st') ->
        array_open cn prev st ->
        frame cn (JsonParser.m_nodeBuffer st) (JsonParser.m_nodeBuffer st')
        /\ exists last, array_open cn last st')
  /\ (forall st st' n,
        JsonParser.parseObject fuel st = Ret (true, st') ->
        1 <= JsonParser.m_nodeCount st <= JsonParser.m_tokenCapacity st ->
        JsonParser.m_nodeBuffer st !! (JsonParser.m_nodeCount st - 1) = Some n ->
        JsonNode.IsObject n = true -> JsonNode.count n = 0 ->
        frame (JsonParser.m_nodeCount st - 1) (JsonParser.m_nodeBuffer st)
          (JsonParser.m_nodeBuffer st')
        /\ laid (JsonParser.m_nodeBuffer st') Value (JsonParser.m_nodeCount st - 1)
             (JsonParser.m_nodeCount st')
        /\ JsonParser.m_nodeCount st' <= JsonParser.m_tokenCapacity st')
  /\ (forall cn pk pv st st',
        JsonParser.parseObject_loop fuel cn pk pv st = Ret (true, st') ->
        object_open cn pk pv st ->
        frame cn (JsonParser.m_nodeBuffer st) (JsonParser.m_nodeBuffer st')
        /\ exists lk lv, object_open cn lk lv st').
Proof.
  induction fuel as [|fuel (IHa & IHal & IHo & IHol)].
  { repeat split; intros; discriminate. }
  split; [|split; [|split]].
  - intros st st' n H Hk Hn Ha Hc. cbn [JsonParser.parseArray] in H.
    bind_step H. destruct (advance_kept _ _ E) as (K & _). clear E.
    assert (Hopen : array_open (JsonParser.m_nodeCount st - 1) None x).
    { apply (array_open_kept _ _ st); [exact K|]. apply (array_open_fresh st n); assumption. }
    destruct K as [Kb Kc].
    destruct (JsonParser.token_is JsonTokenType.JSON_ARRAY_END x).
    + ret_inv H. rewrite <- Kb at 1. split; [exact (array_open_frame _ _ _ Hopen)|].
      exact (array_open_value _ _ _ Hopen).
    + unfold JsonParser.getLastNode in H. rewrite Kc in H.
      destruct (IHal _ _ _ _ H Hopen) as (F & last & Hopen').
      rewrite Kb in F. split; [exact F|]. exact (array_open_value _ _ _ Hopen').
  - intros cn prev st st' H Hopen. cbn [JsonParser.parseArray_loop] in H.
    destruct (negb (JsonParser.m_pos st <? JsonParser.m_end st)).
    { ret_inv H. split; [exact (array_open_frame _ _ _ Hopen) | eauto]. }
    cbv zeta in H.
    bind_as H as [r1 s1] E1. destruct r1; [|discriminate]. cbn [negb] in H.
    apply expect_true in E1 as (Htok & ->).
    bind_as H as [r2 s2] E2. destruct r2; [|discriminate]. cbn [negb] in H.
    bind_as H as s3 E3. bind_as H as s4 E4.
    destruct (array_body _ _ _ _ _ _ Hopen Htok E2 E3 E4)
      as (Hl & Hc & Hcap & F & (v & Hv & Hvn & Hvc & Hkind) & Hcont).
    rewrite Hl in H. clear E2 E3 E4 Hl.
    bind_as H as [r5 s5] E5. destruct r5; [|discriminate]. cbn [negb] in H.
    assert (Hround : array_open cn (Some (JsonParser.m_nodeCount st)) s5
                     /\ frame cn (JsonParser.m_nodeBuffer st) (JsonParser.m_nodeBuffer s5)).
    { destruct Hopen as (n & Hn & _ & (Hcn & _) & _).
      destruct F as (L4 & E4 & F4).
      assert (Hcn4 : exists n4, JsonParser.m_nodeBuffer s4 !! cn = Some n4).
      { destruct F4 as (? & n4 & _ & ? & _). eauto. }
      destruct Hcn4 as (n4 & Hn4).
      assert (Hlast4 : JsonParser.m_nodeCount s4 - 1 = JsonParser.m_nodeCount st) by lia.
      destruct (JsonParser.token_is JsonTokenType.JSON_ARRAY_BEGIN st).
      - destruct (IHa _ _ v E5) as (F5 & Hlaid & Hcap5); try rewrite Hlast4; try assumption.
        { lia. }
        rewrite Hlast4 in F5, Hlaid.
        split; [apply Hcont; assumption|].
        apply (frame_trans _ _ (JsonParser.m_nodeBuffer s4)); [repeat split; assumption|].
        exact (frame_below _ _ _ _ _ F5 Hcn Hn4).
      - destruct (JsonParser.token_is JsonTokenType.JSON_OBJECT_BEGIN st).
        + destruct (IHo _ _ v E5) as (F5 & Hlaid & Hcap5); try rewrite Hlast4; try assumption.
          { lia. }
          rewrite Hlast4 in F5, Hlaid.
          split; [apply Hcont; assumption|].
          apply (frame_trans _ _ (JsonParser.m_nodeBuffer s4)); [repeat split; assumption|].
          exact (frame_below _ _ _ _ _ F5 Hcn Hn4).
        + ret_inv E5. split; [|repeat split; assumption].
          apply Hcont; [exact (frame_refl _ _ _ Hv) | | assumption].
          rewrite Hc. exact (laid_scalar _ _ v Hv Hkind). }
    destruct Hround as (Hopen5 & F5). clear Hcont E5.
    bind_as H as s6 E6. destruct (advance_kept _ _ E6) as (K6 & _). clear E6.
    pose proof (array_open_kept _ _ _ _ K6 Hopen5) as Hopen6.
    pose proof (frame_kept _ _ _ _ K6 F5) as F6.
    destruct (JsonParser.token_is JsonTokenType.JSON_ARRAY_END s6).
    { ret_inv H. split; [exact F6 | eauto]. }
    bind_as H as [r7 s7] E7. destruct r7; [|discriminate]. cbn [negb] in H.
    apply expect_true in E7 as (_ & ->).
    bind_as H as s8 E8. destruct (advance_kept _ _ E8) as (K8 & _). clear E8.
    pose proof (array_open_kept _ _ _ _ K8 Hopen6) as Hopen8.
    pose proof (frame_kept _ _ _ _ K8 F6) as F8.
    destruct (IHal _ _ _ _ H Hopen8) as (F9 & last & Hopen9).
    split; [exact (frame_trans _ _ _ _ F8 F9) | eauto].
  - intros st st' n H Hk Hn Ha Hc. cbn [JsonParser.parseObject] in H.
    bind_step H. destruct (advance_kept _ _ E) as (K & _). clear E.
    assert (Hopen : object_open (JsonParser.m_nodeCount st - 1) None None x).
    { apply (object_open_kept _ _ _ st); [exact K|]. apply (object_open_fresh st n); assumption. }
    destruct K as [Kb Kc].
    destruct (JsonParser.token_is JsonTokenType.JSON_OBJECT_END x).
    + ret_inv H. rewrite <- Kb at 1. split; [exact (object_open_frame _ _ _ _ Hopen)|].
      exact (object_open_value _ _ _ _ Hopen).
    + unfold JsonParser.getLastNode in H. rewrite Kc in H.
      destruct (IHol _ _ _ _ _ H Hopen) as (F & lk & lv & Hopen').
      rewrite Kb in F. split; [exact F|]. exact (object_open_value _ _ _ _ Hopen').
  - intros cn pk pv st st' H Hopen. cbn [JsonParser.parseObject_loop] in H.
    destruct (negb (JsonParser.m_pos st <? JsonParser.m_end st)).
    { ret_inv H. split; [exact (object_open_frame _ _ _ _ Hopen) | eauto]. }
    cbv zeta in H.
    bind_as H as [r1 s1] E1. destruct r1; [|discriminate]. cbn [negb] in H.
    apply expect_true in E1 as (_ & ->).
    bind_as H as [r2 s2] E2. destruct r2; [|discriminate]. cbn [negb] in H.
    bind_as H as s3 E3.
    bind_as H as sa Ea. destruct (advance_kept _ _ Ea) as (Ka & _). clear Ea.
    bind_as H as [rc sc] Ec. destruct rc; [|discriminate]. cbn [negb] in H.
    apply expect_true in Ec as (_ & ->).
    bind_as H as sb Eb. destruct (advance_kept _ _ Eb) as (Kb & _). clear Eb.
    pose proof (nodes_kept_trans _ _ _ Ka Kb) as Kab. clear Ka Kb.
    bind_as H as [rv sv] Ev. destruct rv; [|discriminate]. cbn [negb] in H.
    apply expect_true in Ev as (Htok & ->).
    bind_as H as [r4 s4] E4. destruct r4; [|discriminate]. cbn [negb] in H.
    bind_as H as s5 E5. bind_as H as s6 E6.
    destruct (object_body _ _ _ _ _ _ _ _ _ _ Hopen E2 E3 Kab Htok E4 E5 E6)
      as (Hl1 & Hl4 & Hc & Hcap & F & (v & Hv & Hvn & Hvc & Hkind) & Hcont).
    rewrite Hl1, Hl4 in H. clear E2 E3 E4 E5 E6 Hl1 Hl4.
    bind_as H as [r7 s7] E7. destruct r7; [|discriminate]. cbn [negb] in H.
    assert (Hround : object_open cn (Some (JsonParser.m_nodeCount st))
                       (Some (S (JsonParser.m_nodeCount st))) s7
                     /\ frame cn (JsonParser.m_nodeBuffer st) (JsonParser.m_nodeBuffer s7)).
    { destruct Hopen as (n & Hn & _ & (Hcn & _) & _).
      destruct F as (L6 & E6 & F6).
      assert (Hcn6 : exists n6, JsonParser.m_nodeBuffer s6 !! cn = Some n6).
      { destruct F6 as (? & n6 & _ & ? & _). eauto. }
      destruct Hcn6 as (n6 & Hn6).
      assert (Hlast6 : JsonParser.m_nodeCount s6 - 1 = S (JsonParser.m_nodeCount st)) by lia.
      destruct (JsonParser.token_is JsonTokenType.JSON_ARRAY_BEGIN sb).
      - destruct (IHa _ _ v E7) as (F7 & Hlaid & Hcap7); try rewrite Hlast6; try assumption.
        { lia. }
        rewrite Hlast6 in F7, Hlaid.
        split; [apply Hcont; assumption|].
        apply (frame_trans _ _ (JsonParser.m_nodeBuffer s6)); [repeat split; assumption|].
        apply (frame_below cn _ _ _ n6 F7); [lia | exact Hn6].
      - destruct (JsonParser.token_is JsonTokenType.JSON_OBJECT_BEGIN sb).
        + destruct (IHo _ _ v E7) as (F7 & Hlaid & Hcap7); try rewrite Hlast6; try assumption.
          { lia. }
          rewrite Hlast6 in F7, Hlaid.
          split; [apply Hcont; assumption|].
          apply (frame_trans _ _ (JsonParser.m_nodeBuffer s6)); [repeat split; assumption|].
          apply (frame_below cn _ _ _ n6 F7); [lia | exact Hn6].
        + ret_inv E7. split; [|repeat split; assumption].
          apply Hcont; [exact (frame_refl _ _ _ Hv) | | assumption].
          rewrite Hc. exact (laid_scalar _ _ v Hv Hkind). }
    destruct Hround as (Hopen7 & F7). clear Hcont E7.
    bind_as H as s8 E8. destruct (advance_kept _ _ E8) as (K8 & _). clear E8.
    pose proof (object_open_kept _ _ _ _ _ K8 Hopen7) as Hopen8.
    pose proof (frame_kept _ _ _ _ K8 F7) as F8.
    destruct (JsonParser.token_is JsonTokenType.JSON_OBJECT_END s8).
    { ret_inv H. split; [exact F8 | eauto]. }
    bind_as H as [r9 s9] E9. destruct r9; [|discriminate]. cbn [negb] in H.
    apply expect_true in E9 as (_ & ->).
    bind_as H as s10 E10. destruct (advance_kept _ _ E10) as (K10 & _). clear E10.
    pose proof (object_open_kept _ _ _ _ _ K10 Hopen8) as Hopen10.
    pose proof (frame_kept _ _ _ _ K10 F8) as F10.
    destruct (IHol _ _ _ _ _ H Hopen10) as (F11 & lk & lv & Hopen11).
    split; [exact (frame_trans _ _ _ _ F10 F11) | eauto].
Qed.

Lemma forest_range buf i j : forest buf i j -> i <= j.
Proof.
  induction 1 as [|i j k n Hn Hc Hnx Hv Hf IH]; [lia|].
  apply laid_value_range in Hv. lia.
Qed.

Lemma forest_ext buf buf' i j :
  forest buf i j -> (forall x, i <= x < j -> buf' !! x = buf !! x) -> forest buf' i j.
Proof.
  induction 1 as [|i j k n Hn Hc Hnx Hv Hf IH]; intros E; [constructor|].
  pose proof (laid_value_range _ _ _ Hv). pose proof (forest_range _ _ _ Hf).
  apply (forest_cons _ i j k n); try assumption.
  - rewrite E by lia. exact Hn.
  - apply (laid_ext buf); [assumption|]. intros; apply E; lia.
  - apply IH. intros; apply E; lia.
Qed.

Lemma forest_snoc buf i j k n :
  forest buf i j -> buf !! j = Some n -> JsonNode.IsComplex n = true ->
  JsonNode.next n = None -> laid buf Value j k -> forest buf i k.
Proof.
  induction 1 as [|i j0 j n0 Hn0 Hc0 Hnx0 Hv0 Hf IH]; intros Hn Hc Hnx Hv.
  - apply (forest_cons _ i k k n); try assumption. constructor.
  - apply (forest_cons _ i j0 k n0); try assumption. apply IH; assumption.
Qed.

(** The loop of [Parse]: each round adds a document to the forest, unless
    the buffer is full. *)
Lemma Parse_loop_forest fuel st st' :
  JsonParser.Parse_loop fuel st = Ret (true, st') ->
  JsonParser.m_nodeCount st <= JsonParser.m_tokenCapacity st ->
  forest (JsonParser.m_nodeBuffer st) 0 (JsonParser.m_nodeCount st) ->
  buffer_full st'
  \/ (forest (JsonParser.m_nodeBuffer st') 0 (JsonParser.m_nodeCount st')
      /\ JsonParser.m_nodeCount st' <= JsonParser.m_tokenCapacity st').
Proof.
  revert st. induction fuel as [|fuel IH]; intros st H Hcap Hf; [discriminate|].
  destruct (parse_laid fuel) as (IHa & _ & IHo & _).
  destruct (parse_stuck fuel) as (Sa & _ & So & _).
  cbn [JsonParser.Parse_loop] in H.
  destruct (negb (JsonParser.m_pos st <? JsonParser.m_end st)).
  { ret_inv H. right. split; assumption. }
  bind_as H as s1 E1. destruct (advance_kept _ _ E1) as ((Kb & Kc) & _). clear E1.
  cbv zeta in H.
  bind_as H as [r2 s2] E2. destruct r2; [|discriminate]. cbn [negb] in H.
  apply expect_true in E2 as (Htok & ->).
  bind_as H as [r3 s3] E3.
  bind_as H as [r4 s4] E4. destruct r4; [|discriminate]. cbn [negb] in H.
  destruct r3.
  - (* the document's node was stored *)
    apply pushNode_true in E3 as (node & Hnode & Hlt & ->).
    unfold JsonParser.m_tokenCapacity in Hlt, Hcap. rewrite Kb, Kc in *.
    set (buf := JsonParser.m_nodeBuffer st) in *.
    set (k := JsonParser.m_nodeCount st) in *.
    set (s3 := JsonParser.with_nodes (<[k := node]> buf) (k + 1) s1) in *.
    assert (Hnode' : JsonNode.next node = None /\ JsonNode.count node = 0
              /\ (if JsonParser.token_is JsonTokenType.JSON_ARRAY_BEGIN s1
                  then JsonNode.IsArray node = true else JsonNode.IsObject node = true)).
    { assert (Hv : JsonParser.isPrimitiveValueToken (JsonParser.m_currentToken s1)
                   || JsonParser.token_is JsonTokenType.JSON_ARRAY_BEGIN s1
                   || JsonParser.token_is JsonTokenType.JSON_OBJECT_BEGIN s1 = true).
      { rewrite <- orb_assoc, Htok. apply orb_true_r. }
      destruct (of_token_value _ _ Hnode Hv) as (? & ? & _ & Hkind).
      split; [assumption|]. split; [assumption|].
      unfold JsonParser.token_is in *.
      destruct (JsonTokenType.eqb _ JsonTokenType.JSON_ARRAY_BEGIN); [exact Hkind|].
      cbn [orb] in Htok. rewrite Htok in Hkind. exact Hkind. }
    destruct Hnode' as (Hnx & Hct & Hkind).
    assert (Hk3 : JsonParser.m_nodeCount s3 - 1 = k) by (unfold s3; simpl; lia).
    assert (Hn3 : JsonParser.m_nodeBuffer s3 !! (JsonParser.m_nodeCount s3 - 1) = Some node).
    { rewrite Hk3. unfold s3. simpl. apply list_lookup_insert_eq. exact Hlt. }
    assert (Hc3 : 1 <= JsonParser.m_nodeCount s3 <= JsonParser.m_tokenCapacity s3).
    { unfold JsonParser.m_tokenCapacity, s3. simpl. rewrite length_insert. lia. }
    assert (Hdoc : frame k (JsonParser.m_nodeBuffer s3) (JsonParser.m_nodeBuffer s4)
                   /\ laid (JsonParser.m_nodeBuffer s4) Value k (JsonParser.m_nodeCount s4)
                   /\ JsonParser.m_nodeCount s4 <= JsonParser.m_tokenCapacity s4
                   /\ JsonNode.IsComplex node = true).
    { unfold JsonNode.IsComplex.
      destruct (JsonParser.token_is JsonTokenType.JSON_ARRAY_BEGIN s1).
      - destruct (IHa _ _ node E4 Hc3 Hn3 Hkind Hct) as (F & L & C).
        rewrite Hk3 in F, L. rewrite Hkind.
        split; [exact F|]. split; [exact L|]. split; [exact C|]. reflexivity.
      - cbn [orb] in Htok. rewrite Htok in E4.
        destruct (IHo _ _ node E4 Hc3 Hn3 Hkind Hct) as (F & L & C).
        rewrite Hk3 in F, L. rewrite Hkind, orb_true_r.
        split; [exact F|]. split; [exact L|]. split; [exact C|]. reflexivity. }
    destruct Hdoc as ((L4 & E4' & n3 & n4 & Hn3' & Hn4 & _ & Hty & Hnx4) & Hlaid & Hcap4 & Hcx).
    rewrite Hk3 in Hn3. rewrite Hn3 in Hn3'. injection Hn3' as <-.
    apply (IH s4 H Hcap4).
    apply (forest_snoc _ 0 k _ n4); try assumption.
    + apply (forest_ext buf); [exact Hf|]. intros x Hx. rewrite E4' by lia.
      unfold s3. simpl. apply list_lookup_insert_ne. lia.
    + unfold JsonNode.IsComplex, JsonNode.IsArray, JsonNode.IsObject in *. rewrite Hty. exact Hcx.
    + congruence.
  - (* the buffer was full already *)
    left. apply pushNode_false in E3 as (_ & K3 & F1).
    pose proof (nodes_kept_full _ _ K3 F1) as F3.
    assert (K4 : nodes_kept s3 s4).
    { destruct (JsonParser.token_is JsonTokenType.JSON_ARRAY_BEGIN s1).
      - exact (proj1 (Sa _ _ _ F3 E4)).
      - cbn [orb] in Htok. rewrite Htok in E4. exact (proj1 (So _ _ _ F3 E4)). }
    pose proof (nodes_kept_full _ _ K4 F3) as F4.
    destruct (Parse_loop_stuck _ _ _ _ F4 H) as (K5 & _).
    exact (nodes_kept_full _ _ K5 F4).
Qed.

Lemma Parse_valid_forest (buffer : list JsonNode.t) (st st' : JsonParser.t) :
  JsonParser.Parse (Some buffer) st = Ret st' ->
  JsonParser.IsValid st' = true ->
  exists n eof,
    JsonParser.m_nodeCount st' = S n
    /\ forest (JsonParser.m_nodeBuffer st') 0 n
    /\ JsonParser.m_nodeBuffer st' !! n = Some eof
    /\ JsonNode.IsEOF eof = true.
Proof.
  unfold JsonParser.Parse.
  set (st0 := JsonParser.mk _ _ _ _ _ _ _ _).
  change (JsonParser.IsValid st0) with false. cbv iota.
  intros H V. bind_as H as st1 E1.
  apply skipWhitespace_spec in E1 as ((_ & _ & B1 & N1) & _).
  bind_as H as [b st2] E2.
  destruct b.
  - pose proof (Parse_loop_done _ _ _ E2) as Hend.
    apply Parse_loop_forest in E2;
      [|rewrite N1; apply Nat.le_0_l | rewrite B1, N1; constructor].
    bind_as H as [b3 st4] E3. bind_as E3 as st3 E4.
    apply (advance_at_end _ _ Hend) in E4. subst st3.
    destruct b3.
    + injection H as <-.
      apply pushNode_true in E3 as (node & Hnode & Hlt & ->).
      cbn in Hnode. injection Hnode as <-. simpl in *.
      unfold JsonParser.m_tokenCapacity in Hlt. simpl in Hlt.
      destruct E2 as [Hfull | (Hf & _)]; [unfold buffer_full, JsonParser.m_tokenCapacity in Hfull; lia|].
      eexists (JsonParser.m_nodeCount st2), _.
      split; [lia|]. split; [|split; [apply list_lookup_insert_eq; exact Hlt | reflexivity]].
      apply (forest_ext (JsonParser.m_nodeBuffer st2)); [exact Hf|].
      intros x Hx. apply list_lookup_insert_ne. lia.
    + apply logInvalidTokenPosition_inv in H as (log & ->).
      apply pushNode_false in E3 as (C & _). unfold JsonParser.IsValid in V.
      simpl in V. rewrite C in V. discriminate.
  - cbn [mbind outcome_bind] in H.
    apply logInvalidTokenPosition_inv in H as (log & ->).
    destruct (Parse_loop_false_status _ _ _ E2) as [C|[C|C]];
      unfold JsonParser.IsValid in V; simpl in V; rewrite C in V; discriminate.
Qed.

(** The shape of the nodes after a successful parse.  A parse into a fresh
    buffer that ends with [VALID_JSON] leaves, before the closing [JSON_EOF]
    node, a forest of documents: every document is a container with no
    [next], every container's node is directly followed by its [count]
    children, the items of an array are chained by [next] from the first to
    the last, whose [next] is null, and the members of an object are key
    nodes chained by [next], each directly followed by its value, the values
    chained by [next] as well. *)
Theorem Parse_valid_layout (buffer : list JsonNode.t) (st st' : JsonParser.t) :
  JsonParser.Parse (Some buffer) st = Ret st' ->
  JsonParser.IsValid st' = true ->
  exists n eof,
    JsonParser.GetCount st' = S n
    /\ forest (JsonParser.m_nodeBuffer st') 0 n
    /\ JsonParser.m_nodeBuffer st' !! n = Some eof
    /\ JsonNode.IsEOF eof = true.
Proof. exact (Parse_valid_forest buffer st st'). Qed.

Lemma Parse_valid_layout_witness :
  exists st',
    JsonParser.Parse (Some (replicate 12 (JsonNode.mk (string_view.mk 0 0) 0 JsonNodeType.INVALID None)))
      (JsonParser.SetUp (json_text "{'a':[1,[],{'b':null}],'c':true}") []) = Ret st'
    /\ exists n eof,
         JsonParser.GetCount st' = S n
         /\ forest (JsonParser.m_nodeBuffer st') 0 n
         /\ JsonParser.m_nodeBuffer st' !! n = Some eof
         /\ JsonNode.IsEOF eof = true.
Proof.
  eexists. split; [vm_compute; reflexivity|].
  apply (Parse_valid_layout
           (replicate 12 (JsonNode.mk (string_view.mk 0 0) 0 JsonNodeType.INVALID None))
           (JsonParser.SetUp (json_text "{'a':[1,[],{'b':null}],'c':true}") [])).
  - vm_compute. reflexivity.
  - vm_compute. reflexivity.
Defined.

(** ** Resolver on the nodes of a parse *)

(** The items of an array are reached along [next]. *)
Lemma items_nth buf c last i j :
  laid buf (Items c last) i j ->
  forall k, k < c ->
  exists x e, nth_sibling buf k i = Some x /\ laid buf Value x e /\ i <= x /\ e <= j.
Proof.
  intros H. remember (Items c last) as m eqn:Hm. revert c last Hm.
  induction H as
    [ | | | i
    | i j n Hv _ Hn Hnx
    | c0 i j0 j n last0 Hv _ Hn Hnx Ht IHt
    | | | ]; intros c' last' Hm q Hq; try discriminate Hm; injection Hm as <- <-.
  - lia.
  - replace q with 0 by lia. exists i, j. repeat split; [assumption|lia|lia].
  - pose proof (laid_value_range _ _ _ Hv).
    pose proof (laid_range _ _ _ _ Ht) as (? & _).
    destruct q as [|q].
    + exists i, j0. repeat split; [assumption|lia|lia].
    + destruct (IHt (S c0) last0 eq_refl q) as (x & e & Hx & Hl & ? & ?); [lia|].
      exists x, e. split; [|split; [assumption|lia]].
      cbn [nth_sibling]. rewrite Hn. cbn. rewrite Hnx. cbn. exact Hx.
Qed.

Lemma index_step_on_laid_array (text : bytes) (buf : list JsonNode.t) (a j : nat)
    (n : JsonNode.t) (negative : bool) (ds : bytes) :
  laid buf Value a j -> buf !! a = Some n -> JsonNode.IsArray n = true ->
  1 <= JsonNode.count n ->
  Forall (fun ch => isdigit ch = true) ds -> ds <> [] ->
  List.length ds <= 20 -> (decimal_value ds <= 2 ^ 64 - 1)%Z ->
  exists x e,
    get_value_node text buf a (index_step negative ds) = Ret (Some x)
    /\ nth_sibling buf (wrapped_index negative (decimal_value ds) (JsonNode.count n)) (a + 1)
       = Some x
    /\ laid buf Value x e /\ a < x /\ e <= j.
Proof.
  intros Hlaid Hn Harr Hcount Hds Hne Hlen Hval.
  inversion Hlaid as
    [ i0 n0 Hn0 Hs | i0 j0 n0 last Hn0 Ha Hi | i0 j0 n0 last Hn0 Ho Hm | | | | | | ]; subst;
    rewrite Hn in Hn0; injection Hn0 as <-.
  - unfold IsScalar, JsonNode.IsArray, JsonNodeType.eqb in *.
    destruct (JsonNode.type n); discriminate.
  - assert (Hsib : forall k, k < JsonNode.count n -> is_Some (nth_sibling buf k (a + 1))).
    { intros k Hk. replace (a + 1) with (S a) by lia.
      destruct (items_nth _ _ _ _ _ Hi k Hk) as (x & e & Hx & _). eauto. }
    destruct (get_value_node_index text buf a n negative ds Hn Harr Hcount Hds Hne Hlen Hval Hsib)
      as (x & Hx & Hget).
    assert (Hw : wrapped_index negative (decimal_value ds) (JsonNode.count n) < JsonNode.count n).
    { apply wrapped_index_lt; [lia|].
      pose proof (decimal_value_bounds ds Hds). lia. }
    destruct (items_nth _ _ _ _ _ Hi _ Hw) as (x' & e & Hx' & Hl & Hlo & Hhi).
    replace (S a) with (a + 1) in Hx' by lia. rewrite Hx in Hx'. injection Hx' as <-.
    exists x, e. repeat split; try assumption; lia.
  - unfold JsonNode.IsObject, JsonNode.IsArray, JsonNodeType.eqb in *.
    destruct (JsonNode.type n); discriminate.
Qed.

(** Every node of a run that is no key starts a value of its own. *)
Lemma laid_inside buf p i j :
  laid buf p i j ->
  forall a n, i <= a < j -> buf !! a = Some n -> JsonNode.IsKey n = false ->
  exists e, laid buf Value a e /\ e <= j.
Proof.
  induction 1 as
    [ i n Hn Hs
    | i j n last Hn Ha Hc IH
    | i j n last Hn Ho Hc IH
    | i
    | i j n Hv IHv Hn Hnx
    | c i j k n last Hv IHv Hn Hnx Ht IHt
    | i
    | i j key v Hk Hik Hnk Hv IHv Hvn Hnv
    | c i j k key v last Hk Hik Hnk Hv IHv Hvn Hnv Ht IHt ]; intros a na Ha' Hna Hnk'.
  - replace a with i by lia. exists (S i). split; [|lia]. exact (laid_scalar _ i n Hn Hs).
  - destruct (Nat.eq_dec a i) as [->|Hne].
    + exists j. split; [|lia]. exact (laid_array _ i j n last Hn Ha Hc).
    + apply (IH a na); [lia|assumption|assumption].
  - destruct (Nat.eq_dec a i) as [->|Hne].
    + exists j. split; [|lia]. exact (laid_object _ i j n last Hn Ho Hc).
    + apply (IH a na); [lia|assumption|assumption].
  - lia.
  - apply (IHv a na); assumption.
  - pose proof (laid_range _ _ _ _ Ht) as (? & _).
    destruct (Nat.lt_ge_cases a j) as [Hlt|Hge].
    + destruct (IHv a na) as (e & He & ?); [lia|assumption|assumption|].
      exists e. split; [assumption|lia].
    + apply (IHt a na); [lia|assumption|assumption].
  - lia.
  - destruct (Nat.eq_dec a i) as [->|Hne]; [congruence|].
    apply (IHv a na); [lia|assumption|assumption].
  - pose proof (laid_range _ _ _ _ Ht) as (? & _).
    destruct (Nat.eq_dec a i) as [->|Hne]; [congruence|].
    destruct (Nat.lt_ge_cases a j) as [Hlt|Hge].
    + destruct (IHv a na) as (e & He & ?); [lia|assumption|assumption|].
      exists e. split; [assumption|lia].
    + apply (IHt a na); [lia|assumption|assumption].
Qed.

Lemma forest_inside buf i j :
  forest buf i j ->
  forall a n, i <= a < j -> buf !! a = Some n -> JsonNode.IsKey n = false ->
  exists e, laid buf Value a e /\ e <= j.
Proof.
  induction 1 as [|i j k n Hn Hc Hnx Hv Hf IH]; intros a na Ha Hna Hk; [lia|].
  pose proof (forest_range _ _ _ Hf).
  destruct (Nat.lt_ge_cases a j) as [Hlt|Hge].
  - destruct (laid_inside _ _ _ _ Hv a na) as (e & He & ?); [lia|assumption|assumption|].
    exists e. split; [assumption|lia].
  - apply (IH a na); [lia|assumption|assumption].
Qed.

(** [Parse] and [get_value_node] together.  After a parse that ended with
    [VALID_JSON], an index step from any array node of the buffer that has
    an item never misses: for every index written with at most 20 digits and
    below [2^64], with or without a minus sign, the resolver returns the
    item the wrap-around selects, a node of the buffer between the array and
    the closing [JSON_EOF]; it returns no null and reads outside no node. *)
Theorem parsed_array_index_step (buffer : list JsonNode.t) (st st' : JsonParser.t)
    (a : nat) (n : JsonNode.t) (negative : bool) (ds : bytes) :
  JsonParser.Parse (Some buffer) st = Ret st' ->
  JsonParser.IsValid st' = true ->
  a < JsonParser.GetCount st' ->
  JsonParser.m_nodeBuffer st' !! a = Some n -> JsonNode.IsArray n = true ->
  1 <= JsonNode.count n ->
  Forall (fun ch => isdigit ch = true) ds -> ds <> [] ->
  List.length ds <= 20 -> (decimal_value ds <= 2 ^ 64 - 1)%Z ->
  exists x,
    get_value_node (JsonParser.m_text st') (JsonParser.m_nodeBuffer st') a
      (index_step negative ds) = Ret (Some x)
    /\ nth_sibling (JsonParser.m_nodeBuffer st')
         (wrapped_index negative (decimal_value ds) (JsonNode.count n)) (a + 1) = Some x
    /\ a < x < JsonParser.GetCount st' - 1.
Proof.
  intros HP HV Ha Hn Harr Hcount Hds Hne Hlen Hval.
  destruct (Parse_valid_forest _ _ _ HP HV) as (m & eof & Hm & Hf & Heof & Hiseof).
  unfold JsonParser.GetCount in *. rewrite Hm in Ha |- *.
  assert (Ham : a < m).
  { destruct (Nat.eq_dec a m) as [->|]; [|lia].
    rewrite Heof in Hn. injection Hn as <-.
    unfold JsonNode.IsArray, JsonNode.IsEOF, JsonNodeType.eqb in *.
    destruct (JsonNode.type eof); discriminate. }
  assert (Hk : JsonNode.IsKey n = false).
  { unfold JsonNode.IsArray, JsonNode.IsKey, JsonNodeType.eqb in *.
    destruct (JsonNode.type n); try discriminate; reflexivity. }
  destruct (forest_inside _ _ _ Hf a n) as (e & Hlaid & He); [lia|assumption|assumption|].
  destruct (index_step_on_laid_array (JsonParser.m_text st') _ a e n negative ds
              Hlaid Hn Harr Hcount Hds Hne Hlen Hval)
    as (x & e' & Hget & Hsib & Hx & Hax & Hxe).
  exists x. split; [exact Hget|]. split; [exact Hsib|].
  apply laid_value_range in Hx. lia.
Qed.

Lemma parsed_array_index_step_witness :
  exists st' x,
    JsonParser.Parse (Some (replicate 8 (JsonNode.mk (string_view.mk 0 0) 0 JsonNodeType.INVALID None)))
      (JsonParser.SetUp (json_text "{'a':[10,[20],30]}") []) = Ret st'
    /\ get_value_node (JsonParser.m_text st') (JsonParser.m_nodeBuffer st') 2
         (index_step true (list_ascii_of_string "5")) = Ret (Some x)
    /\ 2 < x < JsonParser.GetCount st' - 1.
Proof.
  eexists.
  assert (HP : JsonParser.Parse
                 (Some (replicate 8 (JsonNode.mk (string_view.mk 0 0) 0 JsonNodeType.INVALID None)))
                 (JsonParser.SetUp (json_text "{'a':[10,[20],30]}") []) = Ret _)
    by (vm_compute; reflexivity).
  destruct (parsed_array_index_step _ _ _ 2
              (JsonNode.mk (string_view.mk 5 1) 3 JsonNodeType.JSON_ARRAY None)
              true (list_ascii_of_string "5") HP) as (x & Hget & _ & Hx).
  - vm_compute. reflexivity.
  - vm_compute. lia.
  - vm_compute. reflexivity.
  - reflexivity.
  - simpl. lia.
  - apply (digits_of_literal "5"). reflexivity.
  - discriminate.
  - simpl. lia.
  - vm_compute. discriminate.
  - exists x. split; [exact HP|]. split; [exact Hget | exact Hx].
Defined.

(** ** Scanner: what a token tells about the text *)

Lemma matched_kind r ty msg st type st' :
  JsonParser.matched r ty msg st = Ret (type, st') ->
  type = ty \/ type = JsonTokenType.INVALID.
Proof.
  unfold JsonParser.matched. intros H. bind_as H as [ok p] E.
  bind_as H as s1 E1. injection H as <- _. destruct ok; auto.
Qed.

Lemma scan_token_start ch st type st' :
  JsonParser.scan_token ch st = Ret (type, st') -> token_start type ch.
Proof.
  unfold JsonParser.scan_token. intros H.
  destruct (JsonParser.isDigit ch || Ascii.eqb ch "-") eqn:Hd.
  { assert (Hs : JsonParser.isDigit ch = true \/ ch = "-"%char).
    { apply orb_true_iff in Hd as [Hd|Hd]; [left; exact Hd | right; apply Ascii.eqb_eq, Hd]. }
    bind_inv H. destruct a.
    - bind_inv H. destruct a as [rc p]. bind_as H as s1 E1. injection H as <- _.
      destruct (rc =? 1)%Z; [exact Hs|]. destruct (rc =? 2)%Z; [exact Hs | exact I].
    - apply matched_kind in H as [->| ->]; [exact Hs | exact I]. }
  destruct (Ascii.eqb ch dquote) eqn:E1.
  { apply matched_kind in H as [->| ->]; [apply Ascii.eqb_eq, E1 | exact I]. }
  destruct (Ascii.eqb ch "t") eqn:E2.
  { apply matched_kind in H as [->| ->]; [apply Ascii.eqb_eq, E2 | exact I]. }
  destruct (Ascii.eqb ch "f") eqn:E3.
  { apply matched_kind in H as [->| ->]; [apply Ascii.eqb_eq, E3 | exact I]. }
  destruct (Ascii.eqb ch "n") eqn:E4.
  { apply matched_kind in H as [->| ->]; [apply Ascii.eqb_eq, E4 | exact I]. }
  repeat match type of H with
         | (if Ascii.eqb ch ?c then _ else _) = _ =>
             let E := fresh "E" in
             destruct (Ascii.eqb ch c) eqn:E;
             [injection H as <- _; apply Ascii.eqb_eq, E|]
         end.
  bind_as H as s1 Elog. injection H as <- _. exact I.
Qed.

(** When [getNextToken] returns, the kind of its token is decided by the
    byte it starts with: a bracket, brace, colon or comma token starts with
    that byte, a literal with its first letter, a string with a quotation
    mark, a number of either notation with a digit or a minus sign; the
    end-of-input token comes only at the end of the text, and the scanner
    makes no key and no syntactic-error token.  The token starts where
    [m_pos] was and ends at or before the new [m_pos], which is at most
    [m_end].  (The call does not return when an invalid token ends the
    text: [m_pos] is then moved behind [m_end].) *)
Theorem getNextToken_start (st st' : JsonParser.t) (tok : JsonToken.t) :
  JsonParser.getNextToken st = Ret (tok, st') ->
  JsonToken.data tok = JsonParser.m_pos st
  /\ JsonToken.data tok + JsonToken.length tok <= JsonParser.m_pos st'
  /\ (JsonParser.m_end st <= JsonParser.m_pos st ->
      JsonToken.type tok = JsonTokenType.JSON_EOF /\ JsonToken.length tok = 0)
  /\ (JsonParser.m_pos st < JsonParser.m_end st ->
      JsonParser.m_pos st' <= JsonParser.m_end st
      /\ exists ch, JsonParser.m_text st !! JsonParser.m_pos st = Some ch
                    /\ token_start (JsonToken.type tok) ch).
Proof.
  unfold JsonParser.getNextToken. intros H.
  destruct (JsonParser.m_end st <=? JsonParser.m_pos st) eqn:Hend.
  { injection H as <- <-. simpl. apply Nat.leb_le in Hend.
    repeat split; try lia. }
  apply Nat.leb_gt in Hend.
  bind_as H as ch E1. bind_as H as [type s1] E2. bind_as H as s2 E3. bind_as H as s3 E4.
  injection H as <- <-. simpl.
  pose proof (scan_token_start _ _ _ _ E2) as Hstart.
  apply scan_token_spec in E2 as ((T1 & _) & _ & P1 & _).
  assert (P2 : JsonParser.m_pos s1 <= JsonParser.m_pos s2 /\ JsonParser.m_text s2 = JsonParser.m_text s1).
  { destruct (JsonTokenType.eqb type JsonTokenType.INVALID).
    - bind_as E3 as p E5. injection E3 as <-. simpl.
      apply scan_while_mono in E5. split; [lia | reflexivity].
    - injection E3 as <-. split; [lia | reflexivity]. }
  destruct P2 as (P2 & T2).
  apply skipWhitespace_spec in E4 as ((T3 & _) & _ & P3 & P4).
  unfold JsonParser.m_end in *. rewrite T2, T1 in P4.
  split; [reflexivity|]. split; [lia|]. split; [lia|]. intros _. split; [lia|].
  exists ch. split; [|exact Hstart].
  unfold read in E1. destruct (JsonParser.m_text st !! JsonParser.m_pos st); [|discriminate].
  injection E1 as ->. reflexivity.
Qed.

Lemma getNextToken_start_witness :
  exists tok st',
    JsonParser.getNextToken (JsonParser.SetUp (json_text "-12.5e3 ,") []) = Ret (tok, st')
    /\ JsonToken.data tok = 0
    /\ JsonToken.data tok + JsonToken.length tok <= JsonParser.m_pos st'.
Proof.
  assert (H : exists tok st',
            JsonParser.getNextToken (JsonParser.SetUp (json_text "-12.5e3 ,") []) = Ret (tok, st'))
    by (eexists; eexists; vm_compute; reflexivity).
  destruct H as (tok & st' & H). exists tok, st'. split; [exact H|].
  destruct (getNextToken_start _ _ _ H) as (H1 & H2 & _).
  split; [exact H1 | exact H2].
Defined.

Lemma advance_start st st' :
  JsonParser.advance st = Ret st' -> JsonParser.m_pos st < JsonParser.m_end st ->
  exists ch, JsonParser.m_text st !! JsonParser.m_pos st = Some ch
             /\ token_start (JsonToken.type (JsonParser.m_currentToken st')) ch.
Proof.
  unfold JsonParser.advance, JsonParser.getNextToken. intros H Hend.
  apply Nat.leb_gt in Hend. rewrite Hend in H.
  bind_as H as [tok s] E. injection H as <-.
  bind_as E as ch E1. bind_as E as [type s1] E2. bind_as E as s2 E3. bind_as E as s3 E4.
  injection E as <- <-. simpl. exists ch. split; [|exact (scan_token_start _ _ _ _ E2)].
  unfold read in E1. destruct (JsonParser.m_text st !! JsonParser.m_pos st); [|discriminate].
  injection E1 as ->. reflexivity.
Qed.

Lemma span_len_app f (ws : bytes) c rest :
  Forall (fun ch => f ch = true) ws -> f c = false ->
  span_len f (ws ++ c :: rest) = List.length ws.
Proof.
  induction 1 as [|w ws Hw _ IH]; intros Hc; simpl.
  - rewrite Hc. reflexivity.
  - rewrite Hw, IH by assumption. reflexivity.
Qed.

Lemma span_len_all f (ws : bytes) :
  Forall (fun ch => f ch = true) ws -> span_len f ws = List.length ws.
Proof.
  induction 1 as [|w ws Hw _ IH]; simpl; [reflexivity|]. rewrite Hw, IH. reflexivity.
Qed.

(** [skipWhitespace] at the start of a text that begins with the
    whitespace [ws]. *)
Lemma skipWhitespace_leading st ws tail :
  JsonParser.m_text st = ws ++ tail -> JsonParser.m_pos st = 0 ->
  Forall (fun ch => JsonParser.isWhitespace ch = true) ws ->
  match tail with [] => True | c :: _ => JsonParser.isWhitespace c = false end ->
  exists st',
    JsonParser.skipWhitespace st = Ret st'
    /\ JsonParser.m_pos st' = List.length ws
    /\ builder_kept st st'.
Proof.
  intros Ht Hp Hws Htail. unfold JsonParser.skipWhitespace.
  rewrite Hp. cbn [Nat.ltb Nat.leb]. eexists. split; [reflexivity|]. simpl.
  split; [|repeat split]. rewrite Ht, drop_0.
  destruct tail as [|c rest].
  - rewrite app_nil_r. exact (span_len_all _ _ Hws).
  - exact (span_len_app _ _ _ _ Hws Htail).
Qed.

Lemma expect_result b msg st r st' : JsonParser.expect b msg st = Ret (r, st') -> r = b.
Proof.
  destruct b; intros H.
  - unfold JsonParser.expect in H. cbn [negb] in H. injection H as <- _. reflexivity.
  - apply expect_inv in H as (-> & _). reflexivity.
Qed.

Lemma expect_count b msg st r st' :
  JsonParser.expect b msg st = Ret (r, st') ->
  JsonParser.m_nodeCount st' <= JsonParser.m_nodeCount st + 1.
Proof.
  destruct b; intros H.
  - unfold JsonParser.expect in H. cbn [negb] in H. injection H as _ <-. lia.
  - apply expect_inv in H as (_ & ec & tok & log & b1 & E & _).
    apply pushNode_inv in E as [(_ & _ & node & _ & ->)|(_ & _ & ->)]; simpl; lia.
Qed.

(** A text whose first byte behind the leading whitespace opens neither an
    array nor an object - a bare number, string or literal, a closing
    bracket, a stray byte: a parse of it that returns has rejected it, and
    has stored at most the one node of the offending token. *)
Theorem Parse_rejects_other_roots (buffer : list JsonNode.t) (st st' : JsonParser.t)
    (ws rest : bytes) (c : ascii) :
  JsonParser.m_text st = ws ++ c :: rest ->
  Forall (fun ch => JsonParser.isWhitespace ch = true) ws ->
  JsonParser.isWhitespace c = false -> c <> "["%char -> c <> "{"%char ->
  JsonParser.Parse (Some buffer) st = Ret st' ->
  JsonParser.IsValid st' = false
  /\ (JsonParser.GetErrorCode st' = JsonErrorCode.SYNTACTIC_ERRORS
      \/ JsonParser.GetErrorCode st' = JsonErrorCode.INVALID_TOKENS
      \/ JsonParser.GetErrorCode st' = JsonErrorCode.CAPACITY_EXCEEDED)
  /\ JsonParser.GetCount st' <= 1.
Proof.
  intros Ht Hws Hc Hc1 Hc2. unfold JsonParser.Parse, JsonParser.GetErrorCode, JsonParser.GetCount.
  set (st0 := JsonParser.mk _ _ _ _ _ _ _ _).
  change (JsonParser.IsValid st0) with false. cbv iota.
  destruct (skipWhitespace_leading st0 ws (c :: rest) Ht eq_refl Hws Hc)
    as (st1 & -> & Hp1 & (T1 & _ & B1 & N1)).
  cbn [mbind outcome_bind].
  assert (Hin : JsonParser.m_pos st1 < JsonParser.m_end st1).
  { unfold JsonParser.m_end. rewrite Hp1, T1. simpl. rewrite Ht, length_app. simpl. lia. }
  replace (JsonParser.Parse_fuel st1)
    with (S (2 * (JsonParser.m_end st1 - JsonParser.m_pos st1) + 3))
    by (unfold JsonParser.Parse_fuel; lia).
  cbn [JsonParser.Parse_loop].
  apply Nat.ltb_lt in Hin as Hin'. rewrite Hin'. cbn [negb].
  intros H. bind_as H as [b s3] E. bind_as E as s2 E2.
  destruct (advance_start _ _ E2 (proj1 (Nat.ltb_lt _ _) Hin')) as (ch & Hch & Hstart).
  destruct (advance_kept _ _ E2) as ((B2 & N2) & _).
  assert (ch = c) as ->.
  { rewrite T1 in Hch. unfold st0 in Hch. cbn [JsonParser.m_text] in Hch.
    rewrite Ht, Hp1 in Hch. unfold bytes in *.
    rewrite list_lookup_middle in Hch by reflexivity.
    congruence. }
  assert (Hexp : JsonParser.token_is JsonTokenType.JSON_ARRAY_BEGIN s2
                 || JsonParser.token_is JsonTokenType.JSON_OBJECT_BEGIN s2 = false).
  { unfold JsonParser.token_is, JsonTokenType.eqb.
    destruct (JsonToken.type (JsonParser.m_currentToken s2)); try reflexivity;
      simpl in Hstart; congruence. }
  cbv zeta in E. rewrite Hexp in E.
  bind_as E as [r s4] E4.
  pose proof (expect_result _ _ _ _ _ E4) as ->. cbn [negb] in E. injection E as <- <-.
  pose proof (expect_false _ _ _ _ E4) as Hfailed.
  apply expect_count in E4.
  cbn [mbind outcome_bind] in H.
  apply logInvalidTokenPosition_inv in H as (log & ->).
  unfold failed in Hfailed. simpl.
  split; [|split; [exact Hfailed|]].
  - unfold JsonParser.IsValid. simpl. destruct Hfailed as [C|[C|C]]; rewrite C; reflexivity.
  - rewrite N2, N1 in E4. unfold st0 in E4. simpl in E4. lia.
Qed.

Lemma Parse_rejects_other_roots_witness :
  exists st',
    JsonParser.Parse (Some (replicate 4 (JsonNode.mk (string_view.mk 0 0) 0 JsonNodeType.INVALID None)))
      (JsonParser.SetUp (json_text " 'text' ") []) = Ret st'
    /\ JsonParser.IsValid st' = false
    /\ (JsonParser.GetErrorCode st' = JsonErrorCode.SYNTACTIC_ERRORS
        \/ JsonParser.GetErrorCode st' = JsonErrorCode.INVALID_TOKENS
        \/ JsonParser.GetErrorCode st' = JsonErrorCode.CAPACITY_EXCEEDED)
    /\ JsonParser.GetCount st' <= 1.
Proof.
  eexists. split; [vm_compute; reflexivity|].
  apply (Parse_rejects_other_roots
           (replicate 4 (JsonNode.mk (string_view.mk 0 0) 0 JsonNodeType.INVALID None))
           (JsonParser.SetUp (json_text " 'text' ") []) _
           [" "%char] (json_text "text' ") dquote).
  - reflexivity.
  - repeat constructor.
  - reflexivity.
  - discriminate.
  - discriminate.
  - vm_compute. reflexivity.
Defined.

(** The token for an opening bracket or brace. *)
Lemma advance_opens st st' ch :
  JsonParser.advance st = Ret st' ->
  JsonParser.m_text st !! JsonParser.m_pos st = Some ch ->
  (ch = "["%char -> JsonParser.token_is JsonTokenType.JSON_ARRAY_BEGIN st' = true)
  /\ (ch = "{"%char ->
      JsonParser.token_is JsonTokenType.JSON_ARRAY_BEGIN st' = false
      /\ JsonParser.token_is JsonTokenType.JSON_OBJECT_BEGIN st' = true).
Proof.
  unfold JsonParser.advance, JsonParser.getNextToken. intros H Hch.
  assert (Hend : (JsonParser.m_end st <=? JsonParser.m_pos st) = false).
  { apply Nat.leb_gt. apply lookup_lt_Some in Hch. exact Hch. }
  rewrite Hend in H. unfold read in H. rewrite Hch in H. cbn [mbind outcome_bind] in H.
  split.
  - intros ->.
    assert (Hscan : JsonParser.scan_token "[" st
                    = Ret (JsonTokenType.JSON_ARRAY_BEGIN,
                           JsonParser.with_pos (JsonParser.m_pos st + 1) st)) by reflexivity.
    rewrite Hscan in H. cbn [mbind outcome_bind] in H.
    change (JsonTokenType.eqb JsonTokenType.JSON_ARRAY_BEGIN JsonTokenType.INVALID) with false in H.
    cbn [mbind outcome_bind] in H.
    bind_as H as [tok s] E. injection H as <-.
    bind_as E as s3 E4. injection E as <- _. reflexivity.
  - intros ->.
    assert (Hscan : JsonParser.scan_token "{" st
                    = Ret (JsonTokenType.JSON_OBJECT_BEGIN,
                           JsonParser.with_pos (JsonParser.m_pos st + 1) st)) by reflexivity.
    rewrite Hscan in H. cbn [mbind outcome_bind] in H.
    change (JsonTokenType.eqb JsonTokenType.JSON_OBJECT_BEGIN JsonTokenType.INVALID) with false in H.
    cbn [mbind outcome_bind] in H.
    bind_as H as [tok s] E. injection H as <-.
    bind_as E as s3 E4. injection E as <- _. split; reflexivity.
Qed.

(** The end of [Parse] when the buffer is full. *)
Lemma Parse_finish_full b st2 st' :
  buffer_full st2 ->
  (b = false -> JsonParser.m_errorCode st2 = JsonErrorCode.CAPACITY_EXCEEDED) ->
  ((if b : bool then st ← JsonParser.advance st2; JsonParser.pushNode st else Ret (false, st2))
   ≫= (fun '(loop_result, st) =>
         if loop_result : bool then Ret (JsonParser.with_errorCode JsonErrorCode.VALID_JSON st)
         else JsonParser.logInvalidTokenPosition st)) = Ret st' ->
  JsonParser.m_errorCode st' = JsonErrorCode.CAPACITY_EXCEEDED /\ nodes_kept st2 st'.
Proof.
  intros F C H. destruct b.
  - bind_as H as [b3 st4] E3. bind_as E3 as st3 E4.
    destruct (advance_kept _ _ E4) as (K3 & _).
    pose proof (nodes_kept_full _ _ K3 F) as F3.
    destruct (pushNode_full_inv _ _ _ F3 E3) as (-> & K4 & C4).
    apply logInvalidTokenPosition_inv in H as (log & ->). simpl. split; [exact C4|].
    destruct K3 as [? ?], K4 as [? ?]. split; simpl; congruence.
  - cbn [mbind outcome_bind] in H.
    apply logInvalidTokenPosition_inv in H as (log & ->). simpl.
    split; [auto | split; reflexivity].
Qed.

(** A buffer of one slot holds the node of the opening bracket or brace and
    nothing more: whatever follows, a parse that returns ends with
    [CAPACITY_EXCEEDED] and a count of one; no parse ends with [VALID_JSON],
    as the [JSON_EOF] node finds no room. *)
Theorem Parse_one_slot (slot : JsonNode.t) (st st' : JsonParser.t)
    (ws rest : bytes) (c : ascii) :
  JsonParser.m_text st = ws ++ c :: rest ->
  Forall (fun ch => JsonParser.isWhitespace ch = true) ws ->
  c = "["%char \/ c = "{"%char ->
  JsonParser.Parse (Some [slot]) st = Ret st' ->
  JsonParser.GetErrorCode st' = JsonErrorCode.CAPACITY_EXCEEDED
  /\ JsonParser.GetCount st' = 1
  /\ exists root,
       JsonParser.m_nodeBuffer st' = [root] /\ JsonNode.IsComplex root = true
       /\ JsonNode.count root = 0.
Proof.
  intros Ht Hws Hc. unfold JsonParser.Parse, JsonParser.GetErrorCode, JsonParser.GetCount.
  set (st0 := JsonParser.mk _ _ _ _ _ _ _ _).
  change (JsonParser.IsValid st0) with false. cbv iota.
  assert (Hnws : JsonParser.isWhitespace c = false) by (destruct Hc as [->| ->]; reflexivity).
  destruct (skipWhitespace_leading st0 ws (c :: rest) Ht eq_refl Hws Hnws)
    as (st1 & -> & Hp1 & (T1 & _ & B1 & N1)).
  cbn [mbind outcome_bind].
  assert (Hch : JsonParser.m_text st1 !! JsonParser.m_pos st1 = Some c).
  { rewrite T1. unfold st0. cbn [JsonParser.m_text]. rewrite Ht, Hp1. unfold bytes in *.
    apply list_lookup_middle. reflexivity. }
  assert (Hin : (JsonParser.m_pos st1 <? JsonParser.m_end st1) = true).
  { apply Nat.ltb_lt. apply lookup_lt_Some in Hch. exact Hch. }
  replace (JsonParser.Parse_fuel st1)
    with (S (2 * (JsonParser.m_end st1 - JsonParser.m_pos st1) + 3))
    by (unfold JsonParser.Parse_fuel; lia).
  set (fuel := 2 * (JsonParser.m_end st1 - JsonParser.m_pos st1) + 3).
  cbn [JsonParser.Parse_loop]. rewrite Hin. cbn [negb].
  intros H. bind_as H as [b s6] E. bind_as E as s2 E2.
  destruct (advance_opens _ _ c E2 Hch) as (Ha & Ho).
  destruct (advance_kept _ _ E2) as ((B2 & N2) & _).
  assert (Hexp : JsonParser.token_is JsonTokenType.JSON_ARRAY_BEGIN s2
                 || JsonParser.token_is JsonTokenType.JSON_OBJECT_BEGIN s2 = true).
  { destruct Hc as [->| ->]; [rewrite Ha by reflexivity; reflexivity|].
    destruct Ho as (-> & ->); reflexivity. }
  cbv zeta in E. rewrite Hexp in E.
  bind_as E as [r s3] E3. pose proof (expect_result _ _ _ _ _ E3) as ->.
  apply expect_true in E3 as (_ & ->). cbn [negb] in E.
  bind_as E as [r4 s4] E4.
  assert (Hroot : exists root,
            s4 = JsonParser.with_nodes [root] 1 s2 /\ JsonNode.IsComplex root = true
            /\ JsonNode.count root = 0).
  { apply pushNode_inv in E4 as [(_ & _ & node & E4 & ->)|(_ & Hfull & _)].
    - unfold JsonParser.with_nodes. rewrite B2, N2, B1, N1. unfold st0. cbn.
      unfold JsonNode.of_token in E4. unfold JsonParser.token_is, JsonTokenType.eqb in Ha, Ho.
      destruct Hc as [->| ->].
      + specialize (Ha eq_refl). apply bool_decide_eq_true in Ha. rewrite Ha in E4.
        injection E4 as <-. eexists. split; [reflexivity|]. split; reflexivity.
      + destruct (Ho eq_refl) as (_ & Ho'). apply bool_decide_eq_true in Ho'. rewrite Ho' in E4.
        injection E4 as <-. eexists. split; [reflexivity|]. split; reflexivity.
    - unfold JsonParser.m_tokenCapacity in Hfull. rewrite B2, N2, B1, N1 in Hfull.
      unfold st0 in Hfull. simpl in Hfull. lia. }
  destruct Hroot as (root & -> & Hcx & Hcount).
  set (s4 := JsonParser.with_nodes [root] 1 s2) in *.
  assert (F4 : buffer_full s4) by exact (le_n 1).
  destruct (parse_stuck fuel) as (Sa & _ & So & _).
  bind_as E as [r5 s5] E5.
  assert (K5 : stuck s4 r5 s5).
  { destruct (JsonParser.token_is JsonTokenType.JSON_ARRAY_BEGIN s2); [exact (Sa _ _ _ F4 E5)|].
    destruct (JsonParser.token_is JsonTokenType.JSON_OBJECT_BEGIN s2); [exact (So _ _ _ F4 E5)|].
    injection E5 as <- <-. split; [apply nodes_kept_refl|]. split; [discriminate | reflexivity]. }
  destruct K5 as (K5 & C5 & _).
  pose proof (nodes_kept_full _ _ K5 F4) as F5.
  assert (K6 : nodes_kept s5 s6
               /\ (b = false -> JsonParser.m_errorCode s6 = JsonErrorCode.CAPACITY_EXCEEDED)).
  { destruct r5; cbn [negb] in E.
    - exact (Parse_loop_stuck _ _ _ _ F5 E).
    - injection E as <- <-. split; [apply nodes_kept_refl | intros _; apply C5; reflexivity]. }
  destruct K6 as (K6 & C6).
  pose proof (nodes_kept_full _ _ K6 F5) as F6.
  destruct (Parse_finish_full _ _ _ F6 C6 H) as (C & K).
  split; [exact C|].
  destruct K5 as [K5b K5c], K6 as [K6b K6c], K as [Kb Kc].
  split; [rewrite Kc, K6c, K5c; reflexivity|]. exists root. split; [|split; assumption].
  rewrite Kb, K6b, K5b. reflexivity.
Qed.

Lemma Parse_one_slot_witness :
  exists st',
    JsonParser.Parse (Some [JsonNode.mk (string_view.mk 0 0) 0 JsonNodeType.INVALID None])
      (JsonParser.SetUp (json_text " [1,2]") []) = Ret st'
    /\ JsonParser.GetErrorCode st' = JsonErrorCode.CAPACITY_EXCEEDED
    /\ JsonParser.GetCount st' = 1
    /\ exists root,
         JsonParser.m_nodeBuffer st' = [root] /\ JsonNode.IsComplex root = true
         /\ JsonNode.count root = 0.
Proof.
  eexists. split; [vm_compute; reflexivity|].
  apply (Parse_one_slot (JsonNode.mk (string_view.mk 0 0) 0 JsonNodeType.INVALID None)
           (JsonParser.SetUp (json_text " [1,2]") []) _
           [" "%char] (json_text "1,2]") "["%char).
  - reflexivity.
  - repeat constructor.
  - left. reflexivity.
  - vm_compute. reflexivity.
Defined.

(** ** Scanner: numbers in hexadecimal notation *)

Lemma span_len_stops f (ws rest : bytes) :
  Forall (fun ch => f ch = true) ws -> stops f rest ->
  span_len f (ws ++ rest) = List.length ws.
Proof.
  intros Hws Hrest. destruct rest as [|c rest].
  - rewrite app_nil_r. exact (span_len_all _ _ Hws).
  - exact (span_len_app _ _ _ _ Hws Hrest).
Qed.

Lemma drop_middle (pre : bytes) (mid tail : bytes) :
  drop (List.length pre + List.length mid) (pre ++ mid ++ tail) = tail.
Proof.
  rewrite app_assoc, <- length_app. apply drop_app_length.
Qed.

Lemma scan_token_hex st (pre hs rest : bytes) (d : ascii) :
  JsonParser.m_text st = pre ++ d :: "x"%char :: hs ++ rest ->
  JsonParser.m_pos st = List.length pre ->
  JsonParser.isDigit d = true \/ d = "-"%char ->
  Forall (fun ch => JsonParser.isHexDigit ch = true) hs -> stops JsonParser.isHexDigit rest ->
  JsonParser.scan_token d st
  = (let type :=
       if (Z.of_nat (List.length hs) mod 256 =? 8)%Z then JsonTokenType.JSON_FLOAT_HEX
       else if (Z.of_nat (List.length hs) mod 256 =? 16)%Z then JsonTokenType.JSON_DOUBLE_HEX
       else JsonTokenType.INVALID in
     st1 ← JsonParser.logInvalidTokenError type "floating point number in hexadecimal expected"
             (JsonParser.with_pos (List.length pre + 2 + List.length hs) st);
     Ret (type, st1)).
Proof.
  intros Ht Hp Hd Hhs Hrest.
  assert (Hlen : List.length (JsonParser.m_text st)
                 = List.length pre + 2 + List.length hs + List.length rest).
  { rewrite Ht, length_app. simpl. rewrite length_app. lia. }
  unfold JsonParser.scan_token.
  assert (Hfirst : JsonParser.isDigit d || Ascii.eqb d "-" = true).
  { destruct Hd as [->| ->]; [reflexivity | apply orb_true_r]. }
  rewrite Hfirst.
  assert (Hq : (JsonParser.m_pos st + 1 <? JsonParser.m_end st) = true).
  { apply Nat.ltb_lt. unfold JsonParser.m_end. lia. }
  rewrite Hq.
  assert (Hr1 : read (JsonParser.m_text st) (JsonParser.m_pos st + 1) = Ret "x"%char).
  { rewrite Ht, Hp. rewrite (snoc_cons pre d).
    replace (List.length pre + 1) with (List.length (pre ++ [d]))
      by (rewrite length_app; simpl; lia).
    apply read_middle. }
  rewrite Hr1. cbn [mbind outcome_bind]. change (Ascii.eqb "x" "x") with true. cbv iota.
  unfold JsonParser.matchFloatHex_at.
  assert (Hin : (List.length (JsonParser.m_text st) <? JsonParser.m_pos st + 2) = false).
  { apply Nat.ltb_ge. lia. }
  rewrite Hin.
  assert (Hdrop : drop (JsonParser.m_pos st + 2) (JsonParser.m_text st) = hs ++ rest).
  { rewrite Ht, Hp.
    change (pre ++ d :: "x"%char :: hs ++ rest) with (pre ++ [d; "x"%char] ++ hs ++ rest).
    exact (drop_middle pre [d; "x"%char] (hs ++ rest)). }
  rewrite Hdrop, (span_len_stops _ _ _ Hhs Hrest). cbn [mbind outcome_bind].
  cbv zeta. unfold u8. change (2 ^ 8)%Z with 256%Z. rewrite Hp.
  destruct (Z.of_nat (List.length hs) mod 256 =? 8)%Z eqn:E8.
  - change (1 =? 1)%Z with true. reflexivity.
  - destruct (Z.of_nat (List.length hs) mod 256 =? 16)%Z eqn:E16; reflexivity.
Qed.

(** A digit or a minus sign, an [x], and a run of hex digits.  When the
    number of digits - counted in a byte, so modulo 256 - is 8 the token is
    a float, when it is 16 a double, of the two bytes and the run; the byte
    before the [x] is not looked at any further.  Any other count makes the
    token invalid, and when the log has room for the message: if a byte
    follows the run, the invalid token takes in the run and that byte,
    whatever it is; if the run ends the text, the scanner steps over [m_end]
    and reads outside the text. *)
Theorem getNextToken_hex (st : JsonParser.t) (pre hs rest : bytes) (d : ascii) :
  JsonParser.m_text st = pre ++ d :: "x"%char :: hs ++ rest ->
  JsonParser.m_pos st = List.length pre ->
  JsonParser.isDigit d = true \/ d = "-"%char ->
  Forall (fun ch => JsonParser.isHexDigit ch = true) hs -> stops JsonParser.isHexDigit rest ->
  let count := (Z.of_nat (List.length hs) mod 256)%Z in
  (count = 8%Z ->
   exists st',
     JsonParser.getNextToken st
     = Ret (JsonToken.mk (List.length pre) (2 + List.length hs) JsonTokenType.JSON_FLOAT_HEX, st'))
  /\ (count = 16%Z ->
      exists st',
        JsonParser.getNextToken st
        = Ret (JsonToken.mk (List.length pre) (2 + List.length hs) JsonTokenType.JSON_DOUBLE_HEX,
               st'))
  /\ (count <> 8%Z -> count <> 16%Z ->
      List.length (JsonParser.m_errorLog st)
      + List.length (JsonParser.invalid_token_message (JsonParser.m_currentLine st)
                       (Some "floating point number in hexadecimal expected"))
      <= JsonParser.JSON_ERROR_MESSAGE_LENGTH ->
      (rest <> [] ->
       exists len st',
         JsonParser.getNextToken st
         = Ret (JsonToken.mk (List.length pre) len JsonTokenType.INVALID, st')
         /\ 2 + List.length hs + 1 <= len)
      /\ (rest = [] -> JsonParser.getNextToken st = Fault OutOfBounds)).
Proof.
  intros Ht Hp Hd Hhs Hrest count.
  assert (Hlen : List.length (JsonParser.m_text st)
                 = List.length pre + 2 + List.length hs + List.length rest).
  { rewrite Ht, length_app. simpl. rewrite length_app. lia. }
  assert (Hend : (JsonParser.m_end st <=? JsonParser.m_pos st) = false).
  { apply Nat.leb_gt. unfold JsonParser.m_end. lia. }
  assert (Hr0 : read (JsonParser.m_text st) (JsonParser.m_pos st) = Ret d).
  { rewrite Ht, Hp. apply read_middle. }
  pose proof (scan_token_hex st pre hs rest d Ht Hp Hd Hhs Hrest) as Hscan.
  cbv zeta in Hscan. fold count in Hscan.
  assert (Hvalid : forall ty,
            ty <> JsonTokenType.INVALID ->
            JsonParser.scan_token d st
            = Ret (ty, JsonParser.with_pos (List.length pre + 2 + List.length hs) st) ->
            exists st',
              JsonParser.getNextToken st
              = Ret (JsonToken.mk (List.length pre) (2 + List.length hs) ty, st')).
  { intros ty Hty Hs. unfold JsonParser.getNextToken.
    rewrite Hend, Hr0. cbn [mbind outcome_bind]. rewrite Hs. cbn [mbind outcome_bind].
    assert (Hne : JsonTokenType.eqb ty JsonTokenType.INVALID = false)
      by (apply bool_decide_eq_false; exact Hty).
    rewrite Hne. cbn [mbind outcome_bind].
    destruct (skipWhitespace_inside
                (JsonParser.with_pos (List.length pre + 2 + List.length hs) st))
      as [st' Hst']; [simpl; unfold JsonParser.m_end; simpl; lia|].
    rewrite Hst'. cbn [mbind outcome_bind]. exists st'. simpl. rewrite Hp.
    do 3 f_equal. lia. }
  split; [|split].
  - intros H8. apply Hvalid; [discriminate|]. rewrite Hscan.
    apply Z.eqb_eq in H8. rewrite H8. reflexivity.
  - intros H16. apply Hvalid; [discriminate|]. rewrite Hscan.
    assert (H8 : (count =? 8)%Z = false) by (apply Z.eqb_neq; lia).
    apply Z.eqb_eq in H16. rewrite H8, H16. reflexivity.
  - intros H8 H16 Hroom.
    apply Z.eqb_neq in H8, H16. rewrite H8, H16 in Hscan.
    unfold JsonParser.logInvalidTokenError in Hscan.
    change (JsonTokenType.eqb JsonTokenType.INVALID JsonTokenType.INVALID) with true in Hscan.
    cbv iota in Hscan.
    rewrite appendToErrorLog_room in Hscan by exact Hroom.
    cbn [mbind outcome_bind] in Hscan.
    unfold JsonParser.getNextToken.
    rewrite Hend, Hr0. cbn [mbind outcome_bind]. rewrite Hscan. cbn [mbind outcome_bind].
    change (JsonTokenType.eqb JsonTokenType.INVALID JsonTokenType.INVALID) with true.
    cbv iota.
    set (st1 := JsonParser.mk _ _ _ _ _ _ _ _).
    assert (Ht1 : JsonParser.m_text st1 = JsonParser.m_text st) by reflexivity.
    assert (Hp1 : JsonParser.m_pos st1 = List.length pre + 2 + List.length hs) by reflexivity.
    split.
    + intros Hne.
      assert (0 < List.length rest) by (destruct rest; [congruence | simpl; lia]).
      destruct (scan_while_inside (fun c => negb (JsonParser.isValid c)) (JsonParser.m_text st1)
                  (JsonParser.m_pos st1 + 1)) as (pos' & Hsw & Hle).
      { rewrite Hp1, Ht1. lia. }
      rewrite Hsw. cbn [mbind outcome_bind].
      destruct (skipWhitespace_inside (JsonParser.with_pos pos' st1)) as [st' Hst'].
      { unfold JsonParser.m_end.
        change (JsonParser.m_text (JsonParser.with_pos pos' st1)) with (JsonParser.m_text st1).
        change (JsonParser.m_pos (JsonParser.with_pos pos' st1)) with pos'. lia. }
      rewrite Hst'. cbn [mbind outcome_bind]. rewrite Hp.
      eexists _, st'. split; [reflexivity|].
      change (JsonParser.m_pos (JsonParser.with_pos pos' st1)) with pos'. lia.
    + intros ->. simpl in Hlen.
      unfold JsonParser.scan_while. rewrite Hp1, Ht1.
      assert (Hover : (List.length (JsonParser.m_text st)
                       <? List.length pre + 2 + List.length hs + 1) = true)
        by (apply Nat.ltb_lt; lia).
      rewrite Hover. reflexivity.
Qed.

Lemma getNextToken_hex_witness :
  (exists st',
     JsonParser.getNextToken (JsonParser.with_pos 1 (JsonParser.SetUp (json_text "[7x4048F5C3]") []))
     = Ret (JsonToken.mk 1 10 JsonTokenType.JSON_FLOAT_HEX, st'))
  /\ JsonParser.getNextToken (JsonParser.with_pos 1 (JsonParser.SetUp (json_text "[0x12") []))
     = Fault OutOfBounds.
Proof.
  split.
  - destruct (getNextToken_hex
                (JsonParser.with_pos 1 (JsonParser.SetUp (json_text "[7x4048F5C3]") []))
                (json_text "[") (json_text "4048F5C3") (json_text "]") "7"%char)
      as (H8 & _).
    + reflexivity.
    + reflexivity.
    + left. reflexivity.
    + repeat constructor.
    + reflexivity.
    + exact (H8 eq_refl).
  - destruct (getNextToken_hex
                (JsonParser.with_pos 1 (JsonParser.SetUp (json_text "[0x12") []))
                (json_text "[") (json_text "12") [] "0"%char)
      as (_ & _ & Hbad).
    + reflexivity.
    + reflexivity.
    + left. reflexivity.
    + repeat constructor.
    + exact I.
    + destruct Hbad as (_ & Hover).
      * vm_compute. discriminate.
      * vm_compute. discriminate.
      * vm_compute. lia.
      * exact (Hover eq_refl).
Defined.

(** ** Scanner: literals *)

Lemma matchLiteral_loop_matches (s : bytes) :
  forall (pre : bytes) c0 rest,
  JsonParser.matchLiteral_loop (pre ++ c0 :: s ++ rest) s (List.length pre)
  = Ret (true, List.length pre + List.length s).
Proof.
  induction s as [|c s IH]; intros pre c0 rest.
  - simpl. rewrite Nat.add_0_r. reflexivity.
  - cbn [JsonParser.matchLiteral_loop]. cbv zeta.
    assert (Hne : (S (List.length pre) =? List.length (pre ++ c0 :: (c :: s) ++ rest)) = false).
    { apply Nat.eqb_neq. rewrite length_app. simpl. lia. }
    rewrite Hne.
    replace (pre ++ c0 :: (c :: s) ++ rest) with ((pre ++ [c0]) ++ c :: s ++ rest)
      by (rewrite <- app_assoc; reflexivity).
    replace (S (List.length pre)) with (List.length (pre ++ [c0]))
      by (rewrite length_app; simpl; lia).
    rewrite read_middle. cbn [mbind outcome_bind].
    rewrite Ascii.eqb_refl. cbn [negb].
    rewrite IH. rewrite length_app. simpl. f_equal. f_equal. lia.
Qed.

(** The three literals are recognised by their letters alone: whatever
    byte follows the last letter, the token is the literal, four or five
    bytes long, and the rest of the text is left for the next token. *)
Theorem getNextToken_literal (st st' : JsonParser.t) (tok : JsonToken.t)
    (pre rest : bytes) (lit : string) (ty : JsonTokenType.t) :
  (lit = "true"%string /\ ty = JsonTokenType.JSON_TRUE)
  \/ (lit = "false"%string /\ ty = JsonTokenType.JSON_FALSE)
  \/ (lit = "null"%string /\ ty = JsonTokenType.JSON_NULL) ->
  JsonParser.m_text st = pre ++ list_ascii_of_string lit ++ rest ->
  JsonParser.m_pos st = List.length pre ->
  JsonParser.getNextToken st = Ret (tok, st') ->
  tok = JsonToken.mk (List.length pre) (String.length lit) ty.
Proof.
  intros Hlit Ht Hp H. unfold JsonParser.getNextToken in H.
  assert (Hshape : exists c0 s msg,
            list_ascii_of_string lit = c0 :: s /\ String.length lit = S (List.length s)
            /\ JsonParser.scan_token c0 st
               = JsonParser.matched
                   (JsonParser.matchLiteral_at (JsonParser.m_text st) (string_of_list_ascii s)
                      (JsonParser.m_pos st)) ty msg st
            /\ list_ascii_of_string (string_of_list_ascii s) = s
            /\ ty <> JsonTokenType.INVALID).
  { destruct Hlit as [(-> & ->)|[(-> & ->)|(-> & ->)]].
    - exists "t"%char, (list_ascii_of_string "rue"), "true expected"%string.
      repeat split; discriminate.
    - exists "f"%char, (list_ascii_of_string "alse"), "false expected"%string.
      repeat split; discriminate.
    - exists "n"%char, (list_ascii_of_string "ull"), "null expected"%string.
      repeat split; discriminate. }
  destruct Hshape as (c0 & s & msg & Hs & Hl & Hscan & Hround & Hty).
  rewrite Hs in Ht. cbn [app] in Ht.
  assert (Hend : (JsonParser.m_end st <=? JsonParser.m_pos st) = false).
  { apply Nat.leb_gt. unfold JsonParser.m_end. rewrite Ht, Hp, length_app. simpl. lia. }
  rewrite Hend in H.
  assert (Hr0 : read (JsonParser.m_text st) (JsonParser.m_pos st) = Ret c0).
  { rewrite Ht, Hp. apply read_middle. }
  rewrite Hr0 in H. cbn [mbind outcome_bind] in H.
  rewrite Hscan in H. unfold JsonParser.matched, JsonParser.matchLiteral_at in H.
  rewrite Hround, Ht, Hp, matchLiteral_loop_matches in H.
  cbn [mbind outcome_bind] in H. cbv zeta iota in H.
  assert (Hne : JsonTokenType.eqb ty JsonTokenType.INVALID = false).
  { unfold JsonTokenType.eqb. apply bool_decide_eq_false. exact Hty. }
  unfold JsonParser.logInvalidTokenError in H. rewrite Hne in H.
  cbn [mbind outcome_bind] in H. rewrite ?Hne in H. cbn [mbind outcome_bind] in H.
  bind_as H as s3 E3. injection H as <- _.
  cbn [JsonParser.m_pos JsonParser.with_pos]. rewrite Hl. f_equal. lia.
Qed.

Lemma getNextToken_literal_witness :
  exists st',
    JsonParser.getNextToken (JsonParser.with_pos 1 (JsonParser.SetUp (json_text "[nullx]") []))
    = Ret (JsonToken.mk 1 4 JsonTokenType.JSON_NULL, st').
Proof.
  assert (H : exists tok st',
            JsonParser.getNextToken
              (JsonParser.with_pos 1 (JsonParser.SetUp (json_text "[nullx]") []))
            = Ret (tok, st'))
    by (eexists; eexists; vm_compute; reflexivity).
  destruct H as (tok & st' & H). exists st'.
  assert (Htok : tok = JsonToken.mk (List.length (json_text "[")) (String.length "null")
                         JsonTokenType.JSON_NULL).
  { apply (getNextToken_literal
             (JsonParser.with_pos 1 (JsonParser.SetUp (json_text "[nullx]") []))
             st' tok (json_text "[") (json_text "x]") "null" JsonTokenType.JSON_NULL).
    - right. right. split; reflexivity.
    - reflexivity.
    - reflexivity.
    - exact H. }
  rewrite Htok in H. exact H.
Defined.

(** ** Codec: the integer readers on numbers in range *)

Lemma s64_small z : (- 2 ^ 63 <= z < 2 ^ 63)%Z -> s64 z = z.
Proof. intros H. unfold s64. rewrite Z.mod_small by lia. lia. Qed.

Lemma s64_shift z k : s64 (z + k * 2 ^ 64) = s64 z.
Proof.
  unfold s64. replace (z + k * 2 ^ 64 + 2 ^ 63)%Z with (z + 2 ^ 63 + k * 2 ^ 64)%Z by ring.
  rewrite Z.mod_add by lia. reflexivity.
Qed.

Lemma s64_step n d : s64 (s64 n * 10 + d) = s64 (n * 10 + d).
Proof.
  assert (H : exists q, s64 n = (n + q * 2 ^ 64)%Z).
  { unfold s64. exists (- ((n + 2 ^ 63) / 2 ^ 64))%Z.
    pose proof (Z.div_mod (n + 2 ^ 63) (2 ^ 64) ltac:(lia)). lia. }
  destruct H as (q & ->).
  replace ((n + q * 2 ^ 64) * 10 + d)%Z with (n * 10 + d + (q * 10) * 2 ^ 64)%Z by ring.
  apply s64_shift.
Qed.

Lemma to_s64_digits_value ds rest n :
  Forall (fun ch => isdigit ch = true) ds -> no_digit_ahead rest ->
  fst (to_s64_digits (ds ++ rest) (s64 n))
  = s64 (n * 10 ^ Z.of_nat (List.length ds) + decimal_value ds).
Proof.
  intros Hds Hrest. revert n.
  induction Hds as [|ch ds Hch Hds IH]; intros n.
  - simpl List.length. simpl decimal_value. rewrite Z.pow_0_r, Z.mul_1_r, Z.add_0_r.
    destruct rest as [|c rest]; [reflexivity|]. simpl in *. rewrite Hrest. reflexivity.
  - simpl to_s64_digits. rewrite Hch.
    assert (char_val ch = byte_val ch) as Hcv.
    { apply isdigit_range in Hch. unfold char_val.
      destruct (byte_val ch <? 128)%Z eqn:E; [reflexivity|]. apply Z.ltb_ge in E. lia. }
    pose proof (isdigit_range ch Hch) as Hr.
    rewrite Hcv. rewrite (s64_small (byte_val ch - 48)) by lia.
    rewrite s64_step.
    specialize (IH (n * 10 + (byte_val ch - 48))%Z).
    destruct (to_s64_digits (ds ++ rest) _) as [n' k]. simpl in IH |- *. rewrite IH.
    f_equal. simpl List.length. simpl decimal_value.
    rewrite Nat2Z.inj_succ, Z.pow_succ_r by lia. ring.
Qed.

(** The integer readers on numbers they can hold.  A run of digits that is
    followed by no further digit is read in full and as the number it
    denotes when it has at most 20 digits and denotes at most [2^64 - 1],
    for [to_u64], or at most 19 digits and at most [2^63 - 1], for [to_s64],
    there also behind a minus sign; the count returned is the number of bytes
    read, sign included.  (A minus sign with no digit behind it counts as one
    byte read, with the value 0.)  The bound on the digits is the code's own:
    a longer run is turned down with the count 0 also when leading zeros make
    it denote a small number. *)
Theorem integer_readers_accept (ds rest : bytes) :
  Forall (fun ch => isdigit ch = true) ds -> no_digit_ahead rest ->
  (List.length ds <= 20 -> (decimal_value ds <= 2 ^ 64 - 1)%Z ->
   to_u64 (ds ++ rest) = Ret (List.length ds, decimal_value ds))
  /\ (20 < List.length ds -> to_u64 (ds ++ rest) = Ret (0, u64 (decimal_value ds)))
  /\ (ds <> [] -> List.length ds <= 19 -> (decimal_value ds <= 2 ^ 63 - 1)%Z ->
      to_s64 (ds ++ rest) = Ret (List.length ds, decimal_value ds))
  /\ (19 < List.length ds -> (decimal_value ds <= 2 ^ 63 - 1)%Z ->
      to_s64 (ds ++ rest) = Ret (0, decimal_value ds))
  /\ (List.length ds <= 19 -> (decimal_value ds <= 2 ^ 63 - 1)%Z ->
      to_s64 ("-"%char :: ds ++ rest) = Ret (1 + List.length ds, (- decimal_value ds)%Z)).
Proof.
  intros Hds Hrest.
  pose proof (decimal_value_bounds ds Hds) as B.
  pose proof (to_s64_digits_count ds rest 0 Hds Hrest) as Hk.
  pose proof (to_s64_digits_value ds rest 0 Hds Hrest) as Hn.
  change (s64 0) with 0%Z in Hn. rewrite Z.mul_0_l, Z.add_0_l in Hn.
  assert (Hfirst : ds <> [] ->
            exists d s, ds ++ rest = d :: s /\ Ascii.eqb d "-" = false).
  { intros Hne. destruct ds as [|d ds']; [congruence|].
    exists d, (ds' ++ rest). split; [reflexivity|].
    inversion Hds as [|? ? Hx _]; subst. apply isdigit_range in Hx.
    destruct (Ascii.eqb_spec d "-") as [->|];
      [change (byte_val "-") with 45%Z in Hx; lia | reflexivity]. }
  split; [|split; [|split; [|split]]].
  - intros Hlen Hv. exact (to_u64_accepts ds rest Hds Hrest Hlen Hv).
  - intros Hlen.
    pose proof (to_u64_digits_count ds rest 0 Hds Hrest) as Hk'.
    pose proof (to_u64_digits_value ds rest 0 Hds Hrest) as Hn'.
    unfold to_u64. change (u64 0) with 0%Z in Hn'.
    destruct (to_u64_digits (ds ++ rest) 0) as [n k]. simpl in Hk', Hn'. subst k n.
    rewrite Z.mul_0_l, Z.add_0_l.
    apply Nat.ltb_lt in Hlen. rewrite Hlen. reflexivity.
  - intros Hne Hlen Hv.
    destruct (Hfirst Hne) as (d & s & Hs & Hd).
    rewrite Hs in Hk, Hn |- *. rewrite (to_s64_unsigned d s Hd).
    destruct (to_s64_digits (d :: s) 0) as [n k]. simpl in Hk, Hn. subst k n.
    rewrite s64_small by lia.
    destruct (19 <? List.length ds) eqn:E; [apply Nat.ltb_lt in E; lia|].
    destruct (List.length ds =? 19) eqn:E19; [|reflexivity].
    apply Nat.eqb_eq in E19.
    destruct (memcmp_digits ds (list_ascii_of_string "9223372036854775807") rest []
                Hds (digits_of_literal "9223372036854775807" eq_refl)) as (c & Hc & Hiff);
      [rewrite E19; reflexivity|].
    rewrite E19 in Hc. rewrite app_nil_r in Hc. rewrite Hs in Hc. rewrite Hc. simpl.
    destruct (0 <? c)%Z eqn:Ec; [|reflexivity].
    apply Z.ltb_lt in Ec. apply Hiff in Ec. vm_compute decimal_value in Ec at 1. lia.
  - intros Hlen Hv.
    assert (Hne : ds <> []) by (destruct ds; [simpl in Hlen; lia | discriminate]).
    destruct (Hfirst Hne) as (d & s & Hs & Hd).
    rewrite Hs in Hk, Hn |- *. rewrite (to_s64_unsigned d s Hd).
    destruct (to_s64_digits (d :: s) 0) as [n k]. simpl in Hk, Hn. subst k n.
    rewrite s64_small by lia.
    apply Nat.ltb_lt in Hlen. rewrite Hlen. reflexivity.
  - intros Hlen Hv. rewrite to_s64_signed.
    destruct (to_s64_digits (ds ++ rest) 0) as [n k]. simpl in Hk, Hn. subst k n.
    assert (Hval : s64 (- s64 (decimal_value ds)) = (- decimal_value ds)%Z).
    { rewrite (s64_small (decimal_value ds)) by lia. apply s64_small. lia. }
    rewrite Hval.
    destruct (20 <? 1 + List.length ds) eqn:E; [apply Nat.ltb_lt in E; lia|].
    destruct (1 + List.length ds =? 20) eqn:E20; [|reflexivity].
    apply Nat.eqb_eq in E20.
    assert (H19 : List.length ds = 19) by lia.
    destruct (memcmp_digits ds (list_ascii_of_string "9223372036854775808") rest []
                Hds (digits_of_literal "9223372036854775808" eq_refl)) as (c & Hc & Hiff);
      [rewrite H19; reflexivity|].
    rewrite H19 in Hc. rewrite app_nil_r in Hc.
    change (memcmp ("-"%char :: ds ++ rest) (list_ascii_of_string "-9223372036854775808") 20)
      with (r ← memcmp (ds ++ rest) (list_ascii_of_string "9223372036854775808") 19;
            Ret (if (byte_val "-" <? byte_val "-")%Z then (-1)%Z
                 else if (byte_val "-" <? byte_val "-")%Z then 1%Z else r)).
    rewrite Hc. simpl.
    destruct (0 <? c)%Z eqn:Ec; [|reflexivity].
    apply Z.ltb_lt in Ec. apply Hiff in Ec. vm_compute decimal_value in Ec at 1. lia.
Qed.

Lemma integer_readers_accept_witness :
  to_u64 (list_ascii_of_string "18446744073709551615" ++ list_ascii_of_string ",")
    = Ret (20, 18446744073709551615%Z)
  /\ to_u64 (list_ascii_of_string "000000000000000000001" ++ []) = Ret (0, 1%Z)
  /\ to_s64 ("-"%char :: list_ascii_of_string "42" ++ list_ascii_of_string ".5")
     = Ret (3, (-42)%Z).
Proof.
  split; [|split].
  - apply (integer_readers_accept (list_ascii_of_string "18446744073709551615")
             (list_ascii_of_string ",")).
    + apply (digits_of_literal "18446744073709551615"). reflexivity.
    + reflexivity.
    + simpl. lia.
    + vm_compute. discriminate.
  - destruct (integer_readers_accept (list_ascii_of_string "000000000000000000001") [])
      as (_ & Hlong & _).
    + apply (digits_of_literal "000000000000000000001"). reflexivity.
    + exact I.
    + apply Hlong. simpl. lia.
  - apply (integer_readers_accept (list_ascii_of_string "42") (list_ascii_of_string ".5")).
    + apply (digits_of_literal "42"). reflexivity.
    + reflexivity.
    + simpl. lia.
    + vm_compute. discriminate.
Defined.

(** ** Codec: the hexadecimal readers *)

Lemma hex_digit_of_nibble n :
  (0 <= n < 16)%Z -> hex_digit_to_u32 (nibble_char n) = Ret n.
Proof.
  intros H. rewrite <- (Z2Nat.id n) by lia.
  assert (Hk : Z.to_nat n < 16) by lia. revert Hk.
  generalize (Z.to_nat n) as k. intros k Hk.
  do 16 (destruct k as [|k]; [vm_compute; reflexivity|]). lia.
Qed.

Lemma u32_step x d p w :
  u32 (u32 (x * 16 + d) * p + w) = u32 (x * (16 * p) + (d * p + w)).
Proof.
  unfold u32. rewrite Z.add_mod, Z.mul_mod_idemp_l, <- Z.add_mod by lia.
  f_equal. ring.
Qed.

Lemma u32_range z : (0 <= u32 z < 2 ^ 32)%Z.
Proof. unfold u32. apply Z.mod_pos_bound. lia. Qed.

Lemma nibble_range w k :
  (0 <= w < 16 ^ Z.of_nat (S k))%Z ->
  (0 <= w / 16 ^ Z.of_nat k < 16)%Z /\ (0 <= w mod 16 ^ Z.of_nat k < 16 ^ Z.of_nat k)%Z.
Proof.
  intros H. rewrite Nat2Z.inj_succ, Z.pow_succ_r in H by lia.
  assert (0 < 16 ^ Z.of_nat k)%Z by (apply Z.pow_pos_nonneg; lia).
  split.
  - split; [apply Z.div_pos; lia|]. apply Z.div_lt_upper_bound; lia.
  - apply Z.mod_pos_bound. lia.
Qed.

Lemma hex_accumulate_encode k :
  forall w rest x, (0 <= w < 16 ^ Z.of_nat k)%Z -> (0 <= x < 2 ^ 32)%Z ->
  hex_accumulate_u32 k (hex_encode k w ++ rest) x = Ret (u32 (x * 16 ^ Z.of_nat k + w)).
Proof.
  induction k as [|k IH]; intros w rest x Hw Hx.
  - simpl in *. replace w with 0%Z by lia. rewrite Z.mul_1_r, Z.add_0_r.
    unfold u32. rewrite Z.mod_small by lia. reflexivity.
  - destruct (nibble_range w k Hw) as (Hd & Hm).
    cbn [hex_accumulate_u32 hex_encode app]. unfold read. cbn [lookup list_lookup].
    cbn [mbind outcome_bind]. rewrite (hex_digit_of_nibble _ Hd). cbn [mbind outcome_bind].
    cbn [drop]. rewrite (IH _ rest _ Hm (u32_range _)).
    rewrite u32_step. f_equal. f_equal.
    rewrite Nat2Z.inj_succ, Z.pow_succ_r by lia.
    pose proof (Z.div_mod w (16 ^ Z.of_nat k)) as E.
    assert (0 < 16 ^ Z.of_nat k)%Z by (apply Z.pow_pos_nonneg; lia).
    specialize (E ltac:(lia)). lia.
Qed.

(** The hexadecimal readers against an encoder.  [hex_to_float] gives back
    the 32-bit pattern that was written with eight hex digits, whatever the
    two bytes in front of the digits are; [hex_to_double] accumulates its
    sixteen digits in a 32-bit number as well, so of a 64-bit pattern only
    the low half comes back - the upper eight digits have no effect on the
    result, whose upper half is whatever lies behind the accumulator. *)
Theorem hex_readers_decode (a b : ascii) (rest : bytes) (adjacent : Z) :
  (forall w, (0 <= w < 2 ^ 32)%Z ->
     hex_to_float (a :: b :: hex_encode 8 w ++ rest) = Ret w)
  /\ (forall w, (0 <= w < 2 ^ 64)%Z ->
       hex_to_double adjacent (a :: b :: hex_encode 16 w ++ rest)
       = Ret (w mod 2 ^ 32 + 2 ^ 32 * u32 adjacent)%Z).
Proof.
  split; intros w Hw.
  - unfold hex_to_float.
    change (drop 2 (a :: b :: hex_encode 8 w ++ rest)) with (hex_encode 8 w ++ rest).
    rewrite hex_accumulate_encode by (change (16 ^ Z.of_nat 8)%Z with (2 ^ 32)%Z; lia).
    rewrite Z.mul_0_l, Z.add_0_l. unfold u32. rewrite Z.mod_small by lia. reflexivity.
  - unfold hex_to_double.
    change (drop 2 (a :: b :: hex_encode 16 w ++ rest)) with (hex_encode 16 w ++ rest).
    rewrite hex_accumulate_encode by (change (16 ^ Z.of_nat 16)%Z with (2 ^ 64)%Z; lia).
    cbn [mbind outcome_bind]. rewrite Z.mul_0_l, Z.add_0_l. reflexivity.
Qed.

(** ** Codec: the string transcoder *)

Lemma utf8_measure_encode cp :
  (cp <? 1114112)%Z = true -> utf8_measure cp = List.length (utf8_encode cp).
Proof.
  intros H. apply Z.ltb_lt in H. unfold utf8_measure, utf8_encode.
  destruct (cp <? 128)%Z eqn:E1.
  { apply Z.ltb_lt in E1.
    destruct (128 <=? cp)%Z eqn:F1; [apply Z.leb_le in F1; lia|].
    destruct (2048 <=? cp)%Z eqn:F2; [apply Z.leb_le in F2; lia|].
    destruct (65536 <=? cp)%Z eqn:F3; [apply Z.leb_le in F3; lia|]. reflexivity. }
  apply Z.ltb_ge in E1. destruct (128 <=? cp)%Z eqn:F1; [|apply Z.leb_gt in F1; lia].
  destruct (cp <? 2048)%Z eqn:E2.
  { apply Z.ltb_lt in E2.
    destruct (2048 <=? cp)%Z eqn:F2; [apply Z.leb_le in F2; lia|].
    destruct (65536 <=? cp)%Z eqn:F3; [apply Z.leb_le in F3; lia|]. reflexivity. }
  apply Z.ltb_ge in E2. destruct (2048 <=? cp)%Z eqn:F2; [|apply Z.leb_gt in F2; lia].
  destruct (cp <? 65536)%Z eqn:E3.
  { apply Z.ltb_lt in E3.
    destruct (65536 <=? cp)%Z eqn:F3; [apply Z.leb_le in F3; lia|]. reflexivity. }
  apply Z.ltb_ge in E3. destruct (65536 <=? cp)%Z eqn:F3; [|apply Z.leb_gt in F3; lia].
  destruct (cp <? 1114112)%Z eqn:E4; [reflexivity|]. apply Z.ltb_ge in E4. lia.
Qed.

Lemma utf8_encode_length cp : List.length (utf8_encode cp) <= 4.
Proof.
  unfold utf8_encode.
  repeat match goal with |- context [if ?c then _ else _] => destruct c end; simpl; lia.
Qed.

Lemma hex4_asserted_range k src length p acc cp p' :
  hex4_asserted k src length p acc = Ret (cp, p') ->
  p' = p + k /\ (0 < k -> p' <= length).
Proof.
  revert p acc. induction k as [|k IH]; intros p acc H.
  - injection H as _ <-. split; lia.
  - cbn [hex4_asserted] in H.
    destruct (p <? length) eqn:E; [|discriminate]. apply Nat.ltb_lt in E.
    cbn [JSON_ASSERT mbind outcome_bind] in H.
    bind_as H as ch E1. bind_as H as d E2.
    apply IH in H as (-> & Hk). split; [lia|]. intros _.
    destruct k; [lia|]. specialize (Hk ltac:(lia)). lia.
Qed.

(** The two modes of the loop run in step. *)
Lemma json_string_to_utf8_loop_modes fuel src length :
  forall p w0 l0 l1,
  match json_string_to_utf8_loop fuel true src length p w0 l0,
        json_string_to_utf8_loop fuel false src length p [] l1 with
  | Ret (w, l), Ret (w', l') =>
      w' = [] /\ l = l0 /\ exists added, w = w0 ++ added /\ l' = l1 + List.length added
  | Fault f, Fault f' => f = f'
  | _, _ => False
  end.
Proof.
  induction fuel as [|fuel IH]; intros p w0 l0 l1; [reflexivity|].
  cbn [json_string_to_utf8_loop].
  destruct (negb (p <? length)).
  { split; [reflexivity|]. split; [reflexivity|]. exists []. rewrite app_nil_r. split; [reflexivity|].
    simpl. lia. }
  destruct (read src p) as [ch|f]; cbn [mbind outcome_bind]; [|reflexivity].
  assert (Hone : forall q b,
    match json_string_to_utf8_loop fuel true src length q (w0 ++ [b]) l0,
          json_string_to_utf8_loop fuel false src length q [] (S l1) with
    | Ret (w, l), Ret (w', l') =>
        w' = [] /\ l = l0 /\ exists added, w = w0 ++ added /\ l' = l1 + List.length added
    | Fault f, Fault f' => f = f'
    | _, _ => False
    end).
  { intros q b. specialize (IH q (w0 ++ [b]) l0 (S l1)).
    destruct (json_string_to_utf8_loop fuel true src length q (w0 ++ [b]) l0) as [[w l]|f];
      destruct (json_string_to_utf8_loop fuel false src length q [] (S l1)) as [[w' l']|f'];
      try exact IH.
    destruct IH as (-> & -> & added & -> & ->).
    split; [reflexivity|]. split; [reflexivity|]. exists (b :: added).
    rewrite <- app_assoc. split; [reflexivity|]. simpl. lia. }
  destruct (Ascii.eqb ch backslash); [|apply Hone].
  destruct (read src (S p)) as [ch1|f]; cbn [mbind outcome_bind]; [|reflexivity].
  destruct (Ascii.eqb ch1 backslash || Ascii.eqb ch1 "/" || Ascii.eqb ch1 dquote); [apply Hone|].
  destruct (Ascii.eqb ch1 "u").
  - destruct (hex4_asserted 4 src length (S (S p)) 0) as [[cp p3]|f];
      cbn [mbind outcome_bind]; [|reflexivity].
    destruct (if (55296 <=? cp)%Z && (cp <=? 56319)%Z
              then '(extra, p0) ← hex4_asserted 4 src length (p3 + 2) 0;
                   Ret (u32 (u32 (Z.shiftl (u32 (cp - 55296)) 10) + u32 (cp - 56320) + 65536), p0)
              else Ret (cp, p3)) as [[cp' p4]|f]; cbn [mbind outcome_bind]; [|reflexivity].
    destruct (cp' <? 1114112)%Z eqn:Hcp; cbn [JSON_ASSERT mbind outcome_bind]; [|reflexivity].
    specialize (IH p4 (w0 ++ utf8_encode cp') l0 (l1 + utf8_measure cp')).
    destruct (json_string_to_utf8_loop fuel true src length p4 (w0 ++ utf8_encode cp') l0)
      as [[w l]|f];
      destruct (json_string_to_utf8_loop fuel false src length p4 [] (l1 + utf8_measure cp'))
        as [[w' l']|f']; try exact IH.
    destruct IH as (-> & -> & added & -> & ->).
    split; [reflexivity|]. split; [reflexivity|]. exists (utf8_encode cp' ++ added).
    rewrite <- app_assoc. split; [reflexivity|].
    rewrite length_app, (utf8_measure_encode _ Hcp). lia.
  - destruct (escape_byte ch1) as [b|]; [apply Hone | reflexivity].
Qed.

(** What the loop stores is bounded by what is left of the source. *)
Lemma json_string_to_utf8_loop_bound fuel out src length :
  forall p w0 l0 w l,
  json_string_to_utf8_loop fuel out src length p w0 l0 = Ret (w, l) ->
  List.length w + l <= List.length w0 + l0 + (length - p).
Proof.
  induction fuel as [|fuel IH]; intros p w0 l0 w l H; [discriminate|].
  cbn [json_string_to_utf8_loop] in H.
  destruct (negb (p <? length)) eqn:Hp.
  { injection H as <- <-. lia. }
  apply negb_false_iff, Nat.ltb_lt in Hp.
  assert (Hone : forall q b,
    S p <= q ->
    (if out then json_string_to_utf8_loop fuel out src length q (w0 ++ [b]) l0
     else json_string_to_utf8_loop fuel out src length q w0 (S l0)) = Ret (w, l) ->
    List.length w + l <= List.length w0 + l0 + (length - p)).
  { intros q b Hq Hr. destruct out; apply IH in Hr; [rewrite length_app in Hr; simpl in Hr|]; lia. }
  bind_as H as ch E0.
  destruct (Ascii.eqb ch backslash); [|apply (Hone (S p) ch); [lia | exact H]].
  bind_as H as ch1 E1.
  destruct (Ascii.eqb ch1 backslash || Ascii.eqb ch1 "/" || Ascii.eqb ch1 dquote);
    [apply (Hone (S (S p)) ch1); [lia | exact H]|].
  destruct (Ascii.eqb ch1 "u").
  - bind_as H as [cp p3] E2. apply hex4_asserted_range in E2 as (-> & Hp3).
    specialize (Hp3 ltac:(lia)).
    bind_as H as [cp' p4] E3.
    assert (Hp4 : S (S p) + 4 <= p4 <= length).
    { destruct ((55296 <=? cp)%Z && (cp <=? 56319)%Z).
      - bind_as E3 as [extra p5] E4. injection E3 as _ <-.
        apply hex4_asserted_range in E4 as (-> & Hp5). specialize (Hp5 ltac:(lia)). lia.
      - injection E3 as _ <-. lia. }
    bind_as H as u E5.
    pose proof (utf8_encode_length cp') as Hlen.
    assert (Hm : utf8_measure cp' <= 4).
    { unfold utf8_measure.
      repeat match goal with |- context [if ?c then _ else _] => destruct c end; lia. }
    destruct out; apply IH in H; [rewrite length_app in H|]; lia.
  - destruct (escape_byte ch1) as [b|]; [|discriminate].
    apply (Hone (S (S p)) b); [lia | exact H].
Qed.

Lemma read_fault (s : bytes) i f : read s i = Fault f -> f = OutOfBounds.
Proof. unfold read. destruct (s !! i); [discriminate|]. intros [= <-]. reflexivity. Qed.

Lemma read_lt (s : bytes) i ch : read s i = Ret ch -> i < List.length s.
Proof.
  unfold read. destruct (s !! i) eqn:E; [|discriminate]. intros _.
  apply lookup_lt_Some in E. exact E.
Qed.

Lemma hex4_fault k src length p acc f :
  hex4_asserted k src length p acc = Fault f -> f <> OutOfFuel.
Proof.
  revert p acc. induction k as [|k IH]; intros p acc H; [discriminate|].
  cbn [hex4_asserted] in H.
  destruct (p <? length); cbn [JSON_ASSERT mbind outcome_bind] in H;
    [|injection H as <-; discriminate].
  unfold read in H. destruct (src !! p) as [ch|]; cbn [mbind outcome_bind] in H;
    [|injection H as <-; discriminate].
  unfold hex_digit_to_u32 in H.
  repeat match type of H with
    | context [if ?c then _ else _] => destruct c; cbn [mbind outcome_bind] in H
    end; try (injection H as <-; discriminate); eauto.
Qed.

(** Every round of the loop reads a byte of the source further on. *)
Lemma json_string_to_utf8_loop_fueled fuel out src length :
  forall p w0 l0, List.length src - p < fuel ->
  fueled (json_string_to_utf8_loop fuel out src length p w0 l0).
Proof.
  induction fuel as [|fuel IH]; intros p w0 l0 Hf; [lia|].
  cbn [json_string_to_utf8_loop].
  destruct (negb (p <? length)); [apply fueled_ret|].
  destruct (read src p) as [ch|f] eqn:Hch; cbn [mbind outcome_bind];
    [|apply read_fault in Hch as ->; apply fueled_fault; discriminate].
  apply read_lt in Hch.
  assert (Hnext : forall q w1 l1, S p <= q ->
            fueled (json_string_to_utf8_loop fuel out src length q w1 l1)).
  { intros q w1 l1 Hq. apply IH. lia. }
  assert (Hone : forall q b, S p <= q ->
            fueled (if out then json_string_to_utf8_loop fuel out src length q (w0 ++ [b]) l0
                    else json_string_to_utf8_loop fuel out src length q w0 (S l0))).
  { intros q b Hq. destruct out; apply Hnext; exact Hq. }
  destruct (Ascii.eqb ch backslash); [|apply Hone; lia].
  destruct (read src (S p)) as [ch1|f] eqn:E1; cbn [mbind outcome_bind];
    [|apply read_fault in E1 as ->; apply fueled_fault; discriminate].
  destruct (Ascii.eqb ch1 backslash || Ascii.eqb ch1 "/" || Ascii.eqb ch1 dquote);
    [apply Hone; lia|].
  destruct (Ascii.eqb ch1 "u").
  - destruct (hex4_asserted 4 src length (S (S p)) 0) as [[cp p3]|f] eqn:E2;
      cbn [mbind outcome_bind]; [|apply hex4_fault in E2; apply fueled_fault; exact E2].
    apply hex4_asserted_range in E2 as (-> & _).
    destruct ((55296 <=? cp)%Z && (cp <=? 56319)%Z).
    + destruct (hex4_asserted 4 src length (S (S p) + 4 + 2) 0) as [[extra p5]|f] eqn:E4;
        cbn [mbind outcome_bind]; [|apply hex4_fault in E4; apply fueled_fault; exact E4].
      apply hex4_asserted_range in E4 as (-> & _).
      destruct (_ <? 1114112)%Z; cbn [JSON_ASSERT mbind outcome_bind];
        [|apply fueled_fault; discriminate].
      destruct out; apply Hnext; lia.
    + cbn [mbind outcome_bind].
      destruct (_ <? 1114112)%Z; cbn [JSON_ASSERT mbind outcome_bind];
        [|apply fueled_fault; discriminate].
      destruct out; apply Hnext; lia.
  - destruct (escape_byte ch1) as [b|]; [apply Hone; lia | apply fueled_fault; discriminate].
Qed.

(** The two uses of [json_string_to_utf8] agree, and the result fits.  With
    a destination the function returns the number of bytes it stored;
    without one it stores nothing and returns the same number, so that a
    buffer sized by a first call is filled exactly by the second; and where
    one call stops at a failed assertion or reads outside the source, the
    other one does as well.  The number is never larger than the length that
    was passed in: the transcoded string fits where the source did. *)
Theorem json_string_to_utf8_modes (src : bytes) (length : nat) :
  finishes (json_string_to_utf8 true src length) = true
  /\ match json_string_to_utf8 true src length, json_string_to_utf8 false src length with
     | Ret (w, k), Ret (w', k') => w' = [] /\ k' = k /\ k = List.length w /\ k <= length
     | Fault f, Fault f' => f = f'
     | _, _ => False
     end.
Proof.
  unfold json_string_to_utf8.
  pose proof (json_string_to_utf8_loop_modes (S (List.length src)) src length 0 [] 0 0) as M.
  pose proof (json_string_to_utf8_loop_bound (S (List.length src)) true src length 0 [] 0) as B.
  pose proof (json_string_to_utf8_loop_fueled (S (List.length src)) true src length 0 [] 0
                ltac:(lia)) as F.
  destruct (json_string_to_utf8_loop (S (List.length src)) true src length 0 [] 0) as [[w l]|f];
    destruct (json_string_to_utf8_loop (S (List.length src)) false src length 0 [] 0)
      as [[w' l']|f']; cbn [mbind outcome_bind]; try (exfalso; exact M).
  - split; [reflexivity|].
    destruct M as (-> & -> & added & -> & ->). specialize (B _ _ eq_refl).
    simpl in *. repeat split; lia.
  - split; [|exact M]. apply finishes_fueled. exact F.
Qed.

Lemma json_string_to_utf8_loop_escape (s : bytes) :
  forall fuel (pre rest w0 : bytes) l0,
  List.length s < fuel ->
  json_string_to_utf8_loop fuel true (pre ++ json_escape s ++ rest)
    (List.length pre + List.length (json_escape s)) (List.length pre) w0 l0
  = Ret (w0 ++ s, l0).
Proof.
  induction s as [|ch s IH]; intros fuel pre rest w0 l0 Hf.
  - destruct fuel as [|fuel]; [simpl in Hf; lia|].
    cbn [json_string_to_utf8_loop json_escape flat_map List.length app].
    rewrite Nat.add_0_r, Nat.ltb_irrefl. cbn [negb]. rewrite app_nil_r. reflexivity.
  - destruct fuel as [|fuel]; [simpl in Hf; lia|]. simpl in Hf.
    cbn [json_string_to_utf8_loop].
    change (json_escape (ch :: s))
      with ((if Ascii.eqb ch backslash || Ascii.eqb ch dquote then [backslash; ch] else [ch])
            ++ json_escape s).
    destruct (Ascii.eqb ch backslash || Ascii.eqb ch dquote) eqn:Hesc.
    + (* an escaped byte *)
      cbn [app List.length].
      assert (Hin : (List.length pre <? List.length pre + S (S (List.length (json_escape s)))) = true)
        by (apply Nat.ltb_lt; lia).
      rewrite Hin. cbn [negb]. rewrite read_middle. cbn [mbind outcome_bind].
      rewrite Ascii.eqb_refl.
      replace (pre ++ backslash :: ch :: json_escape s ++ rest)
        with ((pre ++ [backslash]) ++ ch :: json_escape s ++ rest)
        by (rewrite <- app_assoc; reflexivity).
      replace (S (List.length pre)) with (List.length (pre ++ [backslash]))
        by (rewrite length_app; simpl; lia).
      rewrite read_middle. cbn [mbind outcome_bind].
      assert (Hq : Ascii.eqb ch backslash || Ascii.eqb ch "/" || Ascii.eqb ch dquote = true).
      { apply orb_true_iff in Hesc as [->| ->]; [reflexivity | apply orb_true_r]. }
      rewrite Hq.
      replace ((pre ++ [backslash]) ++ ch :: json_escape s ++ rest)
        with ((pre ++ [backslash; ch]) ++ json_escape s ++ rest)
        by (rewrite <- !app_assoc; reflexivity).
      replace (S (List.length (pre ++ [backslash]))) with (List.length (pre ++ [backslash; ch]))
        by (rewrite !length_app; simpl; lia).
      replace (List.length pre + S (S (List.length (json_escape s))))
        with (List.length (pre ++ [backslash; ch]) + List.length (json_escape s))
        by (rewrite length_app; simpl; lia).
      rewrite IH by lia. rewrite <- app_assoc. reflexivity.
    + (* a byte that stands for itself *)
      apply orb_false_iff in Hesc as (Hb & Hd).
      cbn [app List.length].
      assert (Hin : (List.length pre <? List.length pre + S (List.length (json_escape s))) = true)
        by (apply Nat.ltb_lt; lia).
      rewrite Hin. cbn [negb]. rewrite read_middle. cbn [mbind outcome_bind].
      rewrite Hb.
      replace (pre ++ ch :: json_escape s ++ rest)
        with ((pre ++ [ch]) ++ json_escape s ++ rest)
        by (rewrite <- app_assoc; reflexivity).
      replace (S (List.length pre)) with (List.length (pre ++ [ch]))
        by (rewrite length_app; simpl; lia).
      replace (List.length pre + S (List.length (json_escape s)))
        with (List.length (pre ++ [ch]) + List.length (json_escape s))
        by (rewrite length_app; simpl; lia).
      rewrite IH by lia. rewrite <- app_assoc. reflexivity.
Qed.

Lemma json_escape_length s : List.length s <= List.length (json_escape s).
Proof.
  induction s as [|ch s IH]; [reflexivity|].
  change (json_escape (ch :: s))
    with ((if Ascii.eqb ch backslash || Ascii.eqb ch dquote then [backslash; ch] else [ch])
          ++ json_escape s).
  destruct (_ || _); rewrite length_app; simpl; lia.
Qed.

(** Escaping and transcoding is the identity: a byte string written as the
    body of a JSON string, with its backslashes and quotation marks escaped
    and every other byte as it is, is given back byte for byte, whatever
    bytes the text has behind the body. *)
Theorem json_string_to_utf8_escape (s rest : bytes) :
  json_string_to_utf8 true (json_escape s ++ rest) (List.length (json_escape s))
  = Ret (s, List.length s).
Proof.
  unfold json_string_to_utf8.
  pose proof (json_string_to_utf8_loop_escape s (S (List.length (json_escape s ++ rest)))
                [] rest [] 0) as H.
  cbn [List.length app Nat.add] in H. rewrite H.
  - reflexivity.
  - rewrite length_app. pose proof (json_escape_length s). lia.
Qed.

Lemma string_body_escape s : Forall string_byte s -> string_body (json_escape s).
Proof.
  induction 1 as [|ch s [Hr Hs] _ IH]; [constructor|].
  change (json_escape (ch :: s))
    with ((if Ascii.eqb ch backslash || Ascii.eqb ch dquote then [backslash; ch] else [ch])
          ++ json_escape s).
  destruct (Ascii.eqb ch backslash || Ascii.eqb ch dquote) eqn:Hesc.
  - apply body_item; [|exact IH]. apply item_escape.
    apply orb_true_iff in Hesc as [H|H]; apply Ascii.eqb_eq in H; subst ch; reflexivity.
  - apply orb_false_iff in Hesc as (Hb & Hd).
    apply body_item; [|exact IH]. apply item_plain; try assumption.
    + intros ->. discriminate Hd.
    + intros ->. discriminate Hb.
Qed.

(** The token of a well-formed string. *)
Lemma getNextToken_string st pre body rest :
  string_body body ->
  JsonParser.m_text st = pre ++ dquote :: body ++ dquote :: rest ->
  JsonParser.m_pos st = List.length pre ->
  exists st',
    JsonParser.getNextToken st
    = Ret (JsonToken.mk (List.length pre) (List.length body + 2) JsonTokenType.JSON_STRING, st').
Proof.
  intros Hbody Htext Hpos.
  pose proof (matchString_at_spec pre body (dquote :: rest) true 1 Hbody (end_quote rest)) as Hm.
  rewrite <- Htext, <- Hpos in Hm at 1.
  assert (JsonParser.m_end st = List.length pre + 1 + List.length body + S (List.length rest))
    as Hend'.
  { unfold JsonParser.m_end. rewrite Htext, length_app. simpl. rewrite length_app. simpl. lia. }
  assert ((JsonParser.m_end st <=? JsonParser.m_pos st) = false) as Hin
    by (apply Nat.leb_gt; lia).
  assert (read (JsonParser.m_text st) (JsonParser.m_pos st) = Ret dquote) as Hread
    by (rewrite Htext, Hpos; apply read_middle).
  unfold JsonParser.getNextToken. rewrite Hin, Hread. cbn [mbind outcome_bind].
  unfold JsonParser.scan_token.
  change (JsonParser.isDigit dquote || Ascii.eqb dquote "-") with false.
  change (Ascii.eqb dquote dquote) with true. cbn iota.
  unfold JsonParser.matched. rewrite Hm. cbn [mbind outcome_bind].
  unfold JsonParser.logInvalidTokenError.
  change (JsonTokenType.eqb JsonTokenType.JSON_STRING JsonTokenType.INVALID) with false.
  cbn iota. cbn [mbind outcome_bind].
  change (JsonTokenType.eqb JsonTokenType.JSON_STRING JsonTokenType.INVALID) with false.
  cbn iota.
  destruct (skipWhitespace_inside
              (JsonParser.with_pos (List.length pre + 1 + List.length body + 1) st))
    as [st' Hst']; [simpl; unfold JsonParser.m_end in *; simpl; lia|].
  cbn [mbind outcome_bind]. rewrite Hst'. cbn [mbind outcome_bind]. exists st'.
  simpl JsonParser.m_pos. rewrite Hpos. do 3 f_equal. lia.
Qed.

(** From the text to the caller's buffer and back.  A byte string [s] of
    bytes that a JSON string can hold, written between quotation marks with
    its backslashes and quotation marks escaped, is scanned as one string
    token; the node made of the token is a string node, and [GetAsString]
    stores [s] itself and returns its length. *)
Theorem string_round_trip (st : JsonParser.t) (pre s rest : bytes) :
  Forall string_byte s ->
  (Z.of_nat (List.length (json_escape s)) < 2 ^ 64)%Z ->
  JsonParser.m_text st = pre ++ dquote :: json_escape s ++ dquote :: rest ->
  JsonParser.m_pos st = List.length pre ->
  exists tok st' node,
    JsonParser.getNextToken st = Ret (tok, st')
    /\ JsonNode.of_token tok = Ret node
    /\ JsonNode.IsString node = true
    /\ GetAsString (JsonParser.m_text st) node true = Ret (s, List.length s).
Proof.
  intros Hs Hlen Htext Hpos.
  destruct (getNextToken_string st pre (json_escape s) rest (string_body_escape s Hs) Htext Hpos)
    as (st' & Htok).
  eexists _, st', _. split; [exact Htok|]. split; [reflexivity|]. split; [reflexivity|].
  unfold GetAsString. cbn [JSON_ASSERT mbind outcome_bind JsonNode.type JsonNode.as_sv
                           string_view.data string_view.length JsonToken.data JsonToken.length].
  change (JsonNodeType.eqb JsonNodeType.JSON_STRING JsonNodeType.JSON_STRING
          || JsonNodeType.eqb JsonNodeType.JSON_STRING JsonNodeType.JSON_KEY) with true.
  cbv iota.
  assert (Hdrop : drop (List.length pre + 1) (JsonParser.m_text st)
                  = json_escape s ++ dquote :: rest).
  { rewrite Htext.
    change (pre ++ dquote :: json_escape s ++ dquote :: rest)
      with (pre ++ [dquote] ++ json_escape s ++ dquote :: rest).
    exact (drop_middle pre [dquote] (json_escape s ++ dquote :: rest)). }
  rewrite Hdrop.
  assert (Hn : Z.to_nat (u64 (Z.of_nat (List.length (json_escape s) + 2) - 2))
               = List.length (json_escape s)).
  { rewrite u64_small by lia. lia. }
  rewrite Hn. unfold json_string_to_utf8.
  pose proof (json_string_to_utf8_loop_escape s
                (S (List.length (json_escape s ++ dquote :: rest))) [] (dquote :: rest) [] 0) as H.
  cbn [List.length app Nat.add] in H. rewrite H.
  - reflexivity.
  - rewrite length_app. pose proof (json_escape_length s). lia.
Qed.

Lemma string_round_trip_witness :
  exists tok st' node,
    JsonParser.getNextToken (JsonParser.SetUp (json_text "'say \'hi\' to C:\\'") [])
      = Ret (tok, st')
    /\ JsonNode.of_token tok = Ret node
    /\ JsonNode.IsString node = true
    /\ GetAsString (json_text "'say \'hi\' to C:\\'") node true
       = Ret (json_text "say 'hi' to C:\", 15).
Proof.
  apply (string_round_trip (JsonParser.SetUp (json_text "'say \'hi\' to C:\\'") [])
           [] (json_text "say 'hi' to C:\") []).
  - repeat constructor; vm_compute; congruence.
  - vm_compute. reflexivity.
  - reflexivity.
  - reflexivity.
Defined.

Lemma hex4_asserted_encode k :
  forall (pre : bytes) w rest length acc,
  (0 <= w < 16 ^ Z.of_nat k)%Z -> (0 <= acc < 2 ^ 32)%Z -> List.length pre + k <= length ->
  hex4_asserted k (pre ++ hex_encode k w ++ rest) length (List.length pre) acc
  = Ret (u32 (acc * 16 ^ Z.of_nat k + w), List.length pre + k).
Proof.
  induction k as [|k IH]; intros pre w rest length acc Hw Hacc Hlen.
  - simpl in *. replace w with 0%Z by lia. rewrite Z.mul_1_r, Z.add_0_r, Nat.add_0_r.
    unfold u32. rewrite Z.mod_small by lia. reflexivity.
  - destruct (nibble_range w k Hw) as (Hd & Hm).
    cbn [hex4_asserted hex_encode app].
    assert (Hin : (List.length pre <? length) = true) by (apply Nat.ltb_lt; lia).
    rewrite Hin. cbn [JSON_ASSERT mbind outcome_bind].
    rewrite read_middle. cbn [mbind outcome_bind].
    rewrite (hex_digit_of_nibble _ Hd). cbn [mbind outcome_bind].
    rewrite (snoc_cons pre).
    replace (S (List.length pre)) with (List.length (pre ++ [nibble_char (w / 16 ^ Z.of_nat k)]))
      by (rewrite length_app; simpl; lia).
    rewrite (IH _ _ rest length _ Hm (u32_range _)) by (rewrite length_app; simpl; lia).
    rewrite u32_step, length_app. simpl List.length. f_equal. f_equal; [|lia]. f_equal.
    rewrite Nat2Z.inj_succ, Z.pow_succ_r by lia.
    pose proof (Z.div_mod w (16 ^ Z.of_nat k)) as E.
    assert (0 < 16 ^ Z.of_nat k)%Z by (apply Z.pow_pos_nonneg; lia).
    specialize (E ltac:(lia)). lia.
Qed.

Lemma surrogate_value hi :
  (55296 <= hi <= 56319)%Z ->
  u32 (u32 (Z.shiftl (u32 (hi - 55296)) 10) + u32 (hi - 56320) + 65536)
  = (1025 * (hi - 55296) + 64512)%Z.
Proof.
  intros Hhi. unfold u32. rewrite (Z.mod_small (hi - 55296)) by lia.
  rewrite Z.shiftl_mul_pow2 by lia.
  rewrite (Z.mod_small ((hi - 55296) * 2 ^ 10)) by lia.
  replace ((hi - 56320) mod 2 ^ 32)%Z with (hi - 56320 + 2 ^ 32)%Z.
  - replace ((hi - 55296) * 2 ^ 10 + (hi - 56320 + 2 ^ 32) + 65536)%Z
      with (1025 * (hi - 55296) + 64512 + 1 * 2 ^ 32)%Z by lia.
    rewrite Z.mod_add by lia. apply Z.mod_small. lia.
  - symmetry. rewrite <- (Z.mod_add _ 1) by lia. apply Z.mod_small. lia.
Qed.

(** The round of the loop on a [u] escape with a high surrogate. *)
Lemma json_string_to_utf8_loop_surrogate fuel (src : bytes) hi lo :
  (55296 <= hi <= 56319)%Z ->
  read src 0 = Ret backslash -> read src 1 = Ret "u"%char ->
  hex4_asserted 4 src 12 2 0 = Ret (hi, 6) ->
  hex4_asserted 4 src 12 8 0 = Ret (lo, 12) ->
  json_string_to_utf8_loop (S (S fuel)) true src 12 0 [] 0
  = Ret (utf8_encode (1025 * (hi - 55296) + 64512), 0).
Proof.
  intros Hhi R0 R1 H1 H2.
  cbn [json_string_to_utf8_loop]. change (negb (0 <? 12)) with false. cbv iota.
  rewrite R0. cbn [mbind outcome_bind].
  change (Ascii.eqb backslash backslash) with true. cbv iota.
  rewrite R1. cbn [mbind outcome_bind].
  change (Ascii.eqb "u" backslash || Ascii.eqb "u" "/" || Ascii.eqb "u" dquote) with false.
  change (Ascii.eqb "u" "u") with true. cbv iota.
  rewrite H1. cbn [mbind outcome_bind].
  assert (Hs : (55296 <=? hi)%Z && (hi <=? 56319)%Z = true).
  { apply andb_true_iff. split; apply Z.leb_le; lia. }
  rewrite Hs. change (6 + 2) with 8. rewrite H2. cbn [mbind outcome_bind].
  rewrite (surrogate_value hi Hhi).
  assert (Hok : (1025 * (hi - 55296) + 64512 <? 1114112)%Z = true) by (apply Z.ltb_lt; lia).
  rewrite Hok. cbn [JSON_ASSERT mbind outcome_bind].
  change (negb (12 <? 12)) with true. cbv iota. rewrite app_nil_l. reflexivity.
Qed.

(** A surrogate pair is not combined.  Behind a [u] escape with a high
    surrogate the function skips two bytes and reads four more hex digits,
    but the value it then computes uses the high surrogate a second time in
    the place of these digits: the result is the encoding of
    [1025 * (hi - 0xD800) + 0xFC00], the same for every low half, and for
    no pair the code point that the pair denotes. *)
Theorem json_string_to_utf8_surrogate (hi lo : Z) (a b : ascii) (rest : bytes) :
  (55296 <= hi <= 56319)%Z -> (0 <= lo < 65536)%Z ->
  json_string_to_utf8 true
    (backslash :: "u"%char :: hex_encode 4 hi ++ a :: b :: hex_encode 4 lo ++ rest) 12
  = Ret (utf8_encode (1025 * (hi - 55296) + 64512),
         List.length (utf8_encode (1025 * (hi - 55296) + 64512))).
Proof.
  intros Hhi Hlo. unfold json_string_to_utf8.
  assert (H1 : hex4_asserted 4
                 (backslash :: "u"%char :: hex_encode 4 hi ++ a :: b :: hex_encode 4 lo ++ rest)
                 12 2 0 = Ret (hi, 6)).
  { pose proof (hex4_asserted_encode 4 [backslash; "u"%char] hi
                  (a :: b :: hex_encode 4 lo ++ rest) 12 0) as H.
    cbn [List.length app] in H.
    rewrite H; [|change (16 ^ Z.of_nat 4)%Z with 65536%Z; lia|lia|lia].
    rewrite Z.mul_0_l, Z.add_0_l. unfold u32. rewrite Z.mod_small by lia. reflexivity. }
  assert (H2 : hex4_asserted 4
                 (backslash :: "u"%char :: hex_encode 4 hi ++ a :: b :: hex_encode 4 lo ++ rest)
                 12 8 0 = Ret (lo, 12)).
  { pose proof (hex4_asserted_encode 4 (backslash :: "u"%char :: hex_encode 4 hi ++ [a; b]) lo
                  rest 12 0) as H.
    replace ((backslash :: "u"%char :: hex_encode 4 hi ++ [a; b]) ++ hex_encode 4 lo ++ rest)
      with (backslash :: "u"%char :: hex_encode 4 hi ++ a :: b :: hex_encode 4 lo ++ rest) in H
      by (cbn [app]; rewrite <- app_assoc; reflexivity).
    assert (L8 : List.length (backslash :: "u"%char :: hex_encode 4 hi ++ [a; b]) = 8)
      by reflexivity.
    rewrite L8 in H.
    rewrite H; [|change (16 ^ Z.of_nat 4)%Z with 65536%Z; lia|lia|lia].
    rewrite Z.mul_0_l, Z.add_0_l. unfold u32. rewrite Z.mod_small by lia. reflexivity. }
  assert (Hlen : List.length
                   (backslash :: "u"%char :: hex_encode 4 hi ++ a :: b :: hex_encode 4 lo ++ rest)
                 = S (11 + List.length rest)) by reflexivity.
  rewrite Hlen.
  erewrite json_string_to_utf8_loop_surrogate;
    [reflexivity | exact Hhi | reflexivity | reflexivity | exact H1 | exact H2].
Qed.

Lemma json_string_to_utf8_surrogate_witness :
  json_string_to_utf8 true (list_ascii_of_string "\ud83d\ude00") 12
  = Ret (utf8_encode 127037, 4)
  /\ json_string_to_utf8 true (list_ascii_of_string "\ud83d\udfff") 12
     = Ret (utf8_encode 127037, 4).
Proof.
  split.
  - exact (json_string_to_utf8_surrogate 55357 56832 backslash "u"%char []
             (conj (proj1 (Z.leb_le 55296 55357) eq_refl) (proj1 (Z.leb_le 55357 56319) eq_refl))
             (conj (proj1 (Z.leb_le 0 56832) eq_refl) (proj1 (Z.ltb_lt 56832 65536) eq_refl))).
  - exact (json_string_to_utf8_surrogate 55357 57343 backslash "u"%char []
             (conj (proj1 (Z.leb_le 55296 55357) eq_refl) (proj1 (Z.leb_le 55357 56319) eq_refl))
             (conj (proj1 (Z.leb_le 0 57343) eq_refl) (proj1 (Z.ltb_lt 57343 65536) eq_refl))).
Defined.

(** ** Builder: the views of the nodes stay inside the text *)

Lemma matchString_at_two text pos p :
  JsonParser.matchString_at text pos = Ret (true, p) -> pos + 2 <= p.
Proof.
  unfold JsonParser.matchString_at. intros H.
  bind_as H as p1 E1. apply matchString_loop_mono in E1.
  bind_as H as r E2. injection H as -> <-. lia.
Qed.

Lemma matched_string_two st type st' :
  JsonParser.matched (JsonParser.matchString_at (JsonParser.m_text st) (JsonParser.m_pos st))
    JsonTokenType.JSON_STRING "string expected" st = Ret (type, st') ->
  type = JsonTokenType.JSON_STRING -> JsonParser.m_pos st + 2 <= JsonParser.m_pos st'.
Proof.
  unfold JsonParser.matched. intros H Hty. bind_as H as [ok p] E.
  bind_as H as s1 E1. injection H as <- <-. destruct ok; [|discriminate].
  apply matchString_at_two in E. apply logInvalidTokenError_inv in E1 as (log & ->).
  simpl. exact E.
Qed.

Lemma scan_token_string ch st type st' :
  JsonParser.scan_token ch st = Ret (type, st') ->
  type = JsonTokenType.JSON_STRING -> JsonParser.m_pos st + 2 <= JsonParser.m_pos st'.
Proof.
  unfold JsonParser.scan_token. intros H Hty.
  destruct (JsonParser.isDigit ch || Ascii.eqb ch "-").
  { bind_inv H. destruct a.
    - bind_inv H. destruct a as [rc p]. bind_as H as s1 E1. injection H as <- _.
      destruct (rc =? 1)%Z; [discriminate|]. destruct (rc =? 2)%Z; discriminate.
    - apply matched_kind in H as [->| ->]; discriminate. }
  destruct (Ascii.eqb ch dquote).
  { exact (matched_string_two _ _ _ H Hty). }
  destruct (Ascii.eqb ch "t"); [apply matched_kind in H as [->| ->]; discriminate|].
  destruct (Ascii.eqb ch "f"); [apply matched_kind in H as [->| ->]; discriminate|].
  destruct (Ascii.eqb ch "n"); [apply matched_kind in H as [->| ->]; discriminate|].
  repeat match type of H with
         | (if ?b then _ else _) = _ => destruct b; [injection H as <- _; discriminate|]
         end.
  bind_as H as s1 Elog. injection H as <- _. discriminate.
Qed.

(** The token [getNextToken] returns lies inside the text; a string token
    holds its two quotation marks at least. *)
Lemma getNextToken_token_ok st tok st' :
  JsonParser.getNextToken st = Ret (tok, st') ->
  JsonParser.m_pos st <= JsonParser.m_end st ->
  token_ok (JsonParser.m_text st) tok /\ JsonParser.m_pos st' <= JsonParser.m_end st'
  /\ JsonParser.m_text st' = JsonParser.m_text st.
Proof.
  unfold JsonParser.getNextToken. intros H Hpos.
  destruct (JsonParser.m_end st <=? JsonParser.m_pos st) eqn:Hend.
  { injection H as <- <-. unfold token_ok. simpl. unfold JsonParser.m_end in *.
    split; [split; [lia | intros [|]; discriminate]|]. split; [lia | reflexivity]. }
  apply Nat.leb_gt in Hend.
  bind_as H as ch E1. bind_as H as [type s1] E2. bind_as H as s2 E3. bind_as H as s3 E4.
  injection H as <- <-.
  pose proof (scan_token_string _ _ _ _ E2) as Hstr.
  pose proof (scan_token_start _ _ _ _ E2) as Hstart.
  apply scan_token_spec in E2 as ((T1 & _) & _ & P1 & _).
  assert (P2 : JsonParser.m_pos s1 <= JsonParser.m_pos s2
               /\ JsonParser.m_text s2 = JsonParser.m_text s1).
  { destruct (JsonTokenType.eqb type JsonTokenType.INVALID).
    - bind_as E3 as p E5. injection E3 as <-. simpl.
      apply scan_while_mono in E5. split; [lia | reflexivity].
    - injection E3 as <-. split; [lia | reflexivity]. }
  destruct P2 as (P2 & T2).
  apply skipWhitespace_spec in E4 as ((T3 & _) & _ & P3 & P4).
  unfold JsonParser.m_end in *. rewrite T2, T1 in P4. rewrite T3, T2, T1.
  split; [|split; [lia | reflexivity]].
  unfold token_ok. simpl. split; [lia|].
  intros [Hty|Hty]; [|rewrite Hty in Hstart; destruct Hstart].
  specialize (Hstr Hty). lia.
Qed.

Lemma advance_views st st' :
  JsonParser.advance st = Ret st' ->
  nodes_ok st -> JsonParser.m_pos st <= JsonParser.m_end st ->
  views_ok st' /\ JsonParser.m_text st' = JsonParser.m_text st.
Proof.
  intros H Hnodes Hpos. pose proof (advance_kept _ _ H) as ((Kb & Kc) & _).
  unfold JsonParser.advance in H. bind_as H as [tok s] E. injection H as <-.
  apply getNextToken_token_ok in E as (Htok & Hp & Ht); [|exact Hpos].
  split; [|exact Ht]. unfold views_ok, nodes_ok. simpl in *. rewrite Ht.
  split; [|split; [exact Htok | exact Hp]].
  intros i n Hi Hn. rewrite Kc in Hi. rewrite Kb in Hn. eauto.
Qed.

Lemma of_token_view text tok node :
  JsonNode.of_token tok = Ret node -> token_ok text tok -> view_ok text node.
Proof.
  unfold JsonNode.of_token, token_ok, view_ok. intros H (Hin & Hstr).
  destruct (JsonToken.type tok) eqn:Hty; try discriminate H; injection H as <-; simpl;
    (split; [exact Hin|]); intros Hs; try discriminate Hs; apply Hstr; auto.
Qed.

Lemma pushNode_views st b st' :
  JsonParser.pushNode st = Ret (b, st') -> views_ok st ->
  views_ok st' /\ JsonParser.m_text st' = JsonParser.m_text st.
Proof.
  intros H (Hnodes & Htok & Hpos). destruct b.
  - apply pushNode_true in H as (node & Hnode & Hlt & ->). simpl.
    split; [|reflexivity]. split; [|split; [exact Htok | exact Hpos]].
    unfold nodes_ok. simpl.
    intros i n Hi Hn. destruct (Nat.eq_dec i (JsonParser.m_nodeCount st)) as [->|Hne].
    + rewrite list_lookup_insert_eq in Hn by exact Hlt. injection Hn as <-.
      exact (of_token_view _ _ _ Hnode Htok).
    + rewrite list_lookup_insert_ne in Hn by congruence. apply (Hnodes i); [lia | exact Hn].
  - apply pushNode_inv in H as [(? & _)|(_ & _ & ->)]; [discriminate|].
    simpl. split; [|reflexivity]. split; [|split]; assumption.
Qed.

Lemma retype_views ty st :
  views_ok st ->
  (ty = JsonTokenType.JSON_KEY -> JsonParser.token_is JsonTokenType.JSON_STRING st = true) ->
  ty <> JsonTokenType.JSON_STRING ->
  views_ok (JsonParser.with_currentToken
              (JsonToken.mk (JsonToken.data (JsonParser.m_currentToken st))
                 (JsonToken.length (JsonParser.m_currentToken st)) ty) st).
Proof.
  intros (Hnodes & (Hin & Hstr) & Hpos) Hkey Hne.
  split; [exact Hnodes|]. split; [|exact Hpos]. split; [exact Hin|].
  simpl. intros [->| ->]; [congruence|]. apply Hstr. left.
  specialize (Hkey eq_refl). unfold JsonParser.token_is, JsonTokenType.eqb in Hkey.
  apply bool_decide_eq_true in Hkey. exact Hkey.
Qed.

Lemma expect_views b msg st r st' :
  JsonParser.expect b msg st = Ret (r, st') -> views_ok st ->
  views_ok st' /\ JsonParser.m_text st' = JsonParser.m_text st.
Proof.
  destruct b; intros H Hv.
  - unfold JsonParser.expect in H. cbn [negb] in H. injection H as _ <-. auto.
  - apply expect_inv in H as (_ & ec & tok & log & b1 & E & Hd & Hl & Hty).
    apply pushNode_views in E; [exact E|].
    destruct Hv as (Hnodes & (Hin & Hstr) & Hpos).
    split; [exact Hnodes|]. split; [|exact Hpos]. simpl. split.
    + rewrite Hd, Hl. exact Hin.
    + rewrite Hl. destruct Hty as [(_ & -> & _)|(_ & -> & _)];
        [intros [?|?]; discriminate | exact Hstr].
Qed.

Lemma update_node_views i f st st' :
  JsonParser.update_node i f st = Ret st' ->
  (forall n, JsonNode.as_sv (f n) = JsonNode.as_sv n /\ JsonNode.type (f n) = JsonNode.type n) ->
  views_ok st -> views_ok st' /\ JsonParser.m_text st' = JsonParser.m_text st.
Proof.
  intros H Hf (Hnodes & Htok & Hpos).
  apply update_node_inv in H as (n0 & Hn0 & ->). simpl.
  split; [|reflexivity]. split; [|split; [exact Htok | exact Hpos]].
  unfold nodes_ok. simpl. intros j n Hj Hn.
  destruct (Nat.eq_dec j i) as [->|Hne].
  - rewrite list_lookup_insert_eq in Hn by (eapply lookup_lt_Some; exact Hn0).
    injection Hn as <-. specialize (Hnodes i n0 Hj Hn0).
    destruct (Hf n0) as (Hsv & Hty). unfold view_ok, JsonNode.IsString in *.
    rewrite Hsv, Hty. exact Hnodes.
  - rewrite list_lookup_insert_ne in Hn by congruence. eauto.
Qed.

Lemma link_previous_views prev l st st' :
  JsonParser.link_previous prev l st = Ret st' ->
  views_ok st -> views_ok st' /\ JsonParser.m_text st' = JsonParser.m_text st.
Proof.
  unfold JsonParser.link_previous. destruct prev as [p|].
  - intros H. eapply update_node_views; [exact H|]. intros n. split; reflexivity.
  - intros [= <-]. auto.
Qed.

(** Runs the executed steps over a state whose views are good. *)
Ltac note_views :=
  repeat match goal with
    | H : negb ?b = false |- _ => apply negb_false_iff in H; subst b
    | F : views_ok ?s, E : JsonParser.expect _ _ ?s = Ret (true, _) |- _ =>
        destruct (expect_true _ _ _ _ E) as (? & ->); clear E
    | F : views_ok ?s, E : JsonParser.expect _ _ ?s = Ret _ |- _ =>
        destruct (expect_views _ _ _ _ _ E F) as (? & ?); clear E
    | F : views_ok ?s, E : JsonParser.pushNode ?s = Ret _ |- _ =>
        destruct (pushNode_views _ _ _ E F) as (? & ?); clear E
    | F : views_ok ?s, T : JsonParser.token_is JsonTokenType.JSON_STRING ?s = true,
      E : JsonParser.pushNode (JsonParser.with_currentToken _ ?s) = Ret _ |- _ =>
        destruct (pushNode_views _ _ _ E
                    (retype_views JsonTokenType.JSON_KEY s F (fun _ => T) ltac:(discriminate)))
          as (? & ?); clear E
    | F : views_ok ?s, E : JsonParser.advance ?s = Ret _ |- _ =>
        destruct (advance_views _ _ E (proj1 F) (proj2 (proj2 F))) as (? & ?); clear E
    | F : views_ok ?s, E : JsonParser.update_node _ _ ?s = Ret _ |- _ =>
        destruct (update_node_views _ _ _ _ E (fun n => conj eq_refl eq_refl) F) as (? & ?);
        clear E
    | F : views_ok ?s, E : JsonParser.link_previous _ _ ?s = Ret _ |- _ =>
        destruct (link_previous_views _ _ _ _ E F) as (? & ?); clear E
    end.

Ltac close_views :=
  simpl in *; try discriminate;
  repeat match goal with
    | H : _ /\ _ |- _ => destruct H
    end;
  subst; simpl in *; try discriminate;
  (split; [assumption | congruence]).

Ltac use_views IHa IHal IHo IHol :=
  match goal with
  | F : views_ok ?s, E : JsonParser.parseArray _ ?s = Ret _ |- _ =>
      destruct (IHa _ _ _ F E) as (? & ?); clear E
  | F : views_ok ?s, E : JsonParser.parseArray_loop _ _ _ ?s = Ret _ |- _ =>
      destruct (IHal _ _ _ _ _ F E) as (? & ?); clear E
  | F : views_ok ?s, E : JsonParser.parseObject _ ?s = Ret _ |- _ =>
      destruct (IHo _ _ _ F E) as (? & ?); clear E
  | F : views_ok ?s, E : JsonParser.parseObject_loop _ _ _ _ ?s = Ret _ |- _ =>
      destruct (IHol _ _ _ _ _ _ F E) as (? & ?); clear E
  end.

Lemma parse_views fuel :
  (forall st b st', views_ok st -> JsonParser.parseArray fuel st = Ret (b, st') ->
     views_ok st' /\ JsonParser.m_text st' = JsonParser.m_text st)
  /\ (forall c p st b st', views_ok st ->
        JsonParser.parseArray_loop fuel c p st = Ret (b, st') ->
        views_ok st' /\ JsonParser.m_text st' = JsonParser.m_text st)
  /\ (forall st b st', views_ok st -> JsonParser.parseObject fuel st = Ret (b, st') ->
        views_ok st' /\ JsonParser.m_text st' = JsonParser.m_text st)
  /\ (forall c pk pv st b st', views_ok st ->
        JsonParser.parseObject_loop fuel c pk pv st = Ret (b, st') ->
        views_ok st' /\ JsonParser.m_text st' = JsonParser.m_text st).
Proof.
  induction fuel as [|fuel (IHa & IHal & IHo & IHol)].
  { repeat split; intros; discriminate. }
  split; [|split; [|split]].
  - intros st b st' F H. cbn [JsonParser.parseArray] in H.
    bind_step H. note_views.
    destruct (JsonParser.token_is JsonTokenType.JSON_ARRAY_END x).
    + ret_inv H. close_views.
    + apply IHal in H; [|assumption]. close_views.
  - intros c p st b st' F H. cbn [JsonParser.parseArray_loop] in H.
    walk H; repeat (progress note_views || use_views IHa IHal IHo IHol); close_views.
  - intros st b st' F H. cbn [JsonParser.parseObject] in H.
    bind_step H. note_views.
    destruct (JsonParser.token_is JsonTokenType.JSON_OBJECT_END x).
    + ret_inv H. close_views.
    + apply IHol in H; [|assumption]. close_views.
  - intros c pk pv st b st' F H. cbn [JsonParser.parseObject_loop] in H.
    walk H; repeat (progress note_views || use_views IHa IHal IHo IHol); close_views.
Qed.

Lemma views_nodes st : views_ok st -> nodes_ok st /\ JsonParser.m_pos st <= JsonParser.m_end st.
Proof. intros (Hn & _ & Hp). split; assumption. Qed.

Lemma Parse_loop_views fuel st b st' :
  JsonParser.Parse_loop fuel st = Ret (b, st') ->
  nodes_ok st -> JsonParser.m_pos st <= JsonParser.m_end st ->
  nodes_ok st' /\ JsonParser.m_pos st' <= JsonParser.m_end st'
  /\ JsonParser.m_text st' = JsonParser.m_text st.
Proof.
  revert st b. induction fuel as [|fuel IH]; intros st b H Hn Hp; [discriminate|].
  destruct (parse_views fuel) as (IHa & IHal & IHo & IHol).
  cbn [JsonParser.Parse_loop] in H.
  destruct (negb (JsonParser.m_pos st <? JsonParser.m_end st)).
  { ret_inv H. auto. }
  bind_as H as s1 E1. destruct (advance_views _ _ E1 Hn Hp) as (V1 & T1). clear E1.
  assert (Hend : forall s, views_ok s -> JsonParser.m_text s = JsonParser.m_text st ->
                   nodes_ok s /\ JsonParser.m_pos s <= JsonParser.m_end s
                   /\ JsonParser.m_text s = JsonParser.m_text st).
  { intros s (Vn & _ & Vp) Ht. auto. }
  assert (Hrec : forall s b', views_ok s -> JsonParser.m_text s = JsonParser.m_text st ->
                   JsonParser.Parse_loop fuel s = Ret (b', st') ->
                   nodes_ok st' /\ JsonParser.m_pos st' <= JsonParser.m_end st'
                   /\ JsonParser.m_text st' = JsonParser.m_text st).
  { intros s b' (Vn & _ & Vp) Ht Hs. destruct (IH _ _ Hs Vn Vp) as (? & ? & ?).
    split; [assumption|]. split; [assumption | congruence]. }
  clear IH Hn Hp.
  walk H; repeat (progress note_views || use_views IHa IHal IHo IHol);
    repeat match goal with H : _ /\ _ |- _ => destruct H end; subst;
    first [ eapply Hrec; [| |eassumption]; [assumption | congruence]
          | apply Hend; [assumption | congruence] ].
Qed.

Lemma Parse_nodes_ok buffer st st' :
  JsonParser.Parse (Some buffer) st = Ret st' ->
  nodes_ok st' /\ JsonParser.m_text st' = JsonParser.m_text st.
Proof.
  unfold JsonParser.Parse.
  set (st0 := JsonParser.mk _ _ _ _ _ _ _ _).
  change (JsonParser.IsValid st0) with false. cbv iota.
  intros H.
  assert (N0 : nodes_ok st0) by (intros j m Hj; simpl in Hj; lia).
  assert (P0 : JsonParser.m_pos st0 <= JsonParser.m_end st0) by (simpl; lia).
  bind_as H as st1 E1.
  apply skipWhitespace_spec in E1 as ((T1 & _ & B1 & C1) & _ & P1).
  assert (N1 : nodes_ok st1).
  { intros j m Hj Hm. rewrite C1 in Hj. simpl in Hj. lia. }
  assert (P1' : JsonParser.m_pos st1 <= JsonParser.m_end st1).
  { unfold JsonParser.m_end in *. rewrite T1. lia. }
  bind_as H as [b st2] E2.
  destruct (Parse_loop_views _ _ _ _ E2 N1 P1') as (N2 & P2 & T2).
  destruct b.
  - bind_as H as [b3 st4] E3. bind_as E3 as st3 E4.
    destruct (advance_views _ _ E4 N2 P2) as (V3 & T3).
    destruct (pushNode_views _ _ _ E3 V3) as ((N4 & _) & T4).
    assert (Hlog : exists ec log,
              st' = JsonParser.mk (JsonParser.m_text st4) (JsonParser.m_pos st4) ec
                      (JsonParser.m_nodeBuffer st4) (JsonParser.m_nodeCount st4)
                      (JsonParser.m_currentToken st4) (JsonParser.m_currentLine st4) log).
    { destruct b3; [injection H as <-; eexists _, _; reflexivity|].
      apply logInvalidTokenPosition_inv in H as (log & ->). eexists _, _. reflexivity. }
    destruct Hlog as (ec & log & ->). simpl. split; [exact N4|].
    rewrite T4, T3, T2, T1. reflexivity.
  - cbn [mbind outcome_bind] in H.
    apply logInvalidTokenPosition_inv in H as (log & ->).
    simpl. split; [exact N2|]. rewrite T2, T1. reflexivity.
Qed.

(** A parse into a new buffer that returns, with whatever status, has left
    in every scalar node it has stored a view that lies inside the text;
    the view of a string or of a key holds two bytes at least, so that the
    [as_sv.length - 2] of [GetAsString] does not wrap. *)
Theorem Parse_views_inside buffer st st' i n :
  JsonParser.Parse (Some buffer) st = Ret st' ->
  i < JsonParser.GetCount st' ->
  JsonParser.m_nodeBuffer st' !! i = Some n ->
  JsonNode.IsComplex n = false ->
  JsonParser.m_text st' = JsonParser.m_text st
  /\ string_view.data (JsonNode.as_sv n) + string_view.length (JsonNode.as_sv n)
     <= List.length (JsonParser.m_text st)
  /\ (JsonNode.IsString n = true -> 2 <= string_view.length (JsonNode.as_sv n)).
Proof.
  unfold JsonParser.GetCount. intros H Hi Hn _.
  destruct (Parse_nodes_ok _ _ _ H) as (Nall & Tall). split; [exact Tall|].
  rewrite <- Tall. exact (Nall i n Hi Hn).
Qed.

Lemma Parse_views_inside_witness :
  exists st',
    JsonParser.Parse (Some (replicate 8 (JsonNode.mk (string_view.mk 0 0) 0 JsonNodeType.INVALID None)))
      (JsonParser.SetUp (json_text "{'key':['\\n',-1.5e3]}") []) = Ret st'
    /\ 8 + 5 <= List.length (json_text "{'key':['\\n',-1.5e3]}").
Proof.
  eexists.
  assert (HP : JsonParser.Parse
                 (Some (replicate 8 (JsonNode.mk (string_view.mk 0 0) 0 JsonNodeType.INVALID None)))
                 (JsonParser.SetUp (json_text "{'key':['\\n',-1.5e3]}") []) = Ret _)
    by (vm_compute; reflexivity).
  destruct (Parse_views_inside _ _ _ 3
              (JsonNode.mk (string_view.mk 8 5) 0 JsonNodeType.JSON_STRING (Some 4)) HP)
    as (_ & Hin & _).
  - vm_compute. lia.
  - vm_compute. reflexivity.
  - reflexivity.
  - split; [exact HP | exact Hin].
Defined.

(** Where a parse that returns stands: the scanner has not passed the end of
    the text. *)
Lemma Parse_loop_inside fuel st b st' :
  JsonParser.Parse_loop fuel st = Ret (b, st') ->
  nodes_ok st -> JsonParser.m_pos st <= JsonParser.m_end st ->
  JsonParser.m_pos st' <= JsonParser.m_end st'.
Proof. intros H Hn Hp. exact (proj1 (proj2 (Parse_loop_views _ _ _ _ H Hn Hp))). Qed.

(** A parse into a fresh buffer that returns with [VALID_JSON] - so no read
    has left the text on the way - has read the text to its end, [m_pos] is
    [m_end], and has closed the nodes with the [JSON_EOF] node: the count is
    at least one (also for an empty text), and the last node counted is the
    empty view at the end of the text. *)
Theorem Parse_valid_ends_with_EOF (buffer : list JsonNode.t) (st st' : JsonParser.t) :
  JsonParser.Parse (Some buffer) st = Ret st' ->
  JsonParser.IsValid st' = true ->
  JsonParser.m_pos st' = JsonParser.m_end st'
  /\ JsonParser.m_text st' = JsonParser.m_text st
  /\ exists n,
       JsonParser.GetCount st' = S n
       /\ JsonParser.m_nodeBuffer st' !! n
          = Some (JsonNode.mk (string_view.mk (List.length (JsonParser.m_text st)) 0) 0
                    JsonNodeType.JSON_EOF None).
Proof.
  unfold JsonParser.Parse, JsonParser.GetCount.
  set (st0 := JsonParser.mk _ _ _ _ _ _ _ _).
  change (JsonParser.IsValid st0) with false. cbv iota.
  intros H V. bind_as H as st1 E1.
  assert (N0 : nodes_ok st0) by (intros j m Hj; simpl in Hj; lia).
  apply skipWhitespace_spec in E1 as ((T1 & _ & B1 & C1) & _ & P1).
  assert (N1 : nodes_ok st1).
  { intros j m Hj Hm. rewrite C1 in Hj. simpl in Hj. lia. }
  assert (P1' : JsonParser.m_pos st1 <= JsonParser.m_end st1).
  { unfold JsonParser.m_end in *. rewrite T1. lia. }
  bind_as H as [b st2] E2.
  pose proof (Parse_loop_inside _ _ _ _ E2 N1 P1') as P2.
  destruct (Parse_loop_views _ _ _ _ E2 N1 P1') as (_ & _ & T2).
  destruct b.
  - apply Parse_loop_done in E2.
    bind_as H as [b3 st4] E3. bind_as E3 as st3 E4.
    apply (advance_at_end _ _ E2) in E4. subst st3.
    destruct b3.
    + injection H as <-.
      apply pushNode_true in E3 as (node & Hnode & Hlt & ->).
      cbn in Hnode. injection Hnode as <-. simpl in *.
      assert (Hpos : JsonParser.m_pos st2 = JsonParser.m_end st2) by lia.
      split; [exact Hpos|]. split; [rewrite T2, T1; reflexivity|].
      exists (JsonParser.m_nodeCount st2).
      split; [lia|]. rewrite Hpos. unfold JsonParser.m_end. rewrite T2, T1. simpl.
      apply list_lookup_insert_eq. exact Hlt.
    + apply logInvalidTokenPosition_inv in H as (log & ->).
      apply pushNode_false in E3 as (C & _). unfold JsonParser.IsValid in V.
      simpl in V. rewrite C in V. discriminate.
  - cbn [mbind outcome_bind] in H.
    apply logInvalidTokenPosition_inv in H as (log & ->).
    destruct (Parse_loop_false_status _ _ _ E2) as [C|[C|C]];
      unfold JsonParser.IsValid in V; simpl in V; rewrite C in V; discriminate.
Qed.

Lemma Parse_valid_ends_with_EOF_witness :
  exists st',
    JsonParser.Parse (Some (replicate 4 (JsonNode.mk (string_view.mk 0 0) 0 JsonNodeType.INVALID None)))
      (JsonParser.SetUp (json_text "{'k':true} ") []) = Ret st'
    /\ JsonParser.m_pos st' = JsonParser.m_end st'
    /\ JsonParser.m_nodeBuffer st' !! 3
       = Some (JsonNode.mk (string_view.mk 11 0) 0 JsonNodeType.JSON_EOF None).
Proof.
  eexists.
  assert (HP : JsonParser.Parse
                 (Some (replicate 4 (JsonNode.mk (string_view.mk 0 0) 0 JsonNodeType.INVALID None)))
                 (JsonParser.SetUp (json_text "{'k':true} ") []) = Ret _)
    by (vm_compute; reflexivity).
  destruct (Parse_valid_ends_with_EOF _ _ _ HP) as (Hpos & _ & n & Hn & Heof).
  - vm_compute. reflexivity.
  - split; [exact HP|]. split; [exact Hpos|].
    vm_compute in Hn. injection Hn as <-. exact Heof.
Defined.

(** ** Builder: the report of the position of a failure *)






(** ** Scanner: a string that the text ends in *)

(** A string without its closing quotation mark at the end of the text.
    [matchString] stops at [m_end] and rejects the token; [getNextToken]
    then steps over the byte behind the invalid token before it compares
    [m_pos] with [m_end], so [m_pos] is [m_end + 1] and the loop that skips
    invalid bytes reads outside the text.  (When the log has no room for the
    message, the assertion of [appendToErrorLog] fails before that.) *)
Theorem getNextToken_unterminated_string (st : JsonParser.t) (pre body : bytes) :
  string_body body ->
  JsonParser.m_text st = pre ++ dquote :: body ->
  JsonParser.m_pos st = List.length pre ->
  List.length (JsonParser.m_errorLog st)
  + List.length (JsonParser.invalid_token_message (JsonParser.m_currentLine st)
                   (Some "string expected"))
  <= JsonParser.JSON_ERROR_MESSAGE_LENGTH ->
  JsonParser.matchString_at (JsonParser.m_text st) (JsonParser.m_pos st)
  = Ret (false, JsonParser.m_end st)
  /\ JsonParser.getNextToken st = Fault OutOfBounds.
Proof.
  intros Hbody Htext Hpos Hroom.
  pose proof (matchString_at_spec pre body [] false 0 Hbody end_of_text) as Hm.
  rewrite app_nil_r in Hm. rewrite <- Htext, <- Hpos in Hm at 1.
  assert (Hend : JsonParser.m_end st = List.length pre + 1 + List.length body + 0).
  { unfold JsonParser.m_end. rewrite Htext, length_app. simpl. lia. }
  rewrite <- Hend in Hm. split; [exact Hm|].
  assert ((JsonParser.m_end st <=? JsonParser.m_pos st) = false) as Hin
    by (apply Nat.leb_gt; lia).
  assert (read (JsonParser.m_text st) (JsonParser.m_pos st) = Ret dquote) as Hread
    by (rewrite Htext, Hpos; apply read_middle).
  unfold JsonParser.getNextToken. rewrite Hin, Hread. cbn [mbind outcome_bind].
  unfold JsonParser.scan_token.
  change (JsonParser.isDigit dquote || Ascii.eqb dquote "-") with false.
  change (Ascii.eqb dquote dquote) with true. cbn iota.
  unfold JsonParser.matched. rewrite Hm. cbn [mbind outcome_bind].
  unfold JsonParser.logInvalidTokenError.
  change (JsonTokenType.eqb JsonTokenType.INVALID JsonTokenType.INVALID) with true.
  cbn iota.
  rewrite appendToErrorLog_room by exact Hroom. cbn [mbind outcome_bind].
  change (JsonTokenType.eqb JsonTokenType.INVALID JsonTokenType.INVALID) with true.
  cbn iota. unfold JsonParser.scan_while.
  cbn [JsonParser.m_text JsonParser.m_pos JsonParser.with_pos].
  assert (Hover : (List.length (JsonParser.m_text st) <? JsonParser.m_end st + 1) = true)
    by (apply Nat.ltb_lt; unfold JsonParser.m_end; lia).
  rewrite Hover. reflexivity.
Qed.

Lemma getNextToken_unterminated_string_witness :
  JsonParser.getNextToken (JsonParser.with_pos 1 (JsonParser.SetUp (json_text "['abc") []))
  = Fault OutOfBounds.
Proof.
  refine (proj2 (getNextToken_unterminated_string
                   (JsonParser.with_pos 1 (JsonParser.SetUp (json_text "['abc") []))
                   (json_text "[") (json_text "abc") _ _ _ _)).
  - apply (body_item ["a"%char]); [constructor; vm_compute; intuition congruence|].
    apply (body_item ["b"%char]); [constructor; vm_compute; intuition congruence|].
    apply (body_item ["c"%char]); [constructor; vm_compute; intuition congruence|].
    constructor.
  - reflexivity.
  - reflexivity.
  - vm_compute. lia.
Defined.
